(** * A shallow embedding of the CodinGame "summer 2025" bot (Go)

    Sources: the team-FSM / behaviour-tree bot ([part_000]), the
    strategy-based bot versions in [2025/Summer/main.go] and the referee
    simulator in [simple_tester/real_game_tester.go].

    Modelling conventions.
    - Go [int] is modelled as [Z]; the values involved (coordinates,
      wetness, ranges) are small, so no wrap-around is reachable.
    - Go [float64] scores are modelled as exact rationals [Q]; every
      score compared below is a sum of small integers, halves or
      quarters, except the inverse-distance weights, which [Q] computes
      without rounding.
    - A Go map [map[int]*Agent] is the stdpp map [gmap Z Agent]; the
      pointers of [MyAgents] alias its entries, so [MyAgents] holds the
      ids of those entries (an arena addressed by id).
    - Go's [range] over a map visits the entries in an order the runtime
      chooses anew on every run.  Functions whose result does not depend
      on that order iterate [map_to_list]; [FindBestShootTarget], whose
      result does, takes the visiting order as an argument.
    - [g.Grid[y][x]] is only read after [IsValidPosition] (or inside the
      [0..Height) x [0..Width) loops); [initializeGame] allocates
      [Height] rows of [Width] tiles, so these reads are in range. *)

From Stdlib Require Import ZArith QArith Qround Lia Permutation Lqa.
From stdpp Require Import base gmap list strings pretty.

Open Scope Z_scope.

(** ** Data model *)

Record Tile := mkTile { tileX : Z; tileY : Z; TileType : Z }.

(** Static and dynamic protocol fields of an [Agent]; the decision
    scratch fields (tactical state, path, [TargetX]/[TargetY]) are read
    by none of the functions modelled here. *)
Record Agent := mkAgent {
  ID : Z; Player : Z; ShootCooldown : Z; OptimalRange : Z;
  SoakingPower : Z; MaxSplashBombs : Z;
  X : Z; Y : Z; Cooldown : Z; SplashBombs : Z; Wetness : Z }.

Record Game := mkGame {
  MyID : Z;
  Grid : list (list Tile);
  Width : Z;
  Height : Z;
  Agents : gmap Z Agent;
  MyAgents : list Z;
  TurnNumber : Z }.

Inductive ActionType := ActionMove | ActionShoot | ActionThrow | ActionHunker | ActionMessage.

Record AgentAction := mkAction {
  AType : ActionType;
  TargetX : Z; TargetY : Z;
  TargetAgentID : Z;
  Message : string;
  Priority : Z;
  Reason : string }.

(** The Go zero value of [AgentAction]. *)
Definition zeroAction : AgentAction := mkAction ActionMove 0 0 0 "" 0 "".

Definition PriorityEmergency : Z := 100.
Definition PriorityCombat : Z := 50.
Definition PriorityMovement : Z := 30.
Definition PriorityDefault : Z := 10.

(** ** Geometry *)

(** [lo, lo+1, ..., hi] as a Go [for v := lo; v <= hi; v++] loop visits it. *)
Definition Zrange (lo hi : Z) : list Z :=
  map (fun n => lo + Z.of_nat n) (seq 0 (Z.to_nat (hi - lo + 1))).

Definition IsValidPosition (g : Game) (x y : Z) : bool :=
  (0 <=? x) && (x <? Width g) && (0 <=? y) && (y <? Height g).

(** [g.Grid[y][x].Type]. *)
Definition tile_type (g : Game) (x y : Z) : Z :=
  match Grid g !! Z.to_nat y ≫= (fun row => row !! Z.to_nat x) with
  | Some t => TileType t
  | None => 0
  end.

Definition manhattan (x1 y1 x2 y2 : Z) : Z := Z.abs (x1 - x2) + Z.abs (y1 - y2).

(** The agents of [g.Agents] in the order [range] visits them. *)
Definition range_Agents (g : Game) : list Agent := (map_to_list (Agents g)).*2.

(** [g.MyAgents]: the friendly entries of the arena. *)
Definition my_agents (g : Game) : list Agent := omap (fun id => Agents g !! id) (MyAgents g).

Definition is_live_enemy (g : Game) (a : Agent) : bool :=
  negb (Player a =? MyID g) && (Wetness a <? 100).

(** [GetMaxAdjacentCover] (part_000 and main.go agree). *)
Definition GetMaxAdjacentCover (g : Game) (x y : Z) : Z :=
  fold_left (fun maxCover (d : Z * Z) =>
      let adjX := x + d.1 in let adjY := y + d.2 in
      if IsValidPosition g adjX adjY then
        let coverType := tile_type g adjX adjY in
        if maxCover <? coverType then coverType else maxCover
      else maxCover)
    [(0, -1); (0, 1); (-1, 0); (1, 0)] 0.

(** ** Scores used by the movement resolver (part_000) *)

Definition Qltb (a b : Q) : bool := negb (Qle_bool b a).

(** [CalculatePositionTerritoryValue]: [1.0 / (1.0 + d*0.1)] is [10 / (10 + d)]. *)
Definition CalculatePositionTerritoryValue (g : Game) (x y : Z) : Q :=
  let controlRadius := 6 in
  fold_left (fun value dy =>
    fold_left (fun value dx =>
      let checkX := x + dx in let checkY := y + dy in
      if negb (IsValidPosition g checkX checkY) || (0 <? tile_type g checkX checkY) then value
      else
        let distance := Z.abs dx + Z.abs dy in
        let closestEnemyDistance :=
          fold_left (fun best (enemy : Agent) =>
              if negb (Player enemy =? MyID g) && (Wetness enemy <? 100) then
                let d0 := manhattan (X enemy) (Y enemy) checkX checkY in
                let d := if 50 <=? Wetness enemy then d0 * 2 else d0 in
                if d <? best then d else best
              else best)
            (range_Agents g) 999 in
        if distance <? closestEnemyDistance
        then (value + inject_Z 10 / inject_Z (10 + distance))%Q
        else value)
      (Zrange (- controlRadius) controlRadius) value)
    (Zrange (- controlRadius) controlRadius) 0%Q.

(** [CalculatePositionSafety] (part_000 version). *)
Definition CalculatePositionSafety (g : Game) (x y : Z) : Q :=
  let safety :=
    fold_left (fun safety (enemy : Agent) =>
        if negb (Player enemy =? MyID g) && (Wetness enemy <? 100) then
          let distance := manhattan x y (X enemy) (Y enemy) in
          let threat := (if distance <=? OptimalRange enemy then 30 else 0)
                        + (if distance <=? 4 then 20 else 0) in
          (safety - inject_Z threat / inject_Z (distance + 1))%Q
        else safety)
      (range_Agents g) (inject_Z 100) in
  (safety + inject_Z (GetMaxAdjacentCover g x y * 15))%Q.

Definition scoreAlternativePosition (g : Game) (agent : Agent)
    (candidateX candidateY preferredX preferredY : Z) : Q :=
  let distanceFromPreferred := manhattan candidateX candidateY preferredX preferredY in
  let currentDistanceFromPreferred := manhattan (X agent) (Y agent) preferredX preferredY in
  let score := (0 - inject_Z (distanceFromPreferred * 5))%Q in
  let score := if distanceFromPreferred <? currentDistanceFromPreferred
               then (score + 10)%Q else score in
  let score := (score + inject_Z (GetMaxAdjacentCover g candidateX candidateY * 2))%Q in
  let score := (score + CalculatePositionTerritoryValue g candidateX candidateY * (1 # 2))%Q in
  (score + CalculatePositionSafety g candidateX candidateY * (1 # 10))%Q.

(** ** Action resolution (part_000) *)

(** [occupiedPositions]: a [map[string]bool] keyed by ["x,y"]; a missing
    key reads as [false]. *)
Definition occupied_at (occ : gmap (Z * Z) bool) (k : Z * Z) : bool :=
  match occ !! k with Some b => b | None => false end.

(** Search state of [FindBestAlternativeMove]: [bestX, bestY, bestScore, found]. *)
Record AltSearch := mkAlt { bestX : Z; bestY : Z; bestScore : Q; found : bool }.

Definition consider_alternative (g : Game) (agent : Agent) (preferredX preferredY : Z)
    (occ : gmap (Z * Z) bool) (st : AltSearch) (c : Z * Z) : AltSearch :=
  let candidateX := c.1 in let candidateY := c.2 in
  if negb (IsValidPosition g candidateX candidateY) || (0 <? tile_type g candidateX candidateY)
  then st
  else if occupied_at occ (candidateX, candidateY) then st
  else
    let score := scoreAlternativePosition g agent candidateX candidateY preferredX preferredY in
    if Qltb (bestScore st) score then mkAlt candidateX candidateY score true else st.

(** The edge of the square of the given radius, in the order of the
    [dy]/[dx] loops (interior cells are skipped with [continue]). *)
Definition ring (preferredX preferredY radius : Z) : list (Z * Z) :=
  concat (map (fun dy =>
      omap (fun dx =>
          if negb (Z.abs dx =? radius) && negb (Z.abs dy =? radius) then None
          else Some (preferredX + dx, preferredY + dy))
        (Zrange (- radius) radius))
    (Zrange (- radius) radius)).

Fixpoint radius_loop (g : Game) (agent : Agent) (preferredX preferredY : Z)
    (occ : gmap (Z * Z) bool) (radii : list Z) (st : AltSearch) : AltSearch :=
  match radii with
  | [] => st
  | radius :: rest =>
      let st' := fold_left (consider_alternative g agent preferredX preferredY occ)
                   (ring preferredX preferredY radius) st in
      if found st' && Qltb 0 (bestScore st') then st'
      else radius_loop g agent preferredX preferredY occ rest st'
  end.

Definition fallback_directions : list (Z * Z) :=
  [(0, 1); (0, -1); (1, 0); (-1, 0); (1, 1); (1, -1); (-1, 1); (-1, -1)].

Definition FindBestAlternativeMove (g : Game) (agent : Agent) (preferredX preferredY : Z)
    (occ : gmap (Z * Z) bool) : Z * Z * bool :=
  let st0 := mkAlt (X agent) (Y agent) (-999) false in
  let st := radius_loop g agent preferredX preferredY occ [1; 2; 3] st0 in
  let st :=
    if negb (found st) || Qle_bool (bestScore st) (-999) then
      fold_left (consider_alternative g agent preferredX preferredY occ)
        (map (fun d => (X agent + d.1, Y agent + d.2)) fallback_directions) st
    else st in
  (bestX st, bestY st, found st).

(** [agentPriorities] ordering: [a] and [b] are swapped when [a] has the
    lower priority, or the same priority and the larger id. *)
Definition priority_swap (a b : Z * Z) : bool :=
  (a.2 <? b.2) || ((a.2 =? b.2) && (b.1 <? a.1)).

(** One step [if swap(l[i], l[j]) { l[i], l[j] = l[j], l[i] }]. *)
Definition swap_step {A} (swap : A -> A -> bool) (i j : nat) (l : list A) : list A :=
  match l !! i, l !! j with
  | Some a, Some b => if swap a b then <[i:=b]> (<[j:=a]> l) else l
  | _, _ => l
  end.

(** The nested [for i] / [for j := i+1] exchange sort the Go code writes
    out three times (agent priorities, non-move actions, [FormatAction]). *)
Definition exchange_sort {A} (swap : A -> A -> bool) (l : list A) : list A :=
  let n := length l in
  fold_left (fun acc i => fold_left (fun acc j => swap_step swap i j acc) (seq (S i) (n - S i)) acc)
    (seq 0 n) l.

Definition sort_priorities (l : list (Z * Z)) : list (Z * Z) := exchange_sort priority_swap l.

(** The processing loop; [None] is the Go panic of dereferencing the
    [nil] agent that [g.Agents[agentID]] yields for an unknown id. *)
Fixpoint resolve_loop (g : Game) (actions : gmap Z AgentAction) (aps : list (Z * Z))
    (resolved : gmap Z AgentAction) (occ : gmap (Z * Z) bool) : option (gmap Z AgentAction) :=
  match aps with
  | [] => Some resolved
  | ap :: rest =>
      let agentID := ap.1 in
      let action := default zeroAction (actions !! agentID) in
      match Agents g !! agentID with
      | None => None
      | Some agent =>
          let posKey := (TargetX action, TargetY action) in
          let currentPosKey := (X agent, Y agent) in
          if negb (occupied_at occ posKey) && IsValidPosition g (TargetX action) (TargetY action)
             && (tile_type g (TargetX action) (TargetY action) =? 0) then
            resolve_loop g actions rest (<[agentID := action]> resolved)
              (<[currentPosKey := false]> (<[posKey := true]> occ))
          else
            match FindBestAlternativeMove g agent (TargetX action) (TargetY action) occ with
            | (altX, altY, true) =>
                resolve_loop g actions rest
                  (<[agentID := mkAction ActionMove altX altY 0 "" (Priority action)
                                 ("Alternative move due to collision - " ++ Reason action)]> resolved)
                  (<[currentPosKey := false]> (<[(altX, altY) := true]> occ))
            | (_, _, false) =>
                resolve_loop g actions rest
                  (<[agentID := mkAction ActionMove (X agent) (Y agent) 0 "" PriorityDefault
                                 "Staying put - no alternatives available"]> resolved)
                  (<[currentPosKey := true]> occ)
            end
      end
  end.

(** Every friendly agent's current tile is first marked [false]. *)
Definition initial_occupied (g : Game) : gmap (Z * Z) bool :=
  fold_left (fun occ (a : Agent) => <[(X a, Y a) := false]> occ) (my_agents g) ∅.

Definition resolveMovementCollisions (g : Game) (actions : gmap Z AgentAction)
    : option (gmap Z AgentAction) :=
  let agentPriorities := map (fun kv => (kv.1, Priority kv.2)) (map_to_list actions) in
  resolve_loop g actions (sort_priorities agentPriorities) ∅ (initial_occupied g).

Definition is_move (a : AgentAction) : bool :=
  match AType a with ActionMove => true | _ => false end.

(** [moveActions[agentID] = action] for every move: the last one stays. *)
Definition last_move (acts : list AgentAction) : option AgentAction :=
  fold_left (fun acc a => if is_move a then Some a else acc) acts None.

Definition priority_lt (a b : AgentAction) : bool := Priority a <? Priority b.

Definition resolveActionConflicts (g : Game) (allActions : gmap Z (list AgentAction))
    : option (gmap Z (list AgentAction)) :=
  let moveActions := omap last_move allActions in
  let nonMoveActions := (fun acts => filter (fun a => negb (is_move a)) acts) <$> allActions in
  match resolveMovementCollisions g moveActions with
  | None => None
  | Some resolvedMoves =>
      Some (map_imap (fun agentID nonMoves =>
               Some (match resolvedMoves !! agentID with
                     | Some moveAction => [moveAction]
                     | None => []
                     end ++ exchange_sort priority_lt nonMoves))
             nonMoveActions)
  end.

(** ** Output formatting (part_000 [FormatAction]) *)

Definition format_part (a : AgentAction) : string :=
  match AType a with
  | ActionMove => "MOVE " ++ pretty (TargetX a) ++ " " ++ pretty (TargetY a)
  | ActionShoot => "SHOOT " ++ pretty (TargetAgentID a)
  | ActionThrow => "THROW " ++ pretty (TargetX a) ++ " " ++ pretty (TargetY a)
  | ActionHunker => "HUNKER_DOWN"
  | ActionMessage => "MESSAGE " ++ Message a
  end.

Definition FormatAction (actions : list AgentAction) : string :=
  match actions with
  | [] => "HUNKER_DOWN"
  | _ =>
      let parts := map format_part (exchange_sort priority_lt actions) in
      match parts with
      | [] => "HUNKER_DOWN"
      | _ => String.concat "; " parts
      end
  end.

(** The action grammar of the protocol's output line. *)
Inductive valid_action_token : string -> Prop :=
  | vt_move (x y : Z) : valid_action_token ("MOVE " ++ pretty x ++ " " ++ pretty y)
  | vt_shoot (id : Z) : valid_action_token ("SHOOT " ++ pretty id)
  | vt_throw (x y : Z) : valid_action_token ("THROW " ++ pretty x ++ " " ++ pretty y)
  | vt_hunker : valid_action_token "HUNKER_DOWN"
  | vt_message (m : string) : valid_action_token ("MESSAGE " ++ m).

Definition valid_action_string (s : string) : Prop :=
  exists parts, parts <> [] /\ Forall valid_action_token parts /\ s = String.concat "; " parts.

(** ** Team strategy state machine (part_000) *)

Inductive TeamStrategyState :=
  TeamStateCombat | TeamStateTerritoryControl | TeamStateDefense | TeamStateRegroupAndHeal.

Record TeamStrategyConfig := mkConfig {
  FleeWetnessThreshold : Z; ReturnWetnessThreshold : Z;
  TerritoryDeficitLimit : Z; TerritoryAdvantageLimit : Z;
  LateGameTurnThreshold : Z; FewEnemiesThreshold : Z;
  MinStateTime : Z; RecoverHealthThreshold : Z }.

Definition DefaultTeamConfig : TeamStrategyConfig := mkConfig 60 40 15 20 70 2 3 70.

(** The caches of the Go struct are invalidated at the start of every
    turn ([readTurnInput]) and filled by the first call, so within
    [UpdateTeamState] they equal a fresh computation. *)
Record TeamCoordinationStrategy := mkStrategy {
  CurrentTeamState : TeamStrategyState;
  StateTimer : Z;
  LastStateChange : Z;
  Config : TeamStrategyConfig }.

Definition NewTeamCoordinationStrategy : TeamCoordinationStrategy :=
  mkStrategy TeamStateCombat 0 0 DefaultTeamConfig.

Definition transitionToState (s : TeamCoordinationStrategy) (newState : TeamStrategyState)
    (turnNumber : Z) : TeamCoordinationStrategy :=
  mkStrategy newState 0 turnNumber (Config s).

Record TerritoryScore := mkTerritory {
  FriendlyTiles : Z; EnemyTiles : Z; Contested : Z; Advantage : Z }.

Definition GetTeamHealth (g : Game) : Q :=
  match my_agents g with
  | [] => 0
  | agents =>
      let totalWetness := fold_left (fun t (a : Agent) => t + Wetness a) agents 0 in
      (inject_Z 100 - inject_Z totalWetness / inject_Z (Z.of_nat (length agents)))%Q
  end.

Definition closest_friendly (g : Game) (x y : Z) : Z :=
  fold_left (fun best (agent : Agent) =>
      let d0 := manhattan (X agent) (Y agent) x y in
      let d := if 50 <=? Wetness agent then d0 * 2 else d0 in
      if d <? best then d else best)
    (my_agents g) 999.

Definition closest_enemy (g : Game) (x y : Z) : Z :=
  fold_left (fun best (agent : Agent) =>
      if negb (Player agent =? MyID g) && (Wetness agent <? 100) then
        let d0 := manhattan (X agent) (Y agent) x y in
        let d := if 50 <=? Wetness agent then d0 * 2 else d0 in
        if d <? best then d else best
      else best)
    (range_Agents g) 999.

(** Counters [(friendlyTiles, enemyTiles, contested)] of the scan. *)
Definition territory_tile (g : Game) (acc : Z * Z * Z) (x y : Z) : Z * Z * Z :=
  if 0 <? tile_type g x y then acc
  else
    let '(f, e, c) := acc in
    let closestFriendly := closest_friendly g x y in
    let closestEnemy := closest_enemy g x y in
    if closestFriendly <? closestEnemy then (f + 1, e, c)
    else if closestEnemy <? closestFriendly then (f, e + 1, c)
    else (f, e, c + 1).

Definition GetTerritoryScore (g : Game) : TerritoryScore :=
  let '(f, e, c) :=
    fold_left (fun acc y => fold_left (fun acc x => territory_tile g acc x y)
                              (Zrange 0 (Width g - 1)) acc)
      (Zrange 0 (Height g - 1)) (0, 0, 0) in
  mkTerritory f e c (f - e).

Definition GetEnemyCount (g : Game) : Z :=
  fold_left (fun count (a : Agent) =>
      if negb (Player a =? MyID g) && (Wetness a <? 100) then count + 1 else count)
    (range_Agents g) 0.

(** The transition table, given the turn's metrics. *)
Definition UpdateTeamState_with (s : TeamCoordinationStrategy) (teamHealth : Q)
    (territoryScore : TerritoryScore) (enemyCount turnNumber myAgentCount : Z)
    : TeamCoordinationStrategy :=
  let s := mkStrategy (CurrentTeamState s) (StateTimer s + 1) (LastStateChange s) (Config s) in
  let cfg := Config s in
  let isLateGame := LateGameTurnThreshold cfg <? turnNumber in
  if StateTimer s <? MinStateTime cfg then s
  else
    match CurrentTeamState s with
    | TeamStateCombat =>
        if Qltb teamHealth (inject_Z (FleeWetnessThreshold cfg)) then
          transitionToState s TeamStateRegroupAndHeal turnNumber
        else if (isLateGame && (Advantage territoryScore <? - TerritoryDeficitLimit cfg))
                || (Advantage territoryScore <? - TerritoryDeficitLimit cfg * 4) then
          transitionToState s TeamStateTerritoryControl turnNumber
        else s
    | TeamStateTerritoryControl =>
        if Qltb teamHealth (inject_Z (FleeWetnessThreshold cfg)) then
          transitionToState s TeamStateRegroupAndHeal turnNumber
        else if (enemyCount <=? FewEnemiesThreshold cfg)
                || (TerritoryAdvantageLimit cfg <? Advantage territoryScore) then
          transitionToState s TeamStateCombat turnNumber
        else s
    | TeamStateRegroupAndHeal =>
        if Qltb (inject_Z (RecoverHealthThreshold cfg)) teamHealth
           && (enemyCount - 1 <=? myAgentCount) then
          transitionToState s TeamStateCombat turnNumber
        else if (myAgentCount =? 1) || (myAgentCount * 2 <=? enemyCount) || (80 <=? turnNumber) then
          transitionToState s TeamStateCombat turnNumber
        else if Qltb 50 teamHealth && (Advantage territoryScore <? -20) then
          transitionToState s TeamStateTerritoryControl turnNumber
        else s
    | TeamStateDefense =>
        if Qltb teamHealth (inject_Z (FleeWetnessThreshold cfg - 10)) then
          transitionToState s TeamStateRegroupAndHeal turnNumber
        else if Qltb (inject_Z (ReturnWetnessThreshold cfg + 10)) teamHealth
                && (enemyCount <=? FewEnemiesThreshold cfg) then
          transitionToState s TeamStateCombat turnNumber
        else s
    end.

Definition UpdateTeamState (s : TeamCoordinationStrategy) (g : Game) : TeamCoordinationStrategy :=
  UpdateTeamState_with s (GetTeamHealth g) (GetTerritoryScore g) (GetEnemyCount g)
    (TurnNumber g) (Z.of_nat (length (MyAgents g))).

(** One [UpdateTeamState] per turn, the snapshot of turn [n+1] being [games n]. *)
Fixpoint team_run (s0 : TeamCoordinationStrategy) (games : nat -> Game) (n : nat)
    : TeamCoordinationStrategy :=
  match n with
  | O => s0
  | S k => UpdateTeamState (team_run s0 games k) (games k)
  end.

(** ** Per-turn coordination (part_000 [CoordinateActions]) *)

Section Coordination.

(** The behaviour tree of the team state, evaluated for one agent: the
    actions it appended to [g.AgentActions[agent.ID]].  Its only other
    effect, on the agents' decision scratch fields, is read neither by
    the default-action step nor by [resolveActionConflicts]. *)
Variable EvaluateBT : TeamStrategyState -> Game -> Agent -> list AgentAction.

Definition hunker_default : AgentAction :=
  mkAction ActionHunker 0 0 0 "" PriorityDefault "Default action - no BT actions generated".

Definition collect_actions (st : TeamStrategyState) (g : Game) : gmap Z (list AgentAction) :=
  fold_left (fun m (agent : Agent) =>
      let acts := EvaluateBT st g agent in
      <[ID agent := match acts with [] => [hunker_default] | _ => acts end]> m)
    (my_agents g) ∅.

Definition CoordinateActions (s : TeamCoordinationStrategy) (g : Game)
    : TeamCoordinationStrategy * option (gmap Z (list AgentAction)) :=
  let s' := UpdateTeamState s g in
  (s', resolveActionConflicts g (collect_actions (CurrentTeamState s') g)).

End Coordination.

(** ** Shoot-target selection (part_000 [FindBestShootTarget]) *)

(** The score is integral, so [Z] computes the [float64] exactly. *)
Definition shoot_score (distance wetness : Z) : Z :=
  1000 - distance * 4 + wetness + (if 80 <=? wetness then 100 else 0).

(** [visit] is the order in which this run's [range g.Agents] visits the
    registry: any permutation of [range_Agents g]. *)
Definition FindBestShootTarget (g : Game) (visit : list Agent) (agent : Agent) : option Agent :=
  (fold_left (fun (acc : option Agent * Z * Z) (enemy : Agent) =>
      let '(bestTarget, bestDistance, bestScore) := acc in
      if (Player enemy =? MyID g) || (100 <=? Wetness enemy) then acc
      else
        let distance := manhattan (X agent) (Y agent) (X enemy) (Y enemy) in
        if OptimalRange agent * 2 <? distance then acc
        else
          let score := shoot_score distance (Wetness enemy) in
          if (distance <? bestDistance) || ((distance =? bestDistance) && (bestScore <? score))
          then (Some enemy, distance, score)
          else acc)
    visit (None, 999999, 0)).1.1.

Definition visit_order (g : Game) (visit : list Agent) : Prop :=
  Permutation visit (range_Agents g).

(** ** Shot damage (main.go [FindEliminationShootTarget], referee [ExecuteShoot]) *)

(** The damage [FindEliminationShootTarget] estimates for one enemy before
    the cover reduction; [None] is the [continue] of an enemy out of range. *)
Definition elimination_base_damage (agent enemy : Agent) : option Q :=
  let distance := manhattan (X agent) (Y agent) (X enemy) (Y enemy) in
  if OptimalRange agent * 2 <? distance then None
  else
    let damage := inject_Z (SoakingPower agent) in
    Some (if OptimalRange agent <? distance then (damage * (1 # 2))%Q else damage).

(** The damage [ExecuteShoot] deals before cover and hunkering; a shot
    beyond [2 * OptimalRange] returns before touching the target. *)
Definition shoot_base_damage (shooter target : Agent) : Q :=
  let distance := manhattan (X shooter) (Y shooter) (X target) (Y target) in
  let maxRange := OptimalRange shooter * 2 in
  if maxRange <? distance then 0
  else
    let damage := inject_Z (SoakingPower shooter) in
    if OptimalRange shooter <? distance then (damage * (1 # 2))%Q else damage.

(** ** Cover protection *)

(** main.go [CalculateCoverProtection]. *)
Definition CalculateCoverProtection (g : Game) (shooterX shooterY targetX targetY : Z) : Q :=
  match GetMaxAdjacentCover g targetX targetY with
  | 0 => 0
  | 1 => 1 # 2
  | 2 => 3 # 4
  | _ => 0
  end.

(** The referee's [GetCoverProtection], over the same tile grid. *)
Definition GetCoverProtection (g : Game) (defenderX defenderY attackerX attackerY : Z) : Q :=
  fold_left (fun maxProtection (d : Z * Z) =>
      let coverX := defenderX + d.1 in let coverY := defenderY + d.2 in
      if (0 <=? coverX) && (coverX <? Width g) && (0 <=? coverY) && (coverY <? Height g) then
        let coverType := tile_type g coverX coverY in
        if 0 <? coverType then
          let dot := (attackerX - coverX) * (coverX - defenderX)
                     + (attackerY - coverY) * (coverY - defenderY) in
          if 0 <? dot then
            if negb (manhattan attackerX attackerY coverX coverY =? 1) then
              let protection := if coverType =? 2 then 3 # 4 else 1 # 2 in
              if Qltb maxProtection protection then protection else maxProtection
            else maxProtection
          else maxProtection
        else maxProtection
      else maxProtection)
    [(0, 1); (0, -1); (1, 0); (-1, 0)] 0%Q.

(** [coverX, coverY] is orthogonally adjacent to [x, y]. *)
Definition orth_adjacent (x y coverX coverY : Z) : Prop := manhattan x y coverX coverY = 1.

(** ** Splash-bomb target selection *)

(** The 3x3 footprint of a throw at [bombX, bombY], in loop order. *)
Definition footprint (bombX bombY : Z) : list (Z * Z) :=
  concat (map (fun dy => map (fun dx => (bombX + dx, bombY + dy)) (Zrange (-1) 1)) (Zrange (-1) 1)).

(** main.go [WouldHitFriendlyAgents]. *)
Definition WouldHitFriendlyAgents (g : Game) (bombX bombY : Z) : bool :=
  existsb (fun c =>
      IsValidPosition g c.1 c.2
      && existsb (fun (friendly : Agent) => (X friendly =? c.1) && (Y friendly =? c.2)) (my_agents g))
    (footprint bombX bombY).

(** main.go [CalculateSplashDamageScore]. *)
Definition CalculateSplashDamageScore (g : Game) (bombX bombY : Z) : Q :=
  fold_left (fun totalScore c =>
      if negb (IsValidPosition g c.1 c.2) then totalScore
      else
        fold_left (fun totalScore (enemy : Agent) =>
            if negb (Player enemy =? MyID g) && (Wetness enemy <? 100)
               && (X enemy =? c.1) && (Y enemy =? c.2) then
              let damageScore := if 100 <=? Wetness enemy + 30 then 80 else 30 in
              let wetnessBonus := (inject_Z (Wetness enemy) * (1 # 2))%Q in
              (totalScore + (inject_Z damageScore + wetnessBonus))%Q
            else totalScore)
          (range_Agents g) totalScore)
    (footprint bombX bombY) 0%Q.

(** main.go [FindOptimalSplashBombTarget]: [(bestX, bestY, maxDamage)]. *)
Definition FindOptimalSplashBombTarget (g : Game) (agent : Agent) : Z * Z * Q :=
  fold_left (fun acc targetY =>
      fold_left (fun (acc : Z * Z * Q) targetX =>
          let distance := manhattan (X agent) (Y agent) targetX targetY in
          if 4 <? distance then acc
          else if WouldHitFriendlyAgents g targetX targetY then acc
          else
            let totalDamage := CalculateSplashDamageScore g targetX targetY in
            if Qltb acc.2 totalDamage then (targetX, targetY, totalDamage) else acc)
        (Zrange 0 (Width g - 1)) acc)
    (Zrange 0 (Height g - 1)) (X agent, Y agent, 0%Q).

(** part_000 [CanEnemyEscapeBomb]. *)
Definition CanEnemyEscapeBomb (g : Game) (enemy : Agent) (bombX bombY : Z) : bool :=
  let escapeRoutes :=
    fold_left (fun n dy =>
        fold_left (fun n dx =>
            if (dx =? 0) && (dy =? 0) then n
            else
              let escapeX := X enemy + dx in let escapeY := Y enemy + dy in
              if negb (IsValidPosition g escapeX escapeY) || (0 <? tile_type g escapeX escapeY) then n
              else if 1 <? manhattan escapeX escapeY bombX bombY then n + 1 else n)
          (Zrange (-1) 1) n)
      (Zrange (-1) 1) 0 in
  2 <=? escapeRoutes.

(** Score of one throw position in part_000 [FindOptimalBombTarget]:
    [(score, enemiesHit)] after the friendly-fire penalty and the
    multi-hit bonus.  All terms are integers, so [Z] is exact. *)
Definition bomb_position_score (g : Game) (agent : Agent) (bombX bombY : Z) : Z * Z :=
  let '(score, enemiesHit) :=
    fold_left (fun (acc : Z * Z) (target : Agent) =>
        if (Player target =? MyID g) || (100 <=? Wetness target) then acc
        else if manhattan (X target) (Y target) bombX bombY <=? 1 then
          let damage := if CanEnemyEscapeBomb g target bombX bombY
                        then Z.quot (100 - Wetness target) 2 else 100 - Wetness target in
          (acc.1 + damage, acc.2 + 1)
        else acc)
      (range_Agents g) (0, 0) in
  let friendlyDamage :=
    fold_left (fun fd (friendly : Agent) =>
        if ID friendly =? ID agent then fd
        else if manhattan (X friendly) (Y friendly) bombX bombY <=? 1 then fd + 50 else fd)
      (my_agents g) 0 in
  let score := score - friendlyDamage in
  let score := if 2 <=? enemiesHit then score + enemiesHit * 25 else score in
  (score, enemiesHit).

(** part_000 [FindOptimalBombTarget]: [(bestX, bestY, bestScore)]. *)
Definition FindOptimalBombTarget (g : Game) (agent : Agent) : Z * Z * Z :=
  fold_left (fun acc dy =>
      fold_left (fun (acc : Z * Z * Z) dx =>
          let bombX := X agent + dx in let bombY := Y agent + dy in
          let bombDistance := Z.abs dx + Z.abs dy in
          if (4 <? bombDistance) || (bombDistance =? 0) then acc
          else if negb (IsValidPosition g bombX bombY) then acc
          else
            let '(score, enemiesHit) := bomb_position_score g agent bombX bombY in
            if (2 <=? enemiesHit) || (25 <=? score) then
              if acc.2 <? score then (bombX, bombY, score) else acc
            else acc)
        (Zrange (-4) 4) acc)
    (Zrange (-4) 4) (X agent, Y agent, 0).

(** part_000 [TaskThrowOptimalBomb]: the THROW it appends, if any. *)
Definition TaskThrowOptimalBomb (g : Game) (agent : Agent) : option AgentAction :=
  if SplashBombs agent <=? 0 then None
  else
    let '(bombX, bombY, score) := FindOptimalBombTarget g agent in
    if 25 <? score then Some (mkAction ActionThrow bombX bombY 0 "" PriorityCombat
                       ("Bombing (" ++ pretty bombX ++ "," ++ pretty bombY ++ ") score " ++ pretty score))
    else None.

(** The 3x3 blast footprint of [bombX, bombY] contains [x, y]. *)
Definition in_footprint (bombX bombY x y : Z) : Prop :=
  Z.abs (x - bombX) <= 1 /\ Z.abs (y - bombY) <= 1.

(** Number of passable ([Type] 0) tiles, scanned like [GetTerritoryScore]. *)
Definition count_passable (g : Game) : Z :=
  fold_left (fun n y => fold_left (fun n x => if tile_type g x y =? 0 then n + 1 else n)
                          (Zrange 0 (Width g - 1)) n)
    (Zrange 0 (Height g - 1)) 0.

(** A live enemy within [FindBestShootTarget]'s range [2 * OptimalRange]. *)
Definition shootable (g : Game) (agent enemy : Agent) : bool :=
  negb (Player enemy =? MyID g) && (Wetness enemy <? 100)
  && (manhattan (X agent) (Y agent) (X enemy) (Y enemy) <=? OptimalRange agent * 2).

(** The registry invariant [readTurnInput] maintains: every id of
    [MyAgents] names an entry of [Agents] whose [ID] is that id. *)
Definition snapshot_wf (g : Game) : Prop :=
  forall id, id ∈ MyAgents g -> exists a, Agents g !! id = Some a /\ ID a = id.

(** Manhattan distance from a shooter to a target, as [FindBestShootTarget]
    and [ExecuteShoot] compute it. *)
Definition shot_distance (shooter target : Agent) : Z :=
  manhattan (X shooter) (Y shooter) (X target) (Y target).

(** part_000 [TaskShootBestTarget]: the SHOOT it appends, if any. *)
Definition TaskShootBestTarget (g : Game) (visit : list Agent) (agent : Agent) : option AgentAction :=
  match FindBestShootTarget g visit agent with
  | Some target =>
      Some (mkAction ActionShoot 0 0 (ID target) "" PriorityCombat
              ("Shooting enemy " ++ pretty (ID target) ++ " (dist " ++ pretty (shot_distance agent target)
               ++ ", wetness " ++ pretty (Wetness target) ++ ")"))
  | None => None
  end.

(** The [CheckCanShoot] / [TaskShootBestTarget] sequence of the trees, with
    the [range g.Agents] order of the run fixed to [visit]. *)
Definition shoot_branch (visit : list Agent) (st : TeamStrategyState) (g : Game) (agent : Agent)
    : list AgentAction :=
  if Cooldown agent =? 0 then option_list (TaskShootBestTarget g visit agent) else [].

(** The tile a resolved movement sends agent [id] to. *)
Definition destination (res : gmap Z AgentAction) (id : Z) : option (Z * Z) :=
  (fun a => (TargetX a, TargetY a)) <$> res !! id.

(** The team state changes on the [k+1]-th [UpdateTeamState] of a run from
    [NewTeamCoordinationStrategy]. *)
Definition state_changes_at (games : nat -> Game) (k : nat) : Prop :=
  CurrentTeamState (team_run NewTeamCoordinationStrategy games (S k))
  <> CurrentTeamState (team_run NewTeamCoordinationStrategy games k).

(** ** Behaviour-tree composites (part_000 [Sequence], [Selector]) *)

Inductive NodeState := BTRunning | BTSuccess | BTFailure.

(** A node evaluated on the state [S] it may update (the agent's scratch
    fields, [g.AgentActions]): its outcome and the updated state. *)
Definition Node (S : Type) : Type := S -> NodeState * S.

Fixpoint Sequence_Evaluate {S} (children : list (Node S)) : Node S :=
  fun s =>
    match children with
    | [] => (BTSuccess, s)
    | child :: rest =>
        let '(r, s') := child s in
        match r with
        | BTFailure => (BTFailure, s')
        | BTRunning => (BTRunning, s')
        | BTSuccess => Sequence_Evaluate rest s'
        end
    end.

Fixpoint Selector_Evaluate {S} (children : list (Node S)) : Node S :=
  fun s =>
    match children with
    | [] => (BTFailure, s)
    | child :: rest =>
        let '(r, s') := child s in
        match r with
        | BTSuccess => (BTSuccess, s')
        | BTRunning => (BTRunning, s')
        | BTFailure => Selector_Evaluate rest s'
        end
    end.

(** ** Enemy proximity (part_000) *)

(** [FindNearestEnemy]; [visit] is the order of this call's [range g.Agents]. *)
Definition FindNearestEnemy (g : Game) (visit : list Agent) (agent : Agent) : option Agent :=
  (fold_left (fun (acc : option Agent * Z) (enemy : Agent) =>
      let '(nearestEnemy, minDistance) := acc in
      if negb (Player enemy =? MyID g) && (Wetness enemy <? 100) then
        let distance := manhattan (X agent) (Y agent) (X enemy) (Y enemy) in
        if distance <? minDistance then (Some enemy, distance) else acc
      else acc)
    visit (None, 999)).1.

(** [CheckEnemiesInRange.Evaluate]: success at the first live enemy within
    [Range]; which one is found first does not change the outcome. *)
Definition CheckEnemiesInRange (Range : Z) (agent : Agent) (g : Game) : NodeState :=
  if existsb (fun enemy => negb (Player enemy =? MyID g) && (Wetness enemy <? 100)
                           && (manhattan (X agent) (Y agent) (X enemy) (Y enemy) <=? Range))
       (range_Agents g)
  then BTSuccess else BTFailure.

(** ** Local position searches (part_000) *)

(** The [dy]/[dx] loops over the 7x7 square around the agent shared by
    [FindSafePosition], [FindTacticalPosition] and [FindSafetyPosition]:
    walls and off-grid cells are skipped, and a cell replaces the best one
    when its score is strictly greater. *)
Definition search_square (g : Game) (agent : Agent) (score : Z -> Z -> Q) (bestScore0 : Q)
    : Z * Z :=
  (fold_left (fun acc dy =>
      fold_left (fun (acc : Z * Z * Q) dx =>
          let newX := X agent + dx in let newY := Y agent + dy in
          if negb (IsValidPosition g newX newY) || (0 <? tile_type g newX newY) then acc
          else
            let s := score newX newY in
            if Qltb acc.2 s then (newX, newY, s) else acc)
        (Zrange (-3) 3) acc)
    (Zrange (-3) 3) (X agent, Y agent, bestScore0)).1.

(** [FindSafePosition]: the best [CalculatePositionSafety], starting from
    the agent's own tile. *)
Definition FindSafePosition (g : Game) (agent : Agent) : Z * Z :=
  search_square g agent (CalculatePositionSafety g) (CalculatePositionSafety g (X agent) (Y agent)).

(** The score of [FindTacticalPosition] for cell [newX, newY]. *)
Definition tactical_score (g : Game) (agent : Agent) (targetX targetY newX newY : Z) : Q :=
  let currentDistanceToTarget := manhattan (X agent) (Y agent) targetX targetY in
  let newDistanceToTarget := manhattan newX newY targetX targetY in
  let score : Q :=
    if newDistanceToTarget <? currentDistanceToTarget
    then inject_Z ((currentDistanceToTarget - newDistanceToTarget) * 20) else (-10)%Q in
  let score := (score + inject_Z (GetMaxAdjacentCover g newX newY * 15))%Q in
  let score :=
    fold_left (fun score (friendly : Agent) =>
        if negb (ID friendly =? ID agent) && (Wetness friendly <? 100) then
          let friendlyDist := manhattan (X friendly) (Y friendly) newX newY in
          if friendlyDist =? 0 then (score - 1000)%Q
          else if friendlyDist =? 1 then (score - 200)%Q
          else if friendlyDist =? 2 then (score - 50)%Q
          else score
        else score)
      (my_agents g) score in
  let safetyPenalty :=
    fold_left (fun safetyPenalty (enemy : Agent) =>
        if negb (Player enemy =? MyID g) && (Wetness enemy <? 100) then
          let enemyDist := manhattan (X enemy) (Y enemy) newX newY in
          if enemyDist <=? 3 then (safetyPenalty + inject_Z 5 / inject_Z (enemyDist + 1))%Q
          else safetyPenalty
        else safetyPenalty)
      (range_Agents g) 0%Q in
  (score - safetyPenalty)%Q.

Definition FindTacticalPosition (g : Game) (agent : Agent) (targetX targetY : Z) : Z * Z :=
  search_square g agent (tactical_score g agent targetX targetY) (-999).

(** The score of [FindSafetyPosition] for cell [newX, newY]; all its terms
    are integers. *)
Definition safety_score (g : Game) (agent : Agent) (newX newY : Z) : Q :=
  let score := GetMaxAdjacentCover g newX newY * 20 in
  let minEnemyDistance :=
    fold_left (fun m (enemy : Agent) =>
        if negb (Player enemy =? MyID g) && (Wetness enemy <? 100) then
          let distance := manhattan newX newY (X enemy) (Y enemy) in
          if distance <? m then distance else m
        else m)
      (range_Agents g) 999 in
  let score := score + minEnemyDistance * 5 in
  let score :=
    fold_left (fun score (friendly : Agent) =>
        if negb (ID friendly =? ID agent) && (Wetness friendly <? 100) then
          let distance := manhattan newX newY (X friendly) (Y friendly) in
          if distance =? 0 then score - 1000
          else if distance =? 1 then score - 200
          else if distance =? 2 then score + 5
          else if distance =? 3 then score + 10
          else score
        else score)
      (my_agents g) score in
  let movementDistance := manhattan newX newY (X agent) (Y agent) in
  inject_Z (score - movementDistance).

Definition FindSafetyPosition (g : Game) (agent : Agent) : Z * Z :=
  search_square g agent (safety_score g agent) (-999).

(** ** Movement tasks (part_000); [None] is a [BTFailure] that appends nothing *)

(** [TaskMoveToSafety.Evaluate]: the MOVE it appends, if any. *)
Definition TaskMoveToSafety (g : Game) (agent : Agent) : option AgentAction :=
  let '(safeX, safeY) := FindSafetyPosition g agent in
  if negb (safeX =? X agent) || negb (safeY =? Y agent) then
    Some (mkAction ActionMove safeX safeY 0 "" PriorityEmergency
            ("Moving to safety (" ++ pretty safeX ++ "," ++ pretty safeY ++ ")"))
  else None.

(** [TaskMoveTowardsEnemies.Evaluate]; [visit] is the order of the
    [range g.Agents] of its [FindNearestEnemy] call.  It appends exactly
    one action whenever it succeeds. *)
Definition TaskMoveTowardsEnemies (g : Game) (visit : list Agent) (agent : Agent)
    : option AgentAction :=
  match FindNearestEnemy g visit agent with
  | None => None
  | Some nearestEnemy =>
      let distance := manhattan (X agent) (Y agent) (X nearestEnemy) (Y nearestEnemy) in
      if (distance <=? OptimalRange agent) && (0 <? Cooldown agent) && (Cooldown agent <=? 2) then
        Some (mkAction ActionHunker 0 0 0 "" PriorityDefault
                ("In optimal range " ++ pretty distance ++ ", short cooldown " ++ pretty (Cooldown agent)))
      else
        let '(targetX, targetY) :=
          if 3 <=? Cooldown agent then
            let '(tx, ty) := FindSafetyPosition g agent in
            if (tx =? X agent) && (ty =? Y agent)
            then FindTacticalPosition g agent (X nearestEnemy) (Y nearestEnemy)
            else (tx, ty)
          else FindTacticalPosition g agent (X nearestEnemy) (Y nearestEnemy) in
        if (targetX =? X agent) && (targetY =? Y agent) then
          Some (mkAction ActionHunker 0 0 0 "" PriorityDefault "No good position found")
        else
          let reason := if 3 <=? Cooldown agent
                        then "Repositioning for safety (long cooldown)" else "Advancing toward enemy" in
          Some (mkAction ActionMove targetX targetY 0 "" PriorityMovement reason)
  end.

(** ** Turn input (part_000 [readTurnInput]) *)

(** One agent line of the turn input: [agentId x y cooldown splashBombs wetness]. *)
Record AgentInput := mkInput {
  inAgentId : Z; inX : Z; inY : Z; inCooldown : Z; inSplashBombs : Z; inWetness : Z }.

(** The registry entry with its dynamic properties overwritten by a line. *)
Definition update_dynamic (existingAgent : Agent) (e : AgentInput) : Agent :=
  mkAgent (ID existingAgent) (Player existingAgent) (ShootCooldown existingAgent)
    (OptimalRange existingAgent) (SoakingPower existingAgent) (MaxSplashBombs existingAgent)
    (inX e) (inY e) (inCooldown e) (inSplashBombs e) (inWetness e).

(** The body of [readTurnInput]'s loop over the agent lines, on the
    registry being rebuilt and the ids of [MyAgents] so far.  The line's id
    is looked up in the previous turn's [game.Agents]; a line with an
    unknown id is dropped.  The pointer found there is updated in place, so
    a second line with the same id updates the already updated agent:
    every dynamic field is overwritten, so this equals updating the
    previous turn's entry. *)
Definition read_agent_line (g : Game) (acc : gmap Z Agent * list Z) (e : AgentInput)
    : gmap Z Agent * list Z :=
  let '(currentAgents, myAgents) := acc in
  match Agents g !! inAgentId e with
  | Some existingAgent =>
      let a := update_dynamic existingAgent e in
      (<[inAgentId e := a]> currentAgents,
       if Player a =? MyID g then myAgents ++ [inAgentId e] else myAgents)
  | None => acc
  end.

(** [readTurnInput] on the agent lines of a turn: the rebuilt registry
    replaces [game.Agents], and [MyAgents] holds the ids of the lines of
    friendly agents, in input order.  The team caches it invalidates are
    not part of [Game]. *)
Definition readTurnInput (g : Game) (entries : list AgentInput) : Game :=
  let '(currentAgents, myAgents) := fold_left (read_agent_line g) entries (∅, []) in
  mkGame (MyID g) (Grid g) (Width g) (Height g) currentAgents myAgents (TurnNumber g).

(** ** Least-protected target (main.go [FindLeastProtectedEnemy]) *)

(** [FindLeastProtectedEnemy]; [visit] is the order of its [range g.Agents].
    The accumulator is [(bestTarget, bestScore, bestDistance)]; the outer
    [None] is the panic of reading [bestTarget.ID] while [bestTarget] is
    [nil], which the third disjunct of the tie-break would do. *)
Definition FindLeastProtectedEnemy (g : Game) (visit : list Agent) (agent : Agent) : option (option Agent) :=
  option_map (fun acc : option Agent * Q * Z => acc.1.1)
  (fold_left (fun (acc : option (option Agent * Q * Z)) (enemy : Agent) =>
      match acc with
      | None => None
      | Some (bestTarget, bestScore, bestDistance) =>
          if negb (Player enemy =? MyID g) && (Wetness enemy <? 100) then
            let distance := manhattan (X agent) (Y agent) (X enemy) (Y enemy) in
            if OptimalRange agent <? distance then acc
            else
              let protection := CalculateCoverProtection g (X agent) (Y agent) (X enemy) (Y enemy) in
              let distanceScore := (inject_Z (OptimalRange agent) - inject_Z distance)%Q in
              let protectionScore := ((1 - protection) * 30)%Q in
              let combinedScore := (distanceScore + protectionScore)%Q in
              if Qltb bestScore combinedScore
                 || (Qeq_bool combinedScore bestScore && (distance <? bestDistance)) then
                Some (Some enemy, combinedScore, distance)
              else if Qeq_bool combinedScore bestScore && (distance =? bestDistance) then
                match bestTarget with
                | None => None
                | Some b => if ID enemy <? ID b then Some (Some enemy, combinedScore, distance) else acc
                end
              else acc
          else acc
      end)
    visit (Some (None, (-999)%Q, 999))).

(** ** Output (part_000 [outputActions]) *)

(** The lines [outputActions] prints on standard output, without their
    newline: one [fmt.Printf("%d; %s\n", ...)] per entry of [MyAgents], in
    order.  A missing key of [actions] reads as the nil slice.  The
    standard-error log is not modelled. *)
Definition outputActions (g : Game) (actions : gmap Z (list AgentAction)) : list string :=
  map (fun agent =>
      let agentActions := default [] (actions !! ID agent) in
      let actionStr := FormatAction agentActions in
      (pretty (ID agent) ++ "; " ++ actionStr)%string)
    (my_agents g).

(** ** Referee simulator (simple_tester/real_game_tester.go) *)

Record RealAgent := mkRealAgent {
  rID : Z; rPlayerID : Z; rX : Z; rY : Z; rWetness : Z; rCooldown : Z;
  rSplashBombs : Z; rSoakingPower : Z; rOptimalRange : Z; rShootCooldown : Z;
  rLastAction : string }.

(** [RealGameState]; [Map] holds [Height] rows of [Width] tile types, as
    the scenarios build it. *)
Record RealGameState := mkRealGameState {
  rWidth : Z; rHeight : Z; rMap : list (list Z); rAgents : list RealAgent;
  rTurn : Z; rPlayer0Score : Z; rPlayer1Score : Z }.

Definition set_rAgents (gs : RealGameState) (agents : list RealAgent) : RealGameState :=
  mkRealGameState (rWidth gs) (rHeight gs) (rMap gs) agents
    (rTurn gs) (rPlayer0Score gs) (rPlayer1Score gs).

Definition set_rX (a : RealAgent) (x : Z) : RealAgent :=
  mkRealAgent (rID a) (rPlayerID a) x (rY a) (rWetness a) (rCooldown a) (rSplashBombs a)
    (rSoakingPower a) (rOptimalRange a) (rShootCooldown a) (rLastAction a).
Definition set_rY (a : RealAgent) (y : Z) : RealAgent :=
  mkRealAgent (rID a) (rPlayerID a) (rX a) y (rWetness a) (rCooldown a) (rSplashBombs a)
    (rSoakingPower a) (rOptimalRange a) (rShootCooldown a) (rLastAction a).
Definition set_rWetness (a : RealAgent) (w : Z) : RealAgent :=
  mkRealAgent (rID a) (rPlayerID a) (rX a) (rY a) w (rCooldown a) (rSplashBombs a)
    (rSoakingPower a) (rOptimalRange a) (rShootCooldown a) (rLastAction a).
Definition set_rCooldown (a : RealAgent) (c : Z) : RealAgent :=
  mkRealAgent (rID a) (rPlayerID a) (rX a) (rY a) (rWetness a) c (rSplashBombs a)
    (rSoakingPower a) (rOptimalRange a) (rShootCooldown a) (rLastAction a).
Definition set_rSplashBombs (a : RealAgent) (b : Z) : RealAgent :=
  mkRealAgent (rID a) (rPlayerID a) (rX a) (rY a) (rWetness a) (rCooldown a) b
    (rSoakingPower a) (rOptimalRange a) (rShootCooldown a) (rLastAction a).

(** [GetAgent]: the first agent of the slice with that id (its pointer). *)
Definition GetAgent (gs : RealGameState) (id : Z) : option RealAgent :=
  find (fun a => rID a =? id) (rAgents gs).

Fixpoint update_first (id : Z) (updateFunc : RealAgent -> RealAgent) (agents : list RealAgent)
    : list RealAgent :=
  match agents with
  | [] => []
  | a :: rest => if rID a =? id then updateFunc a :: rest else a :: update_first id updateFunc rest
  end.

(** [UpdateAgent]: applies [updateFunc] to the first agent with that id. *)
Definition UpdateAgent (gs : RealGameState) (id : Z) (updateFunc : RealAgent -> RealAgent)
    : RealGameState :=
  set_rAgents gs (update_first id updateFunc (rAgents gs)).

(** [gs.Map[y][x]], read only after the bounds check. *)
Definition real_tile (gs : RealGameState) (x y : Z) : Z :=
  match rMap gs !! Z.to_nat y ≫= (fun row => row !! Z.to_nat x) with
  | Some t => t
  | None => 0
  end.

(** The referee's [IsValidPosition]: on the board, an empty tile, and no
    agent with wetness below 100 standing there. *)
Definition real_IsValidPosition (gs : RealGameState) (x y : Z) : bool :=
  if (x <? 0) || (rWidth gs <=? x) || (y <? 0) || (rHeight gs <=? y) then false
  else if negb (real_tile gs x y =? 0) then false
  else negb (existsb (fun agent => (rWetness agent <? 100) && (rX agent =? x) && (rY agent =? y))
               (rAgents gs)).

(** The referee's map as a [Game] grid, so that [GetCoverProtection]
    reads [gs.Map[coverY][coverX]] as its tile type. *)
Definition cover_board (gs : RealGameState) : Game :=
  mkGame 0 (imap (fun y row => imap (fun x t => mkTile (Z.of_nat x) (Z.of_nat y) t) row) (rMap gs))
    (rWidth gs) (rHeight gs) ∅ [] (rTurn gs).

(** Go's [math.Round]: half away from zero. *)
Definition math_Round (q : Q) : Z :=
  if Qle_bool 0 q then Qfloor (q + (1 # 2)) else - Qfloor (- q + (1 # 2)).

(** [ExecuteShoot]; the [float64] damage is exact in [Q] (a soaking power
    times 1 or 1/2, times a multiple of 1/4). *)
Definition ExecuteShoot (gs : RealGameState) (shooterID targetID : Z) : RealGameState :=
  match GetAgent gs shooterID, GetAgent gs targetID with
  | Some shooter, Some target =>
      if (100 <=? rWetness shooter) || (100 <=? rWetness target) then gs
      else if 0 <? rCooldown shooter then gs
      else
        let distance := manhattan (rX shooter) (rY shooter) (rX target) (rY target) in
        let maxRange := rOptimalRange shooter * 2 in
        if maxRange <? distance then gs
        else
          let damage := inject_Z (rSoakingPower shooter) in
          let damage := if rOptimalRange shooter <? distance then (damage * (1 # 2))%Q else damage in
          let coverProtection :=
            GetCoverProtection (cover_board gs) (rX target) (rY target) (rX shooter) (rY shooter) in
          let totalProtection :=
            if String.eqb (rLastAction target) "HUNKER_DOWN"
            then (let p := (coverProtection + (1 # 4))%Q in if Qltb 1 p then 1%Q else p)
            else coverProtection in
          let damage := (damage * (1 - totalProtection))%Q in
          let finalDamage := math_Round damage in
          let gs := UpdateAgent gs targetID (fun a =>
                      let w := rWetness a + finalDamage in
                      set_rWetness a (if 100 <? w then 100 else w)) in
          UpdateAgent gs shooterID (fun a => set_rCooldown a (rShootCooldown a))
  | _, _ => gs
  end.

(** The nine splash positions of [ExecuteThrow], centre first. *)
Definition splash_positions (targetX targetY : Z) : list (Z * Z) :=
  (targetX, targetY) ::
  concat (map (fun dx =>
      omap (fun dy => if (dx =? 0) && (dy =? 0) then None else Some (targetX + dx, targetY + dy))
        (Zrange (-1) 1))
    (Zrange (-1) 1)).

(** One splash position: every agent still below 100 wetness standing
    there gets 30 wetness, capped at 100. *)
Definition splash_hit (gs : RealGameState) (agents : list RealAgent) (pos : Z * Z) : list RealAgent :=
  let '(x, y) := pos in
  if (0 <=? x) && (x <? rWidth gs) && (0 <=? y) && (y <? rHeight gs) then
    map (fun a =>
        if (rWetness a <? 100) && (rX a =? x) && (rY a =? y) then
          let w := rWetness a + 30 in set_rWetness a (if 100 <? w then 100 else w)
        else a)
      agents
  else agents.

Definition ExecuteThrow (gs : RealGameState) (agentID targetX targetY : Z) : RealGameState :=
  match GetAgent gs agentID with
  | None => gs
  | Some agent =>
      if (100 <=? rWetness agent) || (rSplashBombs agent <=? 0) then gs
      else
        let distance := manhattan (rX agent) (rY agent) targetX targetY in
        if 4 <? distance then gs
        else
          let agents := fold_left (splash_hit gs) (splash_positions targetX targetY) (rAgents gs) in
          UpdateAgent (set_rAgents gs agents) agentID (fun a => set_rSplashBombs a (rSplashBombs a - 1))
  end.

(** [ExecuteMove]: one step toward the target, diagonal first, then along
    x alone, then along y alone. *)
Definition ExecuteMove (gs : RealGameState) (agentID targetX targetY : Z) : RealGameState :=
  match GetAgent gs agentID with
  | None => gs
  | Some agent =>
      if 100 <=? rWetness agent then gs
      else
        let dx := if rX agent <? targetX then 1 else if targetX <? rX agent then -1 else 0 in
        let dy := if rY agent <? targetY then 1 else if targetY <? rY agent then -1 else 0 in
        let newX := rX agent + dx in
        let newY := rY agent + dy in
        if real_IsValidPosition gs newX newY then
          UpdateAgent gs agentID (fun a => set_rY (set_rX a newX) newY)
        else if negb (dx =? 0) && real_IsValidPosition gs (rX agent + dx) (rY agent) then
          UpdateAgent gs agentID (fun a => set_rX a (rX agent + dx))
        else if negb (dy =? 0) && real_IsValidPosition gs (rX agent) (rY agent + dy) then
          UpdateAgent gs agentID (fun a => set_rY a (rY agent + dy))
        else gs
  end.

Definition MaxInt32 : Z := 2147483647.

(** The two minimal distances of [UpdateTerritoryControl] for tile [(x, y)]:
    agents at 100 wetness are skipped, and an agent at 50 or more counts
    double distance. *)
Definition territory_distances (gs : RealGameState) (x y : Z) : Z * Z :=
  fold_left (fun (acc : Z * Z) agent =>
      let '(minDist0, minDist1) := acc in
      if 100 <=? rWetness agent then acc
      else
        let distance := manhattan x y (rX agent) (rY agent) in
        let distance := if 50 <=? rWetness agent then distance * 2 else distance in
        if (rPlayerID agent =? 0) && (distance <? minDist0) then (distance, minDist1)
        else if (rPlayerID agent =? 1) && (distance <? minDist1) then (minDist0, distance)
        else acc)
    (rAgents gs) (MaxInt32, MaxInt32).

(** [UpdateTerritoryControl]: count the tiles each player controls, and
    award the difference to the player controlling more. *)
Definition UpdateTerritoryControl (gs : RealGameState) : RealGameState :=
  let '(player0Tiles, player1Tiles) :=
    fold_left (fun acc y =>
        fold_left (fun (acc : Z * Z) x =>
            let '(player0Tiles, player1Tiles) := acc in
            let '(minDist0, minDist1) := territory_distances gs x y in
            if minDist0 <? minDist1 then (player0Tiles + 1, player1Tiles)
            else if minDist1 <? minDist0 then (player0Tiles, player1Tiles + 1)
            else acc)
          (Zrange 0 (rWidth gs - 1)) acc)
      (Zrange 0 (rHeight gs - 1)) (0, 0) in
  if player1Tiles <? player0Tiles then
    mkRealGameState (rWidth gs) (rHeight gs) (rMap gs) (rAgents gs) (rTurn gs)
      (rPlayer0Score gs + (player0Tiles - player1Tiles)) (rPlayer1Score gs)
  else if player0Tiles <? player1Tiles then
    mkRealGameState (rWidth gs) (rHeight gs) (rMap gs) (rAgents gs) (rTurn gs)
      (rPlayer0Score gs) (rPlayer1Score gs + (player1Tiles - player0Tiles))
  else gs.

(** ** Concrete snapshots *)

Definition row_of (y : Z) (types : list Z) : list Tile :=
  imap (fun i t => mkTile (Z.of_nat i) y t) types.

(** Two friendly agents on an open 2x1 strip. *)
Definition agent1_at_0 : Agent := mkAgent 1 0 1 2 16 0 0 0 0 0 0.
Definition agent2_at_1 : Agent := mkAgent 2 0 1 2 16 0 1 0 0 0 0.
Definition game_strip : Game :=
  mkGame 0 [row_of 0 [0; 0]] 2 1 (<[1:=agent1_at_0]> (<[2:=agent2_at_1]> ∅)) [1; 2] 1.
Definition move_to (x y prio : Z) : AgentAction := mkAction ActionMove x y 0 "" prio "".
(** Both agents ask for tile (0,0), where agent 1 already stands. *)
Definition moves_strip : gmap Z AgentAction :=
  <[1:=move_to 0 0 PriorityMovement]> (<[2:=move_to 0 0 PriorityMovement]> ∅).

(** A 7x1 corridor [. . # # # . .] (low cover in the middle) with three friendly agents. *)
Definition agentB_at_0 : Agent := mkAgent 2 0 1 2 16 0 0 0 0 0 0.
Definition agentA_at_5 : Agent := mkAgent 1 0 1 2 16 0 5 0 0 0 0.
Definition agentC_at_6 : Agent := mkAgent 3 0 1 2 16 0 6 0 0 0 0.
Definition game_corridor : Game :=
  mkGame 0 [row_of 0 [0; 0; 1; 1; 1; 0; 0]] 7 1
    (<[1:=agentA_at_5]> (<[2:=agentB_at_0]> (<[3:=agentC_at_6]> ∅))) [1; 2; 3] 1.
(** C takes B's tile, A takes (1,0), B also wants (1,0) and is boxed in. *)
Definition moves_corridor : gmap Z AgentAction :=
  <[1:=move_to 1 0 PriorityCombat]> (<[2:=move_to 1 0 PriorityMovement]>
    (<[3:=move_to 0 0 PriorityEmergency]> ∅)).

(** A shooter between two identical enemies on a 3x1 strip. *)
Definition shooter_mid : Agent := mkAgent 1 0 1 2 16 0 1 0 0 0 0.
Definition enemy_left : Agent := mkAgent 2 1 1 2 16 0 0 0 0 0 30.
Definition enemy_right : Agent := mkAgent 3 1 1 2 16 0 2 0 0 0 30.
Definition game_twins : Game :=
  mkGame 0 [row_of 0 [0; 0; 0]] 3 1
    (<[1:=shooter_mid]> (<[2:=enemy_left]> (<[3:=enemy_right]> ∅))) [1] 1.

(** A shooter with an undamaged enemy at distance 1 and an enemy at 95
    wetness at distance 2 (range 3, soaking power 16). *)
Definition shooter_left : Agent := mkAgent 1 0 1 3 16 0 0 0 0 0 0.
Definition enemy_near : Agent := mkAgent 2 1 1 3 16 0 1 0 0 0 0.
Definition enemy_wounded : Agent := mkAgent 3 1 1 3 16 0 2 0 0 0 95.
Definition game_finish : Game :=
  mkGame 0 [row_of 0 [0; 0; 0; 0]] 4 1
    (<[1:=shooter_left]> (<[2:=enemy_near]> (<[3:=enemy_wounded]> ∅))) [1] 1.

(** A 2x2 map whose tile (1,0) is low cover; defender at (0,0), attacker at (1,1). *)
Definition game_corner : Game :=
  mkGame 0 [row_of 0 [0; 1]; row_of 1 [0; 0]] 2 2 ∅ [] 1.

(** A 4x1 strip: thrower at (0,0), a friend at (2,0), an enemy at (3,0). *)
Definition thrower_0 : Agent := mkAgent 1 0 1 2 16 1 0 0 0 1 0.
Definition friend_2 : Agent := mkAgent 2 0 1 2 16 1 2 0 0 1 0.
Definition enemy_3 : Agent := mkAgent 3 1 1 2 16 1 3 0 0 1 0.
Definition game_bomb : Game :=
  mkGame 0 [row_of 0 [0; 0; 0; 0]] 4 1
    (<[1:=thrower_0]> (<[2:=friend_2]> (<[3:=enemy_3]> ∅))) [1; 2] 1.
(** The same strip without the friend: a throw at the enemy is safe. *)
Definition game_bomb_alone : Game :=
  mkGame 0 [row_of 0 [0; 0; 0; 0]] 4 1 (<[1:=thrower_0]> (<[3:=enemy_3]> ∅)) [1] 1.

(** One badly hurt friendly agent (wetness 90) against five enemies. *)
Definition lone_friend : Agent := mkAgent 1 0 1 2 16 0 0 0 0 0 90.
Definition enemy_k (k : Z) : Agent := mkAgent k 1 1 2 16 0 (k - 1) 1 0 0 0.
Definition game_outnumbered : Game :=
  mkGame 0 [row_of 0 [0; 0; 0; 0; 0; 0]; row_of 1 [0; 0; 0; 0; 0; 0]] 6 2
    (<[1:=lone_friend]> (<[2:=enemy_k 2]> (<[3:=enemy_k 3]> (<[4:=enemy_k 4]>
      (<[5:=enemy_k 5]> (<[6:=enemy_k 6]> ∅)))))) [1] 1.

(** A 5x1 strip: friendly agent 1 at (1,0), its enemy 2 at (0,0). *)
Definition runner_1 : Agent := mkAgent 1 0 1 2 16 0 1 0 0 0 0.
Definition chaser_0 : Agent := mkAgent 2 1 1 2 16 0 0 0 0 0 0.
Definition game_flee : Game :=
  mkGame 0 [row_of 0 [0; 0; 0; 0; 0]] 5 1 (<[1:=runner_1]> (<[2:=chaser_0]> ∅)) [1] 1.

(** The corridor's moves as per-agent action lists; agent 1 also hunkers. *)
Definition bundles_corridor : gmap Z (list AgentAction) :=
  <[1:=[mkAction ActionHunker 0 0 0 "" PriorityDefault ""; move_to 1 0 PriorityCombat]]>
    (<[2:=[move_to 1 0 PriorityMovement]]> (<[3:=[move_to 0 0 PriorityEmergency]]> ∅)).

(** A turn of the twins' game: the shooter stays, enemy 3 moves and is hit,
    enemy 2 is gone, and a line names the unknown id 9. *)
Definition twins_input : list AgentInput :=
  [mkInput 1 1 0 0 0 0; mkInput 3 2 0 1 0 40; mkInput 9 0 0 0 0 0].

(** A 4x1 referee strip: agent 1 (player 0) at (0,0), agent 2 (player 1,
    hunkered) at (2,0), and agent 3 (player 1, soaked) at (3,0). *)
Definition ref_a : RealAgent := mkRealAgent 1 0 0 0 0 0 1 16 2 1 "".
Definition ref_b : RealAgent := mkRealAgent 2 1 2 0 10 0 1 16 2 1 "HUNKER_DOWN".
Definition ref_c : RealAgent := mkRealAgent 3 1 3 0 100 0 0 16 2 1 "".
Definition ref_strip : RealGameState := mkRealGameState 4 1 [[0; 0; 0; 0]] [ref_a; ref_b; ref_c] 0 0 0.

(** ** Auxiliary definitions of the proofs *)

(** The accumulator [(bestTarget, bestDistance, bestScore)] of
    [FindBestShootTarget] after visiting [seen]. *)
Definition shoot_acc_ok (g : Game) (agent : Agent) (seen : list Agent)
    (acc : option Agent * Z * Z) : Prop :=
  match acc with
  | (None, bd, bs) => bd = 999999 /\ bs = 0 /\
      forall e, e ∈ seen -> shootable g agent e = false
  | (Some t, bd, bs) => t ∈ seen /\ shootable g agent t = true /\
      bd = shot_distance agent t /\ bs = shoot_score bd (Wetness t) /\
      forall e, e ∈ seen -> shootable g agent e = true ->
        bd <= shot_distance agent e /\
        (shot_distance agent e = bd -> shoot_score bd (Wetness e) <= bs)
  end.

(** [friendlyTiles + enemyTiles + contested] of the scan accumulator. *)
Definition territory_total (acc : Z * Z * Z) : Z := acc.1.1 + acc.1.2 + acc.2.

(** A search state reporting a position found reports one on the grid. *)
Definition alt_found_valid (g : Game) (st : AltSearch) : Prop :=
  found st = true -> IsValidPosition g (bestX st) (bestY st) = true.

(** Inverting a node's outcome: success and failure swap. *)
Definition invert_state (r : NodeState) : NodeState :=
  match r with BTSuccess => BTFailure | BTFailure => BTSuccess | BTRunning => BTRunning end.

Definition Inverter {S} (child : Node S) : Node S :=
  fun s => let '(r, s') := child s in (invert_state r, s').

(** [p] is the agent's own tile, or a passable on-grid tile at most 3
    columns and 3 rows away from it. *)
Definition near_passable (g : Game) (agent : Agent) (p : Z * Z) : Prop :=
  p = (X agent, Y agent) \/
  (IsValidPosition g p.1 p.2 = true /\ tile_type g p.1 p.2 <= 0 /\
   Z.abs (p.1 - X agent) <= 3 /\ Z.abs (p.2 - Y agent) <= 3).

(** The accumulator [(nearestEnemy, minDistance)] of [FindNearestEnemy]
    after visiting [seen]. *)
Definition nearest_acc_ok (g : Game) (agent : Agent) (seen : list Agent) (acc : option Agent * Z) : Prop :=
  match acc with
  | (None, d) => d = 999 /\
      forall e, e ∈ seen -> is_live_enemy g e = true -> 999 <= shot_distance agent e
  | (Some t, d) => t ∈ seen /\ is_live_enemy g t = true /\ d = shot_distance agent t /\ d < 999 /\
      forall e, e ∈ seen -> is_live_enemy g e = true -> d <= shot_distance agent e
  end.

(** The accumulator of [search_square]: its best score only grows from
    [b0], and its cell is the agent's or a scored passable nearby cell. *)
Definition square_acc_ok (g : Game) (agent : Agent) (score : Z -> Z -> Q) (b0 : Q)
    (acc : Z * Z * Q) : Prop :=
  (b0 <= acc.2)%Q /\
  (acc.1 = (X agent, Y agent) \/
   (IsValidPosition g acc.1.1 acc.1.2 = true /\ tile_type g acc.1.1 acc.1.2 <= 0 /\
    Z.abs (acc.1.1 - X agent) <= 3 /\ Z.abs (acc.1.2 - Y agent) <= 3 /\
    (score acc.1.1 acc.1.2 == acc.2)%Q)).

(** Positions [< k] of [acc] (of length [n]) hold elements that [swap]
    would not exchange with any later element: the loop invariant of
    [exchange_sort]. *)
Definition prefix_sorted {A} (swap : A -> A -> bool) (n k : nat) (acc : list A) : Prop :=
  length acc = n /\
  forall p q a b, (p < k)%nat -> (p < q)%nat -> acc !! p = Some a -> acc !! q = Some b -> swap a b = false.

(** Where [FindBestAlternativeMove] may look: within 3 of the preferred
    position (the rings), or next to the agent (the fallback directions). *)
Definition alt_near (agent : Agent) (preferredX preferredY : Z) (p : Z * Z) : Prop :=
  (Z.abs (p.1 - preferredX) <= 3 /\ Z.abs (p.2 - preferredY) <= 3) \/
  (Z.abs (p.1 - X agent) <= 1 /\ Z.abs (p.2 - Y agent) <= 1).

(** Invariant of the alternative search: not found means the agent's own
    tile; found means a free passable on-grid tile the search may look at. *)
Definition alt_ok (g : Game) (agent : Agent) (preferredX preferredY : Z)
    (occ : gmap (Z * Z) bool) (st : AltSearch) : Prop :=
  (found st = false -> (bestX st, bestY st) = (X agent, Y agent)) /\
  (found st = true -> IsValidPosition g (bestX st) (bestY st) = true /\
     tile_type g (bestX st) (bestY st) <= 0 /\ occupied_at occ (bestX st, bestY st) = false /\
     alt_near agent preferredX preferredY (bestX st, bestY st)).

(** The three outcomes of [resolve_loop] for one agent: its own action
    (a free passable on-grid tile), an alternative MOVE at the same
    priority, or the stay-put MOVE. *)
Definition resolved_outcome (g : Game) (actions : gmap Z AgentAction) (id : Z) (r : AgentAction) : Prop :=
  exists agent action, Agents g !! id = Some agent /\ actions !! id = Some action /\
  ((r = action /\ IsValidPosition g (TargetX r) (TargetY r) = true /\ tile_type g (TargetX r) (TargetY r) = 0) \/
   (AType r = ActionMove /\ Priority r = Priority action /\
    IsValidPosition g (TargetX r) (TargetY r) = true /\ tile_type g (TargetX r) (TargetY r) <= 0 /\
    alt_near agent (TargetX action) (TargetY action) (TargetX r, TargetY r)) \/
   r = mkAction ActionMove (X agent) (Y agent) 0 "" PriorityDefault "Staying put - no alternatives available").

(** The last agent line of the turn with the given id. *)
Definition last_input (id : Z) (entries : list AgentInput) : option AgentInput :=
  fold_left (fun acc e => if inAgentId e =? id then Some e else acc) entries None.

(** Every registry entry is stored under its own id. *)
Definition registry_keyed (g : Game) : Prop :=
  forall id a, Agents g !! id = Some a -> ID a = id.

(** The id a line adds to [MyAgents], if any. *)
Definition friendly_id (g : Game) (e : AgentInput) : option Z :=
  match Agents g !! inAgentId e with
  | Some a => if Player a =? MyID g then Some (inAgentId e) else None
  | None => None
  end.

(** The enemies [FindLeastProtectedEnemy] scores: live, within optimal range. *)
Definition lpe_candidate (g : Game) (agent e : Agent) : Prop :=
  is_live_enemy g e = true /\ shot_distance agent e <= OptimalRange agent.

(** Its combined score of an enemy. *)
Definition lpe_score (g : Game) (agent e : Agent) : Q :=
  (inject_Z (OptimalRange agent) - inject_Z (shot_distance agent e)
   + (1 - CalculateCoverProtection g (X agent) (Y agent) (X e) (Y e)) * 30)%Q.

(** [t] ranks above [e]: higher score, then smaller distance, then lower id. *)
Definition lpe_beats (g : Game) (agent t e : Agent) : Prop :=
  (lpe_score g agent e < lpe_score g agent t)%Q \/
  ((lpe_score g agent e == lpe_score g agent t)%Q /\ shot_distance agent t < shot_distance agent e) \/
  ((lpe_score g agent e == lpe_score g agent t)%Q /\ shot_distance agent t = shot_distance agent e /\
   ID t < ID e).

(** Invariant of its loop after visiting [seen]. *)
Definition lpe_acc_ok (g : Game) (agent : Agent) (seen : list Agent) (acc : option (option Agent * Q * Z)) : Prop :=
  match acc with
  | None => False
  | Some (None, bs, bd) => bs = (-999)%Q /\ bd = 999 /\ forall e, e ∈ seen -> ~ lpe_candidate g agent e
  | Some (Some t, bs, bd) => t ∈ seen /\ lpe_candidate g agent t /\ (bs == lpe_score g agent t)%Q /\
      bd = shot_distance agent t /\
      forall e, e ∈ seen -> lpe_candidate g agent e -> e = t \/ lpe_beats g agent t e
  end.

(** No two agents of the slice below 100 wetness stand on the same tile. *)
Definition live_tiles_distinct (agents : list RealAgent) : Prop :=
  forall i j a b, i <> j -> agents !! i = Some a -> agents !! j = Some b ->
    rWetness a < 100 -> rWetness b < 100 -> (rX a, rY a) <> (rX b, rY b).

(** What one splash position does to one agent. *)
Definition splash_hit1 (gs : RealGameState) (a : RealAgent) (pos : Z * Z) : RealAgent :=
  let '(x, y) := pos in
  if (0 <=? x) && (x <? rWidth gs) && (0 <=? y) && (y <? rHeight gs) then
    if (rWetness a <? 100) && (rX a =? x) && (rY a =? y) then
      let w := rWetness a + 30 in set_rWetness a (if 100 <? w then 100 else w)
    else a
  else a.

(** ** General lemmas *)

Lemma fold_left_inv {A B} (P : A -> Prop) (f : A -> B -> A) (l : list B) (a : A) :
  P a -> (forall a b, P a -> P (f a b)) -> P (fold_left f l a).
Proof.
  revert a. induction l as [|b l IH]; intros a Ha Hf; simpl; [exact Ha|].
  apply IH; auto.
Qed.

Lemma swap_step_perm {A} (swap : A -> A -> bool) i j (l : list A) :
  swap_step swap i j l ≡ₚ l.
Proof.
  unfold swap_step.
  destruct (l !! i) as [a|] eqn:Hi; [|reflexivity].
  destruct (l !! j) as [b|] eqn:Hj; [|reflexivity].
  destruct (swap a b); [|reflexivity].
  by apply Permutation_insert_swap.
Qed.

Lemma exchange_sort_perm {A} (swap : A -> A -> bool) (l : list A) :
  exchange_sort swap l ≡ₚ l.
Proof.
  unfold exchange_sort.
  apply (fold_left_inv (fun acc => acc ≡ₚ l)); [reflexivity|].
  intros acc i Hacc.
  apply (fold_left_inv (fun acc => acc ≡ₚ l)); [exact Hacc|].
  intros acc' j Hacc'. by rewrite swap_step_perm.
Qed.

(** ** C1: movement resolution can send two agents to one tile *)

(** C1 (refuted, code defect).  The resolved destinations are not pairwise
    distinct.  On an open 2x1 strip, two friendly agents both asking for
    tile (0,0), where agent 1 stands, are both resolved to (0,0): the direct
    branch of agent 1 claims (0,0) and then frees its own current tile,
    which is that same key.  In a 7x1 corridor, agent 3 takes agent 2's
    tile and agent 2, boxed in, stays put on it: the stay-put branch does
    not check whether its tile was claimed. *)
Theorem resolveMovementCollisions_duplicate_destinations :
  (exists res, resolveMovementCollisions game_strip moves_strip = Some res /\
     destination res 1 = Some (0, 0) /\ destination res 2 = Some (0, 0)) /\
  (exists res, resolveMovementCollisions game_corridor moves_corridor = Some res /\
     destination res 2 = Some (0, 0) /\ destination res 3 = Some (0, 0)).
Proof.
  split; eexists; (split; [vm_compute; reflexivity|]); vm_compute; auto.
Qed.

(** ** C2: the per-turn decision depends on Go's map iteration order *)

(** C2 (refuted, code defect).  The shoot-target search iterates
    [range g.Agents], whose order Go randomises per run, and keeps the
    first of equally good enemies.  With two identical enemies at distance
    1 from the shooter, the two orders of the same snapshot produce the
    bundles [SHOOT 3] and [SHOOT 2] for agent 1. *)
Theorem CoordinateActions_depends_on_map_order :
  visit_order game_twins (range_Agents game_twins) /\
  visit_order game_twins (rev (range_Agents game_twins)) /\
  option_map (fun m => FormatAction <$> m !! 1)
    (CoordinateActions (shoot_branch (range_Agents game_twins))
       NewTeamCoordinationStrategy game_twins).2 = Some (Some "SHOOT 3") /\
  option_map (fun m => FormatAction <$> m !! 1)
    (CoordinateActions (shoot_branch (rev (range_Agents game_twins)))
       NewTeamCoordinationStrategy game_twins).2 = Some (Some "SHOOT 2").
Proof.
  unfold visit_order. split; [reflexivity|]. split.
  - symmetry. apply Permutation_rev.
  - split; vm_compute; reflexivity.
Qed.

(** ** C3: cover protection ignores the shooter *)

(** C3 (refuted, code defect).  main.go [CalculateCoverProtection] grants
    the target's best adjacent cover whatever the shooter's position.
    Tile (1,0) is low cover, orthogonally adjacent both to the defender
    at (0,0) and to the attacker at (1,1), yet the bot estimates a 1/2
    protection; the referee's [GetCoverProtection] gives 0 there. *)
Theorem CalculateCoverProtection_counts_shared_cover :
  tile_type game_corner 1 0 = 1 /\ orth_adjacent 0 0 1 0 /\ orth_adjacent 1 1 1 0 /\
  CalculateCoverProtection game_corner 1 1 0 0 = (1 # 2)%Q /\
  GetCoverProtection game_corner 0 0 1 1 = 0%Q.
Proof.
  unfold orth_adjacent, manhattan. vm_compute. repeat split.
Qed.

(** ** C4: shot damage as a function of distance *)

(** C4.  For a shooter with soaking power and optimal range at least 1,
    the damage before cover and hunkering, both as [FindEliminationShootTarget]
    estimates it and as [ExecuteShoot] deals it, is the soaking power up to
    the optimal range, half of it up to twice the optimal range, and
    nothing beyond (the bot skips the enemy, the referee returns before
    touching it); past the optimal range it never grows with distance. *)
Theorem shot_damage_by_distance (shooter target : Agent) :
  1 <= SoakingPower shooter -> 1 <= OptimalRange shooter ->
  (shot_distance shooter target <= OptimalRange shooter ->
     elimination_base_damage shooter target = Some (inject_Z (SoakingPower shooter)) /\
     shoot_base_damage shooter target = inject_Z (SoakingPower shooter)) /\
  (OptimalRange shooter < shot_distance shooter target <= OptimalRange shooter * 2 ->
     elimination_base_damage shooter target = Some (inject_Z (SoakingPower shooter) * (1 # 2))%Q /\
     shoot_base_damage shooter target = (inject_Z (SoakingPower shooter) * (1 # 2))%Q) /\
  (OptimalRange shooter * 2 < shot_distance shooter target ->
     elimination_base_damage shooter target = None /\ shoot_base_damage shooter target = 0%Q) /\
  (forall target', OptimalRange shooter < shot_distance shooter target ->
     shot_distance shooter target <= shot_distance shooter target' ->
     (shoot_base_damage shooter target' <= shoot_base_damage shooter target)%Q).
Proof.
  intros Hsp Hr.
  assert (Hhalf : (0 <= inject_Z (SoakingPower shooter) * (1 # 2))%Q).
  { apply Qmult_le_0_compat; [|discriminate].
    change 0%Q with (inject_Z 0). rewrite <- Zle_Qle. lia. }
  unfold elimination_base_damage, shoot_base_damage, shot_distance.
  set (d := manhattan (X shooter) (Y shooter) (X target) (Y target)).
  split; [|split; [|split]].
  - intros Hd.
    destruct (Z.ltb_spec (OptimalRange shooter * 2) d); [lia|].
    destruct (Z.ltb_spec (OptimalRange shooter) d); [lia|]. auto.
  - intros Hd.
    destruct (Z.ltb_spec (OptimalRange shooter * 2) d); [lia|].
    destruct (Z.ltb_spec (OptimalRange shooter) d); [|lia]. auto.
  - intros Hd.
    destruct (Z.ltb_spec (OptimalRange shooter * 2) d); [|lia]. auto.
  - intros target' Hd Hd'.
    set (d' := manhattan (X shooter) (Y shooter) (X target') (Y target')) in *.
    destruct (Z.ltb_spec (OptimalRange shooter * 2) d');
      [destruct (Z.ltb_spec (OptimalRange shooter * 2) d); [apply Qle_refl|];
       destruct (Z.ltb_spec (OptimalRange shooter) d); [exact Hhalf|lia]|].
    destruct (Z.ltb_spec (OptimalRange shooter * 2) d); [lia|].
    destruct (Z.ltb_spec (OptimalRange shooter) d'); [|lia].
    destruct (Z.ltb_spec (OptimalRange shooter) d); [apply Qle_refl|lia].
Qed.

(** The C4 theorem at a shooter of range 3 and power 16 and an enemy at distance 1. *)
Lemma shot_damage_by_distance_witness :
  (1 <= SoakingPower shooter_left /\ 1 <= OptimalRange shooter_left) /\
  shoot_base_damage shooter_left enemy_near = inject_Z 16.
Proof.
  split; [simpl; lia|].
  apply (proj1 (shot_damage_by_distance shooter_left enemy_near ltac:(simpl; lia) ltac:(simpl; lia))).
  vm_compute. discriminate.
Defined.

(** ** C5: splash-bomb target selection *)

(** C5 (counterexample).  The behaviour tree's selector
    [FindOptimalBombTarget] has no friendly-fire veto: it only subtracts
    50 per other friendly agent within Manhattan distance 1.  On a 4x1
    strip with a friend at (2,0) and an enemy at (3,0), it picks (2,0),
    the friend's own tile, with score 50, and [TaskThrowOptimalBomb]
    throws there. *)
Lemma FindOptimalBombTarget_targets_friend :
  FindOptimalBombTarget game_bomb thrower_0 = (2, 0, 50) /\
  friend_2 ∈ my_agents game_bomb /\ ID friend_2 <> ID thrower_0 /\
  in_footprint 2 0 (X friend_2) (Y friend_2) /\
  option_map (fun a => (AType a, TargetX a, TargetY a)) (TaskThrowOptimalBomb game_bomb thrower_0)
    = Some (ActionThrow, 2, 0).
Proof.
  split; [vm_compute; reflexivity|].
  split; [apply list_elem_of_In; vm_compute; auto|].
  split; [simpl; lia|].
  split; [unfold in_footprint; simpl; lia|].
  vm_compute. reflexivity.
Qed.

Lemma footprint_covers (bombX bombY x y : Z) :
  in_footprint bombX bombY x y -> In (x, y) (footprint bombX bombY).
Proof.
  unfold in_footprint. intros [Hx Hy].
  assert (HX : x = bombX + -1 \/ x = bombX + 0 \/ x = bombX + 1) by lia.
  assert (HY : y = bombY + -1 \/ y = bombY + 0 \/ y = bombY + 1) by lia.
  cbv [footprint Zrange]. simpl.
  destruct HX as [ -> | [ -> | -> ] ]; destruct HY as [ -> | [ -> | -> ] ]; tauto.
Qed.

Lemma WouldHitFriendlyAgents_false (g : Game) (bombX bombY : Z) :
  WouldHitFriendlyAgents g bombX bombY = false ->
  forall f, f ∈ my_agents g -> IsValidPosition g (X f) (Y f) = true ->
  ~ in_footprint bombX bombY (X f) (Y f).
Proof.
  unfold WouldHitFriendlyAgents. intros Hw f Hf Hv Hin.
  apply footprint_covers in Hin.
  assert (Hc : existsb (fun c => IsValidPosition g c.1 c.2
      && existsb (fun friendly : Agent => (X friendly =? c.1) && (Y friendly =? c.2)) (my_agents g))
      (footprint bombX bombY) = true).
  { apply existsb_exists. exists (X f, Y f). split; [exact Hin|]. simpl.
    rewrite Hv. simpl. apply existsb_exists. exists f.
    split; [by apply list_elem_of_In|]. by rewrite !Z.eqb_refl. }
  congruence.
Qed.

(** C5 (amended).  Both selectors return a position within 4 Manhattan
    tiles of the thrower (their fallback is the thrower's own tile).
    When main.go [FindOptimalSplashBombTarget] reports a positive damage,
    its position passed [WouldHitFriendlyAgents], so the 3x3 footprint
    holds no friendly agent standing on the grid. *)
Theorem bomb_targets_in_range_and_veto (g : Game) (agent : Agent) :
  manhattan (X agent) (Y agent)
    (FindOptimalBombTarget g agent).1.1 (FindOptimalBombTarget g agent).1.2 <= 4 /\
  manhattan (X agent) (Y agent)
    (FindOptimalSplashBombTarget g agent).1.1 (FindOptimalSplashBombTarget g agent).1.2 <= 4 /\
  ((0 < (FindOptimalSplashBombTarget g agent).2)%Q ->
     WouldHitFriendlyAgents g (FindOptimalSplashBombTarget g agent).1.1
       (FindOptimalSplashBombTarget g agent).1.2 = false /\
     forall f, f ∈ my_agents g -> IsValidPosition g (X f) (Y f) = true ->
       ~ in_footprint (FindOptimalSplashBombTarget g agent).1.1
           (FindOptimalSplashBombTarget g agent).1.2 (X f) (Y f)).
Proof.
  assert (Hself : manhattan (X agent) (Y agent) (X agent) (Y agent) = 0)
    by (unfold manhattan; rewrite !Z.sub_diag; reflexivity).
  split.
  - unfold FindOptimalBombTarget.
    apply (fold_left_inv (fun acc : Z * Z * Z => manhattan (X agent) (Y agent) acc.1.1 acc.1.2 <= 4));
      [simpl; lia|].
    intros acc dy Hacc.
    apply (fold_left_inv (fun acc : Z * Z * Z => manhattan (X agent) (Y agent) acc.1.1 acc.1.2 <= 4));
      [exact Hacc|].
    intros acc' dx Hacc'. simpl.
    destruct ((4 <? Z.abs dx + Z.abs dy) || (Z.abs dx + Z.abs dy =? 0)) eqn:Hd; [exact Hacc'|].
    apply orb_false_iff in Hd as [Hd _]. apply Z.ltb_ge in Hd.
    destruct (negb (IsValidPosition g (X agent + dx) (Y agent + dy))); [exact Hacc'|].
    destruct (bomb_position_score g agent (X agent + dx) (Y agent + dy)) as [score hits].
    destruct ((2 <=? hits) || (25 <=? score)); [|exact Hacc'].
    destruct (acc'.2 <? score); [|exact Hacc'].
    simpl. unfold manhattan.
    replace (X agent - (X agent + dx)) with (- dx) by lia.
    replace (Y agent - (Y agent + dy)) with (- dy) by lia.
    rewrite !Z.abs_opp. lia.
  - set (P := fun acc : Z * Z * Q =>
                manhattan (X agent) (Y agent) acc.1.1 acc.1.2 <= 4 /\
                ((0 < acc.2)%Q -> WouldHitFriendlyAgents g acc.1.1 acc.1.2 = false)).
    assert (HP : P (FindOptimalSplashBombTarget g agent)).
    { unfold FindOptimalSplashBombTarget.
      apply fold_left_inv.
      - split; [simpl; lia|]. simpl. intros H. inversion H.
      - intros acc ty Hacc. apply fold_left_inv; [exact Hacc|].
        intros acc' tx Hacc'. simpl.
        destruct (Z.ltb_spec 4 (manhattan (X agent) (Y agent) tx ty)); [exact Hacc'|].
        destruct (WouldHitFriendlyAgents g tx ty) eqn:Hw; [exact Hacc'|].
        destruct (Qltb acc'.2 (CalculateSplashDamageScore g tx ty)); [|exact Hacc'].
        split; [simpl; lia|]. intros _. exact Hw. }
    destruct HP as [Hd Hw]. split; [exact Hd|].
    intros Hpos. specialize (Hw Hpos). split; [exact Hw|].
    by apply WouldHitFriendlyAgents_false.
Qed.

(** The C5 theorem when the thrower faces a lone enemy: a safe throw. *)
Lemma bomb_targets_in_range_and_veto_witness :
  (0 < (FindOptimalSplashBombTarget game_bomb_alone thrower_0).2)%Q /\
  WouldHitFriendlyAgents game_bomb_alone (FindOptimalSplashBombTarget game_bomb_alone thrower_0).1.1
    (FindOptimalSplashBombTarget game_bomb_alone thrower_0).1.2 = false.
Proof.
  assert (Hpos : (0 < (FindOptimalSplashBombTarget game_bomb_alone thrower_0).2)%Q)
    by (vm_compute; reflexivity).
  split; [exact Hpos|].
  exact (proj1 (proj2 (proj2 (bomb_targets_in_range_and_veto game_bomb_alone thrower_0)) Hpos)).
Defined.

(** ** C9: shoot-target selection *)

(** C9 (counterexample).  [FindBestShootTarget] has no elimination
    preference: with an undamaged enemy at distance 1 and an enemy at 95
    wetness at distance 2 (within the optimal range 3, so a 16-damage
    shot eliminates it), it picks the closer, undamaged enemy, in either
    visiting order of the two enemies. *)
Lemma FindBestShootTarget_ignores_elimination :
  visit_order game_finish (range_Agents game_finish) /\
  shootable game_finish shooter_left enemy_wounded = true /\
  shot_distance shooter_left enemy_wounded <= OptimalRange shooter_left /\
  100 <= Wetness enemy_wounded + SoakingPower shooter_left /\
  Wetness enemy_near + SoakingPower shooter_left < 100 /\
  FindBestShootTarget game_finish (range_Agents game_finish) shooter_left = Some enemy_near /\
  FindBestShootTarget game_finish (rev (range_Agents game_finish)) shooter_left = Some enemy_near.
Proof.
  split; [apply Permutation_refl|].
  split; [vm_compute; reflexivity|].
  split; [vm_compute; discriminate|].
  split; [simpl; lia|]. split; [simpl; lia|].
  split; vm_compute; reflexivity.
Qed.


Lemma shoot_acc_ok_step (g : Game) (agent : Agent) (seen : list Agent) acc (e : Agent) :
  OptimalRange agent * 2 < 999999 ->
  shoot_acc_ok g agent seen acc ->
  shoot_acc_ok g agent (seen ++ [e])
    (let '(bestTarget, bestDistance, bestScore) := acc in
     if (Player e =? MyID g) || (100 <=? Wetness e) then acc
     else
       let distance := manhattan (X agent) (Y agent) (X e) (Y e) in
       if OptimalRange agent * 2 <? distance then acc
       else
         let score := shoot_score distance (Wetness e) in
         if (distance <? bestDistance) || ((distance =? bestDistance) && (bestScore <? score))
         then (Some e, distance, score)
         else acc).
Proof.
  intros Hr Hacc.
  assert (Hin : forall e', e' ∈ seen ++ [e] -> e' ∈ seen \/ e' = e)
    by (intros e' He'; apply elem_of_app in He' as [ ? | ?%list_elem_of_singleton ]; auto).
  (* [e] itself is not a candidate: the accumulator is unchanged *)
  assert (Hskip : shootable g agent e = false -> shoot_acc_ok g agent (seen ++ [e]) acc).
  { intros Hs. destruct acc as [[[t|] bd] bs]; simpl in *.
    - destruct Hacc as (Ht & Hts & Hbd & Hbs & Hbest).
      split; [apply elem_of_app; auto|]. do 3 (split; [assumption|]).
      intros e' He' Hs'. destruct (Hin e' He') as [ ? | -> ]; [auto|congruence].
    - destruct Hacc as (Hbd & Hbs & Hnone). do 2 (split; [assumption|]).
      intros e' He'. destruct (Hin e' He') as [ ? | -> ]; auto. }
  unfold shoot_acc_ok in Hskip.
  destruct acc as [[bt bd] bs].
  destruct ((Player e =? MyID g) || (100 <=? Wetness e)) eqn:Hlive.
  { apply Hskip. unfold shootable. apply orb_true_iff in Hlive as [H|H].
    - by rewrite H.
    - apply Z.leb_le in H. destruct (Z.ltb_spec (Wetness e) 100); [lia|].
      by rewrite andb_false_r, andb_false_l. }
  apply orb_false_iff in Hlive as [Hp Hw].
  assert (Hsh : shootable g agent e =
                (manhattan (X agent) (Y agent) (X e) (Y e) <=? OptimalRange agent * 2)).
  { unfold shootable. rewrite Hp. apply Z.leb_gt in Hw.
    destruct (Z.ltb_spec (Wetness e) 100); [reflexivity|lia]. }
  cbv zeta.
  destruct (Z.ltb_spec (OptimalRange agent * 2) (manhattan (X agent) (Y agent) (X e) (Y e))) as [Hfar|Hnear].
  { apply Hskip. rewrite Hsh. by apply Z.leb_gt. }
  assert (Hse : shootable g agent e = true) by (rewrite Hsh; by apply Z.leb_le).
  fold (shot_distance agent e).
  set (d := shot_distance agent e) in *.
  assert (Hd : d <= OptimalRange agent * 2) by exact Hnear.
  destruct ((d <? bd) || ((d =? bd) && (bs <? shoot_score d (Wetness e)))) eqn:Hbetter.
  - (* [e] becomes the best target *)
    simpl. split; [apply elem_of_app; right; by apply list_elem_of_singleton|].
    split; [exact Hse|]. split; [reflexivity|]. split; [reflexivity|].
    intros e' He' Hs'.
    destruct (Hin e' He') as [Hold| ->]; [|lia].
    destruct bt as [t|]; simpl in Hacc.
    + destruct Hacc as (Ht & Hts & Hbd & Hbs & Hbest).
      destruct (Hbest e' Hold Hs') as [Hle Htie].
      apply orb_true_iff in Hbetter as [Hlt|Heq].
      * apply Z.ltb_lt in Hlt. lia.
      * apply andb_true_iff in Heq as [Heq Hlt].
        apply Z.eqb_eq in Heq. apply Z.ltb_lt in Hlt.
        split; [lia|]. intros He'd. rewrite <- Heq in Htie. specialize (Htie He'd). lia.
    + destruct Hacc as (_ & _ & Hnone). by rewrite Hnone in Hs'.
  - (* [e] does not beat the current best *)
    apply orb_false_iff in Hbetter as [Hnlt Hntie].
    apply Z.ltb_ge in Hnlt.
    destruct bt as [t|]; simpl in Hacc |- *.
    + destruct Hacc as (Ht & Hts & Hbd & Hbs & Hbest).
      split; [apply elem_of_app; auto|]. do 3 (split; [assumption|]).
      intros e' He' Hs'. destruct (Hin e' He') as [Hold| ->]; [auto|].
      split; [exact Hnlt|]. intros Heq. fold d in Heq.
      rewrite Heq, Z.eqb_refl in Hntie. simpl in Hntie. apply Z.ltb_ge in Hntie.
      exact Hntie.
    + destruct Hacc as (Hbd & _ & _). lia.
Qed.

(** C9 (amended).  For any order in which [range g.Agents] visits the
    registry, [FindBestShootTarget] returns [None] exactly when no live
    enemy is within twice the optimal range, and otherwise a live enemy in
    that range at minimal distance and, among those at that distance, of
    maximal score [1000 - 4 * distance + wetness (+100 from 80 wetness)].
    The optimal range is below 499999, so that twice it stays below the
    initial [bestDistance] of 999999.  There is no preference for an
    enemy the shot would eliminate. *)
Theorem FindBestShootTarget_nearest_then_wettest (g : Game) (visit : list Agent) (agent : Agent) :
  OptimalRange agent * 2 < 999999 ->
  match FindBestShootTarget g visit agent with
  | None => forall e, e ∈ visit -> shootable g agent e = false
  | Some t =>
      t ∈ visit /\ shootable g agent t = true /\
      forall e, e ∈ visit -> shootable g agent e = true ->
        shot_distance agent t <= shot_distance agent e /\
        (shot_distance agent e = shot_distance agent t ->
           shoot_score (shot_distance agent e) (Wetness e)
           <= shoot_score (shot_distance agent t) (Wetness t))
  end.
Proof.
  intros Hr.
  assert (Hfold : forall l seen acc, shoot_acc_ok g agent seen acc ->
    shoot_acc_ok g agent (seen ++ l)
      (fold_left (fun (acc : option Agent * Z * Z) (enemy : Agent) =>
         let '(bestTarget, bestDistance, bestScore) := acc in
         if (Player enemy =? MyID g) || (100 <=? Wetness enemy) then acc
         else
           let distance := manhattan (X agent) (Y agent) (X enemy) (Y enemy) in
           if OptimalRange agent * 2 <? distance then acc
           else
             let score := shoot_score distance (Wetness enemy) in
             if (distance <? bestDistance) || ((distance =? bestDistance) && (bestScore <? score))
             then (Some enemy, distance, score)
             else acc) l acc)).
  { induction l as [|e l IH]; intros seen acc Hacc; simpl.
    - by rewrite app_nil_r.
    - replace (seen ++ e :: l) with ((seen ++ [e]) ++ l) by (rewrite <- app_assoc; reflexivity).
      apply IH. by apply shoot_acc_ok_step. }
  specialize (Hfold visit [] (None, 999999, 0) ltac:(simpl; split_and!; [done|done|set_solver])).
  unfold FindBestShootTarget. simpl in Hfold.
  destruct (fold_left _ visit _) as [[[t|] bd] bs]; simpl in Hfold |- *.
  - destruct Hfold as (Ht & Hts & Hbd & Hbs & Hbest). subst bd bs.
    split; [exact Ht|]. split; [exact Hts|].
    intros e He Hs. destruct (Hbest e He Hs) as [Hle Htie].
    split; [exact Hle|]. intros Heq. rewrite Heq. exact (Htie Heq).
  - destruct Hfold as (_ & _ & Hnone). exact Hnone.
Qed.

(** The C9 theorem on the [game_finish] snapshot: the choice is the closer enemy. *)
Lemma FindBestShootTarget_nearest_then_wettest_witness :
  OptimalRange shooter_left * 2 < 999999 /\
  shootable game_finish shooter_left enemy_near = true /\
  shot_distance shooter_left enemy_near <= shot_distance shooter_left enemy_wounded.
Proof.
  assert (Hr : OptimalRange shooter_left * 2 < 999999) by (simpl; lia).
  pose proof (FindBestShootTarget_nearest_then_wettest game_finish (range_Agents game_finish)
                shooter_left Hr) as H.
  change (FindBestShootTarget game_finish (range_Agents game_finish) shooter_left)
    with (Some enemy_near) in H.
  destruct H as (_ & Hs & Hbest).
  split; [exact Hr|]. split; [exact Hs|].
  apply (Hbest enemy_wounded); [apply list_elem_of_In; vm_compute; auto|vm_compute; reflexivity].
Defined.

(** ** C6: minimum dwell time of the team state machine *)

(** One [UpdateTeamState] step: the configuration is kept, and either the
    state is kept and the timer advances by one, or the timer is reset by
    a transition taken once the advanced timer reached [MinStateTime]. *)
Lemma UpdateTeamState_with_step (s : TeamCoordinationStrategy) teamHealth territoryScore
    enemyCount turnNumber myAgentCount :
  let r := UpdateTeamState_with s teamHealth territoryScore enemyCount turnNumber myAgentCount in
  Config r = Config s /\
  ((CurrentTeamState r = CurrentTeamState s /\ StateTimer r = StateTimer s + 1) \/
   (StateTimer r = 0 /\ MinStateTime (Config s) <= StateTimer s + 1)).
Proof.
  cbv zeta. unfold UpdateTeamState_with, transitionToState. simpl.
  destruct (Z.ltb_spec (StateTimer s + 1) (MinStateTime (Config s))) as [Hlt|Hge].
  { simpl. split; [reflexivity|]. left; split; reflexivity. }
  destruct (CurrentTeamState s);
    repeat match goal with
    | |- context [if ?b then _ else _] => destruct b
    end; simpl; split; auto.
Qed.

Lemma team_run_config (games : nat -> Game) (n : nat) :
  Config (team_run NewTeamCoordinationStrategy games n) = DefaultTeamConfig.
Proof.
  induction n as [|n IH]; [reflexivity|]. simpl. unfold UpdateTeamState.
  destruct (UpdateTeamState_with_step (team_run NewTeamCoordinationStrategy games n)
    (GetTeamHealth (games n)) (GetTerritoryScore (games n)) (GetEnemyCount (games n))
    (TurnNumber (games n)) (Z.of_nat (length (MyAgents (games n))))) as [Hc _].
  by rewrite Hc.
Qed.

Lemma team_run_timer_step (games : nat -> Game) (n : nat) :
  0 <= StateTimer (team_run NewTeamCoordinationStrategy games n) ->
  0 <= StateTimer (team_run NewTeamCoordinationStrategy games (S n)) <=
  StateTimer (team_run NewTeamCoordinationStrategy games n) + 1 /\
  (state_changes_at games n ->
   StateTimer (team_run NewTeamCoordinationStrategy games (S n)) = 0 /\
   MinStateTime DefaultTeamConfig <= StateTimer (team_run NewTeamCoordinationStrategy games n) + 1).
Proof.
  intros H0. unfold state_changes_at. cbn [team_run]. unfold UpdateTeamState.
  rewrite <- (team_run_config games n).
  destruct (UpdateTeamState_with_step (team_run NewTeamCoordinationStrategy games n)
    (GetTeamHealth (games n)) (GetTerritoryScore (games n)) (GetEnemyCount (games n))
    (TurnNumber (games n)) (Z.of_nat (length (MyAgents (games n)))))
    as [_ [[Hs Ht]|[Ht Hm]]].
  - split; [lia|]. intros Hc. by contradiction Hc.
  - split; [lia|]. auto.
Qed.

Lemma team_run_timer_bound (games : nat -> Game) (a m : nat) :
  0 <= StateTimer (team_run NewTeamCoordinationStrategy games (m + a))
  <= StateTimer (team_run NewTeamCoordinationStrategy games a) + Z.of_nat m.
Proof.
  assert (Hnn : forall n, 0 <= StateTimer (team_run NewTeamCoordinationStrategy games n)).
  { induction n as [|n IH]; [simpl; lia|]. apply (team_run_timer_step games n IH). }
  induction m as [|m IH]; [simpl; pose proof (Hnn a); lia|].
  destruct (team_run_timer_step games (m + a) (Hnn _)) as [Hstep _].
  change (S m + a)%nat with (S (m + a)). lia.
Qed.

(** C6.  In a run from [NewTeamCoordinationStrategy] (Combat, timer 0),
    with one [UpdateTeamState] per turn and any snapshots, the first
    state change happens no earlier than turn [MinStateTime] (= 3), and
    two state changes, on the [a+1]-th and [b+1]-th updates, are at least
    [MinStateTime] turns apart. *)
Theorem team_state_min_dwell (games : nat -> Game) (a b : nat) :
  (state_changes_at games b -> MinStateTime DefaultTeamConfig <= Z.of_nat (S b)) /\
  ((a < b)%nat -> state_changes_at games a -> state_changes_at games b ->
   MinStateTime DefaultTeamConfig <= Z.of_nat (b - a)).
Proof.
  assert (Hnn : forall n, 0 <= StateTimer (team_run NewTeamCoordinationStrategy games n)).
  { induction n as [|n IH]; [simpl; lia|]. apply (team_run_timer_step games n IH). }
  split.
  - intros Hb.
    destruct (team_run_timer_step games b (Hnn b)) as [_ Hch].
    destruct (Hch Hb) as [_ Hmin].
    pose proof (team_run_timer_bound games 0 b) as Hbound.
    rewrite Nat.add_0_r in Hbound. simpl in Hbound. lia.
  - intros Hab Ha Hb.
    destruct (team_run_timer_step games a (Hnn a)) as [_ Hcha].
    destruct (Hcha Ha) as [Hreset _].
    destruct (team_run_timer_step games b (Hnn b)) as [_ Hchb].
    destruct (Hchb Hb) as [_ Hmin].
    pose proof (team_run_timer_bound games (S a) (b - S a)) as Hbound.
    replace (b - S a + S a)%nat with b in Hbound by lia.
    rewrite Hreset in Hbound. lia.
Qed.

(** The C6 theorem on a run where a lone, hurt agent faces five enemies:
    Combat gives way to Regroup on the 3rd update and Regroup to Combat on
    the 6th. *)
Lemma team_state_min_dwell_witness :
  (2 < 5)%nat /\ state_changes_at (fun _ => game_outnumbered) 2 /\
  state_changes_at (fun _ => game_outnumbered) 5 /\
  MinStateTime DefaultTeamConfig <= Z.of_nat (5 - 2).
Proof.
  assert (H2 : state_changes_at (fun _ => game_outnumbered) 2)
    by (unfold state_changes_at; vm_compute; discriminate).
  assert (H5 : state_changes_at (fun _ => game_outnumbered) 5)
    by (unfold state_changes_at; vm_compute; discriminate).
  split; [lia|]. split; [exact H2|]. split; [exact H5|].
  exact (proj2 (team_state_min_dwell (fun _ => game_outnumbered) 2 5) ltac:(lia) H2 H5).
Defined.

(** ** C7: the territory counters partition the passable tiles *)

Lemma tile_type_nonneg (g : Game) (x y : Z) :
  Forall (Forall (fun t => 0 <= TileType t)) (Grid g) -> 0 <= tile_type g x y.
Proof.
  intros Hg. unfold tile_type.
  destruct (Grid g !! Z.to_nat y) as [row|] eqn:Hrow; simpl; [|lia].
  destruct (row !! Z.to_nat x) as [t|] eqn:Ht; [|lia].
  pose proof (Forall_lookup_1 _ _ _ _ Hg Hrow) as Hr.
  exact (Forall_lookup_1 _ _ _ _ Hr Ht).
Qed.


Lemma territory_tile_total (g : Game) acc (x y : Z) :
  0 <= tile_type g x y ->
  territory_total (territory_tile g acc x y)
  = if tile_type g x y =? 0 then territory_total acc + 1 else territory_total acc.
Proof.
  intros Hnn. unfold territory_tile.
  destruct (Z.eqb_spec (tile_type g x y) 0) as [H0|H0].
  - rewrite H0. simpl. destruct acc as [[f e] c].
    destruct (closest_friendly g x y <? closest_enemy g x y);
      [|destruct (closest_enemy g x y <? closest_friendly g x y)];
      unfold territory_total; simpl; lia.
  - destruct (Z.ltb_spec 0 (tile_type g x y)); [reflexivity|lia].
Qed.

(** C7.  On a grid whose tile types are non-negative (0 open, 1 and 2
    cover), [GetTerritoryScore]'s friendly, enemy and contested counts sum
    to the number of type-0 tiles of the [Width] x [Height] board, and the
    advantage is friendly minus enemy. *)
Theorem GetTerritoryScore_partitions_passable (g : Game) :
  Forall (Forall (fun t => 0 <= TileType t)) (Grid g) ->
  FriendlyTiles (GetTerritoryScore g) + EnemyTiles (GetTerritoryScore g)
    + Contested (GetTerritoryScore g) = count_passable g /\
  Advantage (GetTerritoryScore g) = FriendlyTiles (GetTerritoryScore g) - EnemyTiles (GetTerritoryScore g).
Proof.
  intros Hg.
  assert (Hinner : forall y xs acc n, territory_total acc = n ->
    territory_total (fold_left (fun acc x => territory_tile g acc x y) xs acc)
    = fold_left (fun n x => if tile_type g x y =? 0 then n + 1 else n) xs n).
  { intros y xs. induction xs as [|x xs IH]; intros acc n Hacc; simpl; [exact Hacc|].
    apply IH. rewrite territory_tile_total by (apply tile_type_nonneg; exact Hg).
    rewrite Hacc. reflexivity. }
  assert (Houter : forall ys acc n, territory_total acc = n ->
    territory_total (fold_left (fun acc y => fold_left (fun acc x => territory_tile g acc x y)
                                  (Zrange 0 (Width g - 1)) acc) ys acc)
    = fold_left (fun n y => fold_left (fun n x => if tile_type g x y =? 0 then n + 1 else n)
                              (Zrange 0 (Width g - 1)) n) ys n).
  { intros ys. induction ys as [|y ys IH]; intros acc n Hacc; simpl; [exact Hacc|].
    apply IH. by apply Hinner. }
  specialize (Houter (Zrange 0 (Height g - 1)) (0, 0, 0) 0 eq_refl).
  unfold GetTerritoryScore, count_passable. rewrite <- Houter.
  destruct (fold_left _ _ _) as [[f e] c]. unfold territory_total. simpl. lia.
Qed.

(** The C7 theorem on the corridor with three cover tiles: four open tiles. *)
Lemma GetTerritoryScore_partitions_passable_witness :
  Forall (Forall (fun t => 0 <= TileType t)) (Grid game_corridor) /\
  FriendlyTiles (GetTerritoryScore game_corridor) + EnemyTiles (GetTerritoryScore game_corridor)
    + Contested (GetTerritoryScore game_corridor) = 4.
Proof.
  assert (Hg : Forall (Forall (fun t => 0 <= TileType t)) (Grid game_corridor))
    by (vm_compute; repeat constructor; discriminate).
  split; [exact Hg|].
  rewrite (proj1 (GetTerritoryScore_partitions_passable game_corridor Hg)).
  vm_compute. reflexivity.
Defined.

(** ** C10: totality and bounds of [resolveMovementCollisions] *)


Lemma consider_alternative_valid (g : Game) agent preferredX preferredY occ st c :
  alt_found_valid g st ->
  alt_found_valid g (consider_alternative g agent preferredX preferredY occ st c).
Proof.
  intros Hst. unfold consider_alternative.
  destruct (IsValidPosition g c.1 c.2) eqn:Hv; simpl; [|exact Hst].
  destruct (0 <? tile_type g c.1 c.2); [exact Hst|].
  destruct (occupied_at occ (c.1, c.2)); [exact Hst|].
  destruct (Qltb _ _); [|exact Hst].
  intros _. exact Hv.
Qed.

Lemma radius_loop_valid (g : Game) agent preferredX preferredY occ radii st :
  alt_found_valid g st ->
  alt_found_valid g (radius_loop g agent preferredX preferredY occ radii st).
Proof.
  revert st. induction radii as [|r radii IH]; intros st Hst; simpl; [exact Hst|].
  assert (H' : alt_found_valid g
    (fold_left (consider_alternative g agent preferredX preferredY occ) (ring preferredX preferredY r) st)).
  { apply fold_left_inv; [exact Hst|]. intros. by apply consider_alternative_valid. }
  destruct (found _ && _); [exact H'|]. by apply IH.
Qed.

(** A position reported as found by [FindBestAlternativeMove] is on the grid. *)
Lemma FindBestAlternativeMove_valid (g : Game) agent preferredX preferredY occ altX altY :
  FindBestAlternativeMove g agent preferredX preferredY occ = (altX, altY, true) ->
  IsValidPosition g altX altY = true.
Proof.
  unfold FindBestAlternativeMove. intros Heq.
  assert (H1 : alt_found_valid g
    (radius_loop g agent preferredX preferredY occ [1; 2; 3] (mkAlt (X agent) (Y agent) (-999) false)))
    by (apply radius_loop_valid; intros H; discriminate H).
  set (st := radius_loop _ _ _ _ _ _ _) in *.
  assert (H2 : alt_found_valid g
    (if negb (found st) || Qle_bool (bestScore st) (-999) then
       fold_left (consider_alternative g agent preferredX preferredY occ)
         (map (fun d => (X agent + d.1, Y agent + d.2)) fallback_directions) st
     else st)).
  { destruct (_ || _); [|exact H1].
    apply fold_left_inv; [exact H1|]. intros. by apply consider_alternative_valid. }
  assert (Hgen : forall st'', alt_found_valid g st'' ->
            (bestX st'', bestY st'', found st'') = (altX, altY, true) ->
            IsValidPosition g altX altY = true)
    by (intros st'' Hv Heq'; injection Heq' as <- <- Hf; by apply Hv).
  exact (Hgen _ H2 Heq).
Qed.

Lemma lookup_insert_valid (g : Game) (resolved : gmap Z AgentAction) k (a : AgentAction) :
  IsValidPosition g (TargetX a) (TargetY a) = true ->
  (forall id r, resolved !! id = Some r -> IsValidPosition g (TargetX r) (TargetY r) = true) ->
  forall id r, <[k := a]> resolved !! id = Some r -> IsValidPosition g (TargetX r) (TargetY r) = true.
Proof.
  intros Ha Hres id r Hl. apply lookup_insert_Some in Hl as [[_ <-]|[_ Hl]]; eauto.
Qed.


(** One iteration of [resolve_loop]: the agent gets one resolved action,
    on the grid when the agent stands on the grid. *)
Lemma resolve_loop_cons (g : Game) actions ap aps resolved occ agent :
  Agents g !! ap.1 = Some agent ->
  exists a occ', resolve_loop g actions (ap :: aps) resolved occ
                 = resolve_loop g actions aps (<[ap.1 := a]> resolved) occ' /\
    (IsValidPosition g (X agent) (Y agent) = true -> IsValidPosition g (TargetX a) (TargetY a) = true).
Proof.
  intros Hag. cbn [resolve_loop]. rewrite Hag.
  set (action := default zeroAction (actions !! ap.1)).
  destruct (negb (occupied_at occ (TargetX action, TargetY action))
            && IsValidPosition g (TargetX action) (TargetY action)
            && (tile_type g (TargetX action) (TargetY action) =? 0)) eqn:Hd.
  - eexists _, _. split; [reflexivity|]. intros _.
    apply andb_true_iff in Hd as [Hd _]. apply andb_true_iff in Hd as [_ Hv]. exact Hv.
  - destruct (FindBestAlternativeMove g agent (TargetX action) (TargetY action) occ)
      as [[altX altY] []] eqn:Halt.
    + eexists _, _. split; [reflexivity|]. intros _. simpl.
      exact (FindBestAlternativeMove_valid _ _ _ _ _ _ _ Halt).
    + eexists _, _. split; [reflexivity|]. intros Hv. exact Hv.
Qed.

(** [resolve_loop] never panics when every id it processes is in the
    registry, and resolves exactly the processed ids. *)
Lemma resolve_loop_total (g : Game) actions aps resolved occ :
  (forall ap, ap ∈ aps -> is_Some (Agents g !! ap.1)) ->
  exists res, resolve_loop g actions aps resolved occ = Some res /\
    dom res = dom resolved ∪ list_to_set aps.*1.
Proof.
  revert resolved occ. induction aps as [|ap aps IH]; intros resolved occ Haps.
  { exists resolved. split; [reflexivity|]. clear. set_solver. }
  destruct (Haps ap ltac:(by apply elem_of_cons; left)) as [agent Hag].
  destruct (resolve_loop_cons g actions ap aps resolved occ agent Hag) as (a & occ' & Heq & _).
  rewrite Heq.
  assert (Hrest : forall ap', ap' ∈ aps -> is_Some (Agents g !! ap'.1))
    by (intros ap' Hin; apply Haps; by apply elem_of_cons; right).
  destruct (IH (<[ap.1 := a]> resolved) occ' Hrest) as (res & Hres & Hdom).
  exists res. split; [exact Hres|]. rewrite Hdom, dom_insert_L.
  clear. rewrite fmap_cons. simpl. set_solver.
Qed.

(** Every destination [resolve_loop] writes is on the grid, provided the
    agents it processes stand on the grid. *)
Lemma resolve_loop_valid (g : Game) actions aps resolved occ res :
  (forall ap agent, ap ∈ aps -> Agents g !! ap.1 = Some agent ->
     IsValidPosition g (X agent) (Y agent) = true) ->
  (forall id r, resolved !! id = Some r -> IsValidPosition g (TargetX r) (TargetY r) = true) ->
  resolve_loop g actions aps resolved occ = Some res ->
  forall id r, res !! id = Some r -> IsValidPosition g (TargetX r) (TargetY r) = true.
Proof.
  revert resolved occ. induction aps as [|ap aps IH]; intros resolved occ Haps Hres Hl.
  { injection Hl as <-. exact Hres. }
  destruct (Agents g !! ap.1) as [agent|] eqn:Hag; [|cbn [resolve_loop] in Hl; by rewrite Hag in Hl].
  destruct (resolve_loop_cons g actions ap aps resolved occ agent Hag) as (a & occ' & Heq & Hv).
  rewrite Heq in Hl.
  assert (Hon : IsValidPosition g (X agent) (Y agent) = true)
    by (apply (Haps ap); [by apply elem_of_cons; left|exact Hag]).
  apply (IH (<[ap.1 := a]> resolved) occ'); [|apply lookup_insert_valid; auto|exact Hl].
  intros ap' agent' Hin. apply Haps. by apply elem_of_cons; right.
Qed.

Lemma agent_priorities_ids (actions : gmap Z AgentAction) :
  (sort_priorities (map (fun kv => (kv.1, Priority kv.2)) (map_to_list actions))).*1
  ≡ₚ (map_to_list actions).*1.
Proof.
  unfold sort_priorities.
  assert (Hfst : forall l : list (Z * AgentAction),
            (map (fun kv => (kv.1, Priority kv.2)) l).*1 = l.*1)
    by (induction l as [|kv l IH]; [reflexivity|simpl; by f_equal]).
  rewrite <- (Hfst (map_to_list actions)).
  apply Permutation_map. apply exchange_sort_perm.
Qed.

Lemma agent_priorities_in (actions : gmap Z AgentAction) ap :
  ap ∈ sort_priorities (map (fun kv => (kv.1, Priority kv.2)) (map_to_list actions)) ->
  is_Some (actions !! ap.1).
Proof.
  intros Hap.
  assert (Hin : ap.1 ∈ (map_to_list actions).*1).
  { apply list_elem_of_In. eapply Permutation_in; [apply agent_priorities_ids|].
    apply list_elem_of_In, list_elem_of_fmap. exists ap. split; [reflexivity|exact Hap]. }
  apply list_elem_of_fmap in Hin as [[k v] [Hk Hkv]].
  apply elem_of_map_to_list in Hkv. simpl in Hk. rewrite Hk. by exists v.
Qed.

(** [resolveMovementCollisions] does not panic when every id of the map
    is in the registry, and resolves exactly the ids of the map. *)
Lemma resolveMovementCollisions_total (g : Game) (actions : gmap Z AgentAction) :
  (forall id a, actions !! id = Some a -> is_Some (Agents g !! id)) ->
  exists res, resolveMovementCollisions g actions = Some res /\ dom res = dom actions.
Proof.
  intros Hids. unfold resolveMovementCollisions.
  set (aps := sort_priorities (map (fun kv => (kv.1, Priority kv.2)) (map_to_list actions))).
  destruct (resolve_loop_total g actions aps ∅ (initial_occupied g)) as (res & Hres & Hdom).
  { intros ap Hap. destruct (agent_priorities_in actions ap Hap) as [a Ha]. exact (Hids _ _ Ha). }
  exists res. split; [exact Hres|].
  rewrite Hdom, dom_empty_L, (left_id_L ∅ union).
  unfold aps. rewrite (agent_priorities_ids actions).
  apply leibniz_equiv. by rewrite dom_alt.
Qed.

(** C10.  If every id of the movement map names a registry agent standing
    on the grid, [resolveMovementCollisions] returns (no nil-agent panic)
    one resolved action per id of the map and no other, and every
    destination it writes, direct, alternative or stay-put, is on the grid. *)
Theorem resolveMovementCollisions_total_in_bounds (g : Game) (actions : gmap Z AgentAction) :
  (forall id a, actions !! id = Some a ->
     exists agent, Agents g !! id = Some agent /\ IsValidPosition g (X agent) (Y agent) = true) ->
  exists res, resolveMovementCollisions g actions = Some res /\ dom res = dom actions /\
    forall id r, res !! id = Some r -> IsValidPosition g (TargetX r) (TargetY r) = true.
Proof.
  intros Hids.
  destruct (resolveMovementCollisions_total g actions) as (res & Hres & Hdom).
  { intros id a Ha. destruct (Hids _ _ Ha) as (agent & Hag & _). by exists agent. }
  exists res. split; [exact Hres|]. split; [exact Hdom|].
  revert Hres. unfold resolveMovementCollisions.
  set (aps := sort_priorities (map (fun kv => (kv.1, Priority kv.2)) (map_to_list actions))).
  intros Hres.
  apply (resolve_loop_valid g actions aps ∅ (initial_occupied g) res);
    [|intros id r Hr; by rewrite lookup_empty in Hr|exact Hres].
  intros ap agent Hap Hag.
  destruct (agent_priorities_in actions ap Hap) as [a Ha].
  destruct (Hids _ _ Ha) as (agent' & Hag' & Hv). rewrite Hag in Hag'. by injection Hag' as ->.
Qed.

(** The C10 theorem on the open strip: both agents get one resolved move. *)
Lemma resolveMovementCollisions_total_in_bounds_witness :
  exists res, resolveMovementCollisions game_strip moves_strip = Some res /\ dom res = {[1; 2]}.
Proof.
  assert (Hids : forall id a, moves_strip !! id = Some a ->
     exists agent, Agents game_strip !! id = Some agent /\
                   IsValidPosition game_strip (X agent) (Y agent) = true).
  { intros id a Hl. unfold moves_strip in Hl.
    rewrite !lookup_insert_Some, lookup_empty in Hl.
    destruct Hl as [[<- _]|[_ [[<- _]|[_ Hl]]]]; [| |discriminate].
    - exists agent1_at_0. split; reflexivity.
    - exists agent2_at_1. split; reflexivity. }
  destruct (resolveMovementCollisions_total_in_bounds game_strip moves_strip Hids) as (res & Hres & Hdom & _).
  exists res. split; [exact Hres|]. rewrite Hdom. unfold moves_strip.
  rewrite !dom_insert_L, dom_empty_L. set_solver.
Defined.

(** ** C8: every agent emits a valid action *)

Lemma my_agents_registry (g : Game) (agent : Agent) :
  snapshot_wf g -> agent ∈ my_agents g -> Agents g !! ID agent = Some agent.
Proof.
  intros Hwf Hin. unfold my_agents in Hin.
  apply list_elem_of_omap in Hin as (id & Hid & Hl).
  destruct (Hwf id Hid) as (a & Ha & Hida).
  rewrite Hl in Ha. injection Ha as ->. by rewrite Hida.
Qed.

Lemma fold_insert_notin (h : Agent -> list AgentAction) (l : list Agent) (m : gmap Z (list AgentAction)) (k : Z) :
  Forall (fun c => ID c <> k) l ->
  fold_left (fun m (agent : Agent) => <[ID agent := h agent]> m) l m !! k = m !! k.
Proof.
  revert m. induction l as [|c l IH]; intros m Hl; simpl; [reflexivity|].
  apply Forall_cons in Hl as [Hc Hl]. rewrite IH by exact Hl.
  by rewrite lookup_insert_ne.
Qed.

Lemma fold_insert_some (h : Agent -> list AgentAction) (l : list Agent) (m : gmap Z (list AgentAction)) (k : Z) v :
  fold_left (fun m (agent : Agent) => <[ID agent := h agent]> m) l m !! k = Some v ->
  m !! k = Some v \/ exists a, a ∈ l /\ ID a = k /\ v = h a.
Proof.
  revert m. induction l as [|c l IH]; intros m Hl; simpl in Hl; [by left|].
  destruct (IH _ Hl) as [Hm|(a & Ha & Hid & Hv)].
  - apply lookup_insert_Some in Hm as [[Hk <-]|[_ Hm]]; [|by left].
    right. exists c. split; [apply elem_of_cons; by left|auto].
  - right. exists a. split; [apply elem_of_cons; by right|auto].
Qed.

Lemma fold_insert_in (h : Agent -> list AgentAction) (l : list Agent) (m : gmap Z (list AgentAction)) (a : Agent) :
  (forall b c, b ∈ l -> c ∈ l -> ID b = ID c -> b = c) ->
  a ∈ l ->
  fold_left (fun m (agent : Agent) => <[ID agent := h agent]> m) l m !! ID a = Some (h a).
Proof.
  revert m. induction l as [|b l IH]; intros m Huniq Ha; [by apply not_elem_of_nil in Ha|].
  simpl.
  assert (Huniq' : forall b' c', b' ∈ l -> c' ∈ l -> ID b' = ID c' -> b' = c')
    by (intros b' c' Hb Hc; apply Huniq; apply elem_of_cons; by right).
  destruct (decide (Exists (fun c => ID c = ID a) l)) as [Hex|Hnex].
  - apply Exists_exists in Hex as (c & Hc & Hid).
    assert (Hca : c = a) by (apply Huniq; [apply elem_of_cons; by right|exact Ha|exact Hid]).
    subst c. by apply IH.
  - rewrite (fold_insert_notin h).
    + apply elem_of_cons in Ha as [->|Ha].
      * by rewrite lookup_insert_eq.
      * exfalso. apply Hnex. apply Exists_exists. by exists a.
    + apply Forall_forall. intros c Hc Hid. apply Hnex, Exists_exists. by exists c.
Qed.


Lemma last_move_none (acts : list AgentAction) :
  last_move acts = None -> Forall (fun a => is_move a = false) acts.
Proof.
  unfold last_move.
  assert (H : forall acc, fold_left (fun acc a => if is_move a then Some a else acc) acts acc = None ->
                acc = None /\ Forall (fun a => is_move a = false) acts).
  { induction acts as [|a acts IH]; intros acc Hf; simpl in Hf; [auto|].
    destruct (is_move a) eqn:Ha.
    - destruct (IH _ Hf) as [Hs _]. discriminate Hs.
    - destruct (IH _ Hf) as [Hacc Hall]. split; [exact Hacc|]. by constructor. }
  intros Hf. exact (proj2 (H None Hf)).
Qed.

Lemma filter_non_moves_id (acts : list AgentAction) :
  Forall (fun a => is_move a = false) acts ->
  filter (fun a => negb (is_move a)) acts = acts.
Proof.
  induction acts as [|a acts IH]; intros Hall; [reflexivity|].
  apply Forall_cons in Hall as [Ha Hall].
  rewrite filter_cons_True by (by rewrite Ha). by rewrite IH.
Qed.

Lemma format_part_valid (a : AgentAction) : valid_action_token (format_part a).
Proof. unfold format_part. destruct (AType a); constructor. Qed.

(** A non-empty action list formats to a valid output line. *)
Lemma FormatAction_valid (acts : list AgentAction) :
  acts <> [] -> valid_action_string (FormatAction acts).
Proof.
  intros Hne. destruct acts as [|a0 rest]; [contradiction|].
  change (FormatAction (a0 :: rest)) with
    (match map format_part (exchange_sort priority_lt (a0 :: rest)) with
     | [] => "HUNKER_DOWN"
     | _ => String.concat "; " (map format_part (exchange_sort priority_lt (a0 :: rest)))
     end).
  pose proof (Permutation_length (exchange_sort_perm priority_lt (a0 :: rest))) as Hlen.
  destruct (map format_part (exchange_sort priority_lt (a0 :: rest))) as [|p ps] eqn:Hp.
  - apply (f_equal length) in Hp. rewrite length_map in Hp. simpl in *. lia.
  - exists (p :: ps). split; [discriminate|]. split; [|reflexivity].
    rewrite <- Hp. apply Forall_forall. intros t Ht.
    apply list_elem_of_In, in_map_iff in Ht as [a [<- _]]. apply format_part_valid.
Qed.

(** C8.  Whatever the behaviour tree returns, on a snapshot whose
    [MyAgents] ids name registry entries with those ids, [CoordinateActions]
    produces a final bundle (no panic) giving every friendly agent a
    non-empty action list that formats to a valid output line; an agent
    for which the tree produced nothing gets exactly the default
    HUNKER_DOWN action. *)
Theorem every_agent_emits_valid_action
    (EvaluateBT : TeamStrategyState -> Game -> Agent -> list AgentAction)
    (s : TeamCoordinationStrategy) (g : Game) :
  snapshot_wf g ->
  exists final, (CoordinateActions EvaluateBT s g).2 = Some final /\
  forall agent, agent ∈ my_agents g ->
    exists acts, final !! ID agent = Some acts /\ acts <> [] /\
      valid_action_string (FormatAction acts) /\
      (EvaluateBT (CurrentTeamState (CoordinateActions EvaluateBT s g).1) g agent = [] ->
       acts = [hunker_default]).
Proof.
  intros Hwf. unfold CoordinateActions. cbn [fst snd].
  set (st := CurrentTeamState (UpdateTeamState s g)).
  set (h := fun agent => let acts := EvaluateBT st g agent in
              match acts with [] => [hunker_default] | _ => acts end).
  set (all := collect_actions EvaluateBT st g).
  assert (Huniq : forall b c, b ∈ my_agents g -> c ∈ my_agents g -> ID b = ID c -> b = c).
  { intros b c Hb Hc Hid. apply (my_agents_registry g) in Hb, Hc; [|exact Hwf|exact Hwf].
    rewrite Hid, Hc in Hb. by injection Hb. }
  assert (Hall_in : forall agent, agent ∈ my_agents g -> all !! ID agent = Some (h agent))
    by (intros agent Hag; exact (fold_insert_in h (my_agents g) ∅ agent Huniq Hag)).
  assert (Hall_some : forall k v, all !! k = Some v -> exists agent, agent ∈ my_agents g /\ ID agent = k).
  { intros k v Hk. destruct (fold_insert_some h (my_agents g) ∅ k v Hk) as [He|(a & Ha & Hid & _)].
    - by rewrite lookup_empty in He.
    - by exists a. }
  unfold resolveActionConflicts.
  destruct (resolveMovementCollisions_total g (omap last_move all)) as (res & Hres & Hdom).
  { intros id a Ha. apply lookup_omap_Some in Ha as (acts & _ & Hacts).
    destruct (Hall_some _ _ Hacts) as (agent & Hag & <-).
    exists agent. exact (my_agents_registry g agent Hwf Hag). }
  rewrite Hres. eexists. split; [reflexivity|].
  intros agent Hag.
  rewrite map_lookup_imap, lookup_fmap, (Hall_in agent Hag). simpl.
  eexists. split; [reflexivity|].
  (* no resolved move exactly when the agent's list has no move *)
  assert (Hnomove : res !! ID agent = None -> last_move (h agent) = None).
  { intros Hr. apply not_elem_of_dom in Hr. rewrite Hdom in Hr.
    apply not_elem_of_dom in Hr. rewrite lookup_omap, (Hall_in agent Hag) in Hr. exact Hr. }
  assert (Hne : h agent <> []) by (unfold h; by destruct (EvaluateBT st g agent)).
  assert (Hfinal : (match res !! ID agent with Some moveAction => [moveAction] | None => [] end
                    ++ exchange_sort priority_lt (filter (fun a => negb (is_move a)) (h agent))) <> []).
  { destruct (res !! ID agent) as [m|] eqn:Hr; [discriminate|].
    rewrite filter_non_moves_id by (apply last_move_none, Hnomove; reflexivity).
    simpl. intros He. apply Hne.
    apply Permutation_nil. rewrite <- He. apply exchange_sort_perm. }
  split; [exact Hfinal|]. split; [by apply FormatAction_valid|].
  intros Hnone. fold st in Hnone.
  assert (Hh : h agent = [hunker_default]) by (unfold h; by rewrite Hnone).
  destruct (res !! ID agent) as [m|] eqn:Hr.
  - exfalso. assert (Hin : ID agent ∈ dom res) by (apply elem_of_dom; by exists m).
    rewrite Hdom in Hin. apply elem_of_dom in Hin as [mv Hmv].
    rewrite lookup_omap, (Hall_in agent Hag), Hh in Hmv. discriminate Hmv.
  - rewrite Hh. reflexivity.
Qed.

(** The C8 theorem with a tree that produces nothing: agent 1 hunkers down. *)
Lemma every_agent_emits_valid_action_witness :
  snapshot_wf game_twins /\
  exists final, (CoordinateActions (fun _ _ _ => []) NewTeamCoordinationStrategy game_twins).2
                  = Some final /\ final !! 1 = Some [hunker_default].
Proof.
  assert (Hwf : snapshot_wf game_twins).
  { intros id Hid. apply list_elem_of_singleton in Hid. subst id.
    exists shooter_mid. split; reflexivity. }
  split; [exact Hwf|].
  destruct (every_agent_emits_valid_action (fun _ _ _ => []) NewTeamCoordinationStrategy game_twins Hwf)
    as (final & Hf & Hall).
  exists final. split; [exact Hf|].
  assert (Hin : shooter_mid ∈ my_agents game_twins)
    by (apply list_elem_of_In; vm_compute; auto).
  destruct (Hall shooter_mid Hin) as (acts & Hl & _ & _ & Hh).
  change 1 with (ID shooter_mid). rewrite Hl. by rewrite (Hh eq_refl).
Defined.

(** * Further properties of the program *)

Lemma fold_left_inv_in {A B} (P : A -> Prop) (f : A -> B -> A) (l : list B) (a : A) :
  P a -> (forall a b, b ∈ l -> P a -> P (f a b)) -> P (fold_left f l a).
Proof.
  revert a. induction l as [|b l IH]; intros a Ha Hf; simpl; [exact Ha|].
  apply IH; [apply Hf; [apply elem_of_cons; by left|exact Ha]|].
  intros a' b' Hb'. apply Hf. apply elem_of_cons. by right.
Qed.

Lemma Zrange_bounds (lo hi v : Z) : v ∈ Zrange lo hi -> lo <= v <= hi.
Proof.
  unfold Zrange. intros Hv. apply list_elem_of_fmap in Hv as [n [-> Hn]].
  apply list_elem_of_In, in_seq in Hn. lia.
Qed.

(** ** Behaviour-tree composites *)

Lemma Sequence_Evaluate_app {S} (xs ys : list (Node S)) (s : S) :
  Sequence_Evaluate (xs ++ ys) s =
    let '(r, s') := Sequence_Evaluate xs s in
    match r with BTSuccess => Sequence_Evaluate ys s' | _ => (r, s') end.
Proof.
  revert s. induction xs as [|x xs IH]; intros s; [reflexivity|].
  simpl. destruct (x s) as [[] s']; [reflexivity| |reflexivity]. apply IH.
Qed.

Lemma Selector_Evaluate_app {S} (xs ys : list (Node S)) (s : S) :
  Selector_Evaluate (xs ++ ys) s =
    let '(r, s') := Selector_Evaluate xs s in
    match r with BTFailure => Selector_Evaluate ys s' | _ => (r, s') end.
Proof.
  revert s. induction xs as [|x xs IH]; intros s; [reflexivity|].
  simpl. destruct (x s) as [[] s']; [reflexivity|reflexivity|]. apply IH.
Qed.

(** Composites: nesting flattens (X).  A [Sequence] whose children are the
    sequences [xs] and [ys] behaves, outcome and state, as the single
    sequence [xs ++ ys]; the same holds for selectors.  Grouping children
    into named sub-sequences or sub-selectors, as the tree builders do,
    never changes the evaluation. *)
Theorem composites_nesting_flattens {S} (xs ys : list (Node S)) (s : S) :
  Sequence_Evaluate [Sequence_Evaluate xs; Sequence_Evaluate ys] s = Sequence_Evaluate (xs ++ ys) s /\
  Selector_Evaluate [Selector_Evaluate xs; Selector_Evaluate ys] s = Selector_Evaluate (xs ++ ys) s.
Proof.
  rewrite Sequence_Evaluate_app, Selector_Evaluate_app. simpl.
  split.
  - destruct (Sequence_Evaluate xs s) as [[] s']; [reflexivity| |reflexivity].
    destruct (Sequence_Evaluate ys s') as [[] s'']; reflexivity.
  - destruct (Selector_Evaluate xs s) as [[] s']; [reflexivity|reflexivity|].
    destruct (Selector_Evaluate ys s') as [[] s'']; reflexivity.
Qed.

(** Composites: a [Selector] is the dual of a [Sequence] (X).  Evaluating
    a selector gives the outcome and state of evaluating the sequence of
    its inverted children, inverted: it tries children in order until one
    does not fail, and fails, after running them all, only when all fail. *)
Theorem Selector_is_dual_of_Sequence {S} (children : list (Node S)) (s : S) :
  Selector_Evaluate children s = Inverter (Sequence_Evaluate (map Inverter children)) s.
Proof.
  revert s. induction children as [|c cs IH]; intros s; [reflexivity|].
  unfold Inverter in *. simpl. destruct (c s) as [[] s']; simpl; [reflexivity|reflexivity|].
  rewrite IH. reflexivity.
Qed.

(** ** Enemy proximity *)

Lemma nearest_acc_ok_step (g : Game) (agent : Agent) (seen : list Agent) acc (e : Agent) :
  nearest_acc_ok g agent seen acc ->
  nearest_acc_ok g agent (seen ++ [e])
    (let '(nearestEnemy, minDistance) := acc in
     if negb (Player e =? MyID g) && (Wetness e <? 100) then
       let distance := manhattan (X agent) (Y agent) (X e) (Y e) in
       if distance <? minDistance then (Some e, distance) else acc
     else acc).
Proof.
  assert (Hin : forall x, x ∈ seen ++ [e] -> x ∈ seen \/ x = e)
    by (intros x Hx; apply elem_of_app in Hx as [Hx|Hx]; [by left|right; by apply list_elem_of_singleton]).
  assert (Hseen : forall x, x ∈ seen -> x ∈ seen ++ [e]) by (intros x Hx; apply elem_of_app; by left).
  assert (He : e ∈ seen ++ [e]) by (apply elem_of_app; right; by apply list_elem_of_singleton).
  destruct acc as [[t|] d]; simpl; intros Hacc.
  - destruct Hacc as (Ht & Hlt & Hd & Hd999 & Hmin).
    destruct (negb (Player e =? MyID g) && (Wetness e <? 100)) eqn:Hle.
    + destruct (Z.ltb_spec (manhattan (X agent) (Y agent) (X e) (Y e)) d).
      * split; [exact He|]. split; [exact Hle|]. split; [reflexivity|]. split; [lia|].
        intros x Hx Hlx. destruct (Hin x Hx) as [Hx' | -> ]; [|unfold shot_distance; lia].
        specialize (Hmin x Hx' Hlx). unfold shot_distance in *. lia.
      * split; [by apply Hseen|]. split; [exact Hlt|]. split; [exact Hd|]. split; [exact Hd999|].
        intros x Hx Hlx. destruct (Hin x Hx) as [Hx' | -> ]; [by apply Hmin|unfold shot_distance; lia].
    + split; [by apply Hseen|]. split; [exact Hlt|]. split; [exact Hd|]. split; [exact Hd999|].
      intros x Hx Hlx. destruct (Hin x Hx) as [Hx' | -> ]; [by apply Hmin|].
      unfold is_live_enemy in Hlx. congruence.
  - destruct Hacc as (-> & Hnone).
    destruct (negb (Player e =? MyID g) && (Wetness e <? 100)) eqn:Hle.
    + destruct (Z.ltb_spec (manhattan (X agent) (Y agent) (X e) (Y e)) 999).
      * split; [exact He|]. split; [exact Hle|]. split; [reflexivity|]. split; [lia|].
        intros x Hx Hlx. destruct (Hin x Hx) as [Hx' | -> ]; [|unfold shot_distance; lia].
        specialize (Hnone x Hx' Hlx). unfold shot_distance in *. lia.
      * split; [reflexivity|]. intros x Hx Hlx.
        destruct (Hin x Hx) as [Hx' | -> ]; [by apply Hnone|unfold shot_distance; lia].
    + split; [reflexivity|]. intros x Hx Hlx.
      destruct (Hin x Hx) as [Hx' | -> ]; [by apply Hnone|].
      unfold is_live_enemy in Hlx. congruence.
Qed.

(** What [FindNearestEnemy] returns, for any order of the registry. *)
Lemma FindNearestEnemy_spec (g : Game) (visit : list Agent) (agent : Agent) :
  visit_order g visit ->
  match FindNearestEnemy g visit agent with
  | None => forall e, e ∈ range_Agents g -> is_live_enemy g e = true -> 999 <= shot_distance agent e
  | Some t => t ∈ range_Agents g /\ is_live_enemy g t = true /\ shot_distance agent t < 999 /\
      forall e, e ∈ range_Agents g -> is_live_enemy g e = true -> shot_distance agent t <= shot_distance agent e
  end.
Proof.
  intros Hperm.
  assert (Hgen : forall l seen acc, nearest_acc_ok g agent seen acc ->
    nearest_acc_ok g agent (seen ++ l)
      (fold_left (fun (acc : option Agent * Z) (enemy : Agent) =>
          let '(nearestEnemy, minDistance) := acc in
          if negb (Player enemy =? MyID g) && (Wetness enemy <? 100) then
            let distance := manhattan (X agent) (Y agent) (X enemy) (Y enemy) in
            if distance <? minDistance then (Some enemy, distance) else acc
          else acc) l acc)).
  { induction l as [|e l IH]; intros seen acc Hacc; simpl; [by rewrite app_nil_r|].
    replace (seen ++ e :: l) with ((seen ++ [e]) ++ l) by (rewrite <- app_assoc; reflexivity).
    apply IH. by apply nearest_acc_ok_step. }
  assert (H0 : nearest_acc_ok g agent [] (None, 999))
    by (split; [reflexivity|]; intros e He; by apply not_elem_of_nil in He).
  specialize (Hgen visit [] (None, 999) H0).
  simpl in Hgen. unfold FindNearestEnemy.
  assert (Hmem : forall e, e ∈ range_Agents g -> e ∈ visit)
    by (intros e He; apply list_elem_of_In; apply list_elem_of_In in He;
        eapply Permutation_in; [symmetry; exact Hperm|exact He]).
  assert (Hmem' : forall e, e ∈ visit -> e ∈ range_Agents g)
    by (intros e He; apply list_elem_of_In; apply list_elem_of_In in He;
        eapply Permutation_in; [exact Hperm|exact He]).
  destruct (fold_left _ visit (None, 999)) as [[t|] d]; simpl in *.
  - destruct Hgen as (Ht & Hlt & -> & Hd & Hmin). split; [by apply Hmem'|].
    split; [exact Hlt|]. split; [exact Hd|]. intros e He. by apply Hmin, Hmem.
  - destruct Hgen as (_ & Hnone). intros e He. by apply Hnone, Hmem.
Qed.

(** [FindNearestEnemy] finds a nearest live enemy (X).  Whatever order
    [range g.Agents] visits the registry in, it returns nil exactly when no
    live enemy (another player's agent with wetness below 100) is at
    Manhattan distance below 999; otherwise it returns a live enemy of the
    registry at minimal distance from the agent. *)
Theorem FindNearestEnemy_nearest (g : Game) (visit : list Agent) (agent : Agent) :
  visit_order g visit ->
  (FindNearestEnemy g visit agent = None <->
     forall e, e ∈ range_Agents g -> is_live_enemy g e = true -> 999 <= shot_distance agent e) /\
  (forall t, FindNearestEnemy g visit agent = Some t ->
     t ∈ range_Agents g /\ is_live_enemy g t = true /\
     forall e, e ∈ range_Agents g -> is_live_enemy g e = true -> shot_distance agent t <= shot_distance agent e).
Proof.
  intros Hperm. pose proof (FindNearestEnemy_spec g visit agent Hperm) as Hs.
  destruct (FindNearestEnemy g visit agent) as [t|].
  - destruct Hs as (Ht & Hl & Hd & Hmin). split.
    + split; [discriminate|]. intros Hall. specialize (Hall t Ht Hl). lia.
    + intros t' [= <-]. auto.
  - split; [split; [intros _; exact Hs|reflexivity]|]. intros t' Ht'. discriminate.
Qed.

(** [CheckEnemiesInRange] agrees with [FindNearestEnemy] (X).  For a range
    below 999 and whatever orders the two [range g.Agents] loops visit the
    registry in, [CheckEnemiesInRange(Range)] succeeds exactly when
    [FindNearestEnemy] returns an enemy within [Range] of the agent. *)
Theorem CheckEnemiesInRange_iff_nearest (g : Game) (visit : list Agent) (agent : Agent) (Range : Z) :
  visit_order g visit -> Range < 999 ->
  (CheckEnemiesInRange Range agent g = BTSuccess <->
   exists t, FindNearestEnemy g visit agent = Some t /\ shot_distance agent t <= Range).
Proof.
  intros Hperm HR. pose proof (FindNearestEnemy_spec g visit agent Hperm) as Hs.
  unfold CheckEnemiesInRange.
  destruct (existsb _ (range_Agents g)) eqn:Hex.
  - split; [intros _|intros _; reflexivity].
    apply existsb_exists in Hex as [e [He Hok]].
    apply andb_true_iff in Hok as [Hl Hd]. apply Z.leb_le in Hd.
    apply list_elem_of_In in He.
    destruct (FindNearestEnemy g visit agent) as [t|].
    + exists t. split; [reflexivity|]. destruct Hs as (_ & _ & _ & Hmin).
      specialize (Hmin e He Hl). unfold shot_distance in *. lia.
    + specialize (Hs e He Hl). unfold shot_distance in *. lia.
  - split; [discriminate|]. intros Hc. exfalso. destruct Hc as [t [Ht Hd]]. rewrite Ht in Hs. destruct Hs as (Hin & Hl & _ & _).
    assert (Htrue : existsb (fun enemy => negb (Player enemy =? MyID g) && (Wetness enemy <? 100)
                           && (manhattan (X agent) (Y agent) (X enemy) (Y enemy) <=? Range))
                      (range_Agents g) = true).
    { apply existsb_exists. exists t. split; [by apply list_elem_of_In|].
      unfold is_live_enemy in Hl. rewrite Hl. simpl. apply Z.leb_le. exact Hd. }
    congruence.
Qed.

(** ** Local position searches *)

Lemma search_square_spec (g : Game) (agent : Agent) (score : Z -> Z -> Q) (b0 : Q) :
  let p := search_square g agent score b0 in
  p = (X agent, Y agent) \/
  (IsValidPosition g p.1 p.2 = true /\ tile_type g p.1 p.2 <= 0 /\
   Z.abs (p.1 - X agent) <= 3 /\ Z.abs (p.2 - Y agent) <= 3 /\ (b0 <= score p.1 p.2)%Q).
Proof.
  unfold search_square.
  set (P := square_acc_ok g agent score b0).
  assert (Hinit : P (X agent, Y agent, b0)) by (split; [apply Qle_refl|left; reflexivity]).
  assert (Hfold : P (fold_left (fun acc dy =>
      fold_left (fun (acc : Z * Z * Q) dx =>
          let newX := X agent + dx in let newY := Y agent + dy in
          if negb (IsValidPosition g newX newY) || (0 <? tile_type g newX newY) then acc
          else
            let s := score newX newY in
            if Qltb acc.2 s then (newX, newY, s) else acc)
        (Zrange (-3) 3) acc)
    (Zrange (-3) 3) (X agent, Y agent, b0))).
  { apply fold_left_inv_in; [exact Hinit|]. intros acc dy Hdy Hacc.
    apply fold_left_inv_in; [exact Hacc|]. intros acc' dx Hdx Hacc'.
    apply Zrange_bounds in Hdy. apply Zrange_bounds in Hdx. simpl.
    destruct (IsValidPosition g (X agent + dx) (Y agent + dy)) eqn:Hv; simpl; [|exact Hacc'].
    destruct (Z.ltb_spec 0 (tile_type g (X agent + dx) (Y agent + dy))); [exact Hacc'|].
    unfold Qltb. destruct (Qle_bool (score (X agent + dx) (Y agent + dy)) acc'.2) eqn:Hq;
      simpl; [exact Hacc'|].
    destruct Hacc' as [Hb0 _].
    assert (Hlt : (acc'.2 < score (X agent + dx)%Z (Y agent + dy)%Z)%Q).
    { apply Qnot_le_lt. intros Hle. apply Qle_bool_iff in Hle. congruence. }
    split; simpl; [apply Qlt_le_weak; eapply Qle_lt_trans; eauto|].
    right. split; [exact Hv|]. split; [lia|]. split; [lia|]. split; [lia|]. reflexivity. }
  destruct (fold_left _ _ _) as [[px py] ps]. destruct Hfold as [Hb0 [Hown|(Hv & Ht & Hx & Hy & Hs)]].
  - left. exact Hown.
  - right. simpl in *. split; [exact Hv|]. split; [exact Ht|]. split; [exact Hx|]. split; [exact Hy|].
    rewrite Hs. exact Hb0.
Qed.

Lemma search_square_near (g : Game) (agent : Agent) (score : Z -> Z -> Q) (b0 : Q) :
  near_passable g agent (search_square g agent score b0).
Proof.
  destruct (search_square_spec g agent score b0) as [Hown|(Hv & Ht & Hx & Hy & _)];
    [left; exact Hown|right; auto].
Qed.

(** The local searches stay local (X).  [FindSafePosition],
    [FindSafetyPosition] and [FindTacticalPosition] return either the
    agent's own tile or a passable on-grid tile at most 3 columns and 3 rows
    away; and the position [FindSafePosition] returns is at least as safe,
    by [CalculatePositionSafety], as the agent's own tile. *)
Theorem local_searches_near_passable (g : Game) (agent : Agent) :
  near_passable g agent (FindSafePosition g agent) /\
  near_passable g agent (FindSafetyPosition g agent) /\
  (forall targetX targetY, near_passable g agent (FindTacticalPosition g agent targetX targetY)) /\
  (CalculatePositionSafety g (X agent) (Y agent) <=
     CalculatePositionSafety g (FindSafePosition g agent).1 (FindSafePosition g agent).2)%Q.
Proof.
  split; [apply search_square_near|]. split; [apply search_square_near|].
  split; [intros; apply search_square_near|].
  unfold FindSafePosition.
  destruct (search_square_spec g agent (CalculatePositionSafety g)
              (CalculatePositionSafety g (X agent) (Y agent))) as [Hown|(_ & _ & _ & _ & Hs)].
  - rewrite Hown. apply Qle_refl.
  - exact Hs.
Qed.

(** ** Movement tasks *)

(** [TaskMoveToSafety] flees locally (X).  When it appends an action, it
    is an emergency-priority MOVE to a passable on-grid tile other than the
    agent's own, at most 3 columns and 3 rows away. *)
Theorem TaskMoveToSafety_local_move (g : Game) (agent : Agent) (a : AgentAction) :
  TaskMoveToSafety g agent = Some a ->
  AType a = ActionMove /\ Priority a = PriorityEmergency /\
  (TargetX a, TargetY a) <> (X agent, Y agent) /\
  IsValidPosition g (TargetX a) (TargetY a) = true /\ tile_type g (TargetX a) (TargetY a) <= 0 /\
  Z.abs (TargetX a - X agent) <= 3 /\ Z.abs (TargetY a - Y agent) <= 3.
Proof.
  unfold TaskMoveToSafety.
  pose proof (search_square_near g agent (safety_score g agent) (-999)) as Hn.
  fold (FindSafetyPosition g agent) in Hn.
  destruct (FindSafetyPosition g agent) as [safeX safeY].
  destruct (negb (safeX =? X agent) || negb (safeY =? Y agent)) eqn:Hne; [|discriminate].
  intros [= <-]. simpl.
  assert (Hneq : (safeX, safeY) <> (X agent, Y agent)).
  { intros [= -> ->]. rewrite !Z.eqb_refl in Hne. discriminate. }
  destruct Hn as [Hown|(Hv & Ht & Hx & Hy)]; [contradiction|].
  simpl in *. repeat split; auto.
Qed.

(** [TaskMoveTowardsEnemies] outcome (X).  Whatever order its
    [FindNearestEnemy] visits the registry in, the task fails exactly when
    no live enemy is at distance below 999; otherwise it appends one action:
    a HUNKER_DOWN, or a MOVE to a passable on-grid tile other than the
    agent's own, at most 3 columns and 3 rows away. *)
Theorem TaskMoveTowardsEnemies_outcome (g : Game) (visit : list Agent) (agent : Agent) :
  visit_order g visit ->
  (TaskMoveTowardsEnemies g visit agent = None <->
     forall e, e ∈ range_Agents g -> is_live_enemy g e = true -> 999 <= shot_distance agent e) /\
  (forall a, TaskMoveTowardsEnemies g visit agent = Some a ->
     AType a = ActionHunker \/
     (AType a = ActionMove /\ (TargetX a, TargetY a) <> (X agent, Y agent) /\
      IsValidPosition g (TargetX a) (TargetY a) = true /\ tile_type g (TargetX a) (TargetY a) <= 0 /\
      Z.abs (TargetX a - X agent) <= 3 /\ Z.abs (TargetY a - Y agent) <= 3)).
Proof.
  intros Hperm. pose proof (FindNearestEnemy_spec g visit agent Hperm) as Hs.
  unfold TaskMoveTowardsEnemies.
  destruct (FindNearestEnemy g visit agent) as [t|].
  2:{ split; [split; [intros _; exact Hs|reflexivity]|]. intros a Ha. discriminate. }
  destruct Hs as (Ht & Hl & Hd & _).
  split.
  { split; [|intros Hall; specialize (Hall t Ht Hl); lia].
    intros Hnone. exfalso. revert Hnone.
    destruct (_ && _ && _); [discriminate|].
    match goal with |- context [let '(targetX, targetY) := ?e in _] => destruct e as [tx ty] end.
    destruct (_ && _); discriminate. }
  intros a.
  destruct (_ && _ && _); [intros [= <-]; left; reflexivity|].
  assert (Hnear : forall p, near_passable g agent p ->
    match p with
    | (targetX, targetY) =>
        if (targetX =? X agent) && (targetY =? Y agent) then
          Some (mkAction ActionHunker 0 0 0 "" PriorityDefault "No good position found")
        else
          Some (mkAction ActionMove targetX targetY 0 "" PriorityMovement
                  (if 3 <=? Cooldown agent then "Repositioning for safety (long cooldown)"
                   else "Advancing toward enemy"))
    end = Some a ->
    AType a = ActionHunker \/
    (AType a = ActionMove /\ (TargetX a, TargetY a) <> (X agent, Y agent) /\
     IsValidPosition g (TargetX a) (TargetY a) = true /\ tile_type g (TargetX a) (TargetY a) <= 0 /\
     Z.abs (TargetX a - X agent) <= 3 /\ Z.abs (TargetY a - Y agent) <= 3)).
  { intros [px py] Hp.
    destruct ((px =? X agent) && (py =? Y agent)) eqn:Hsame; intros [= <-]; [left; reflexivity|].
    right. simpl.
    assert (Hneq : (px, py) <> (X agent, Y agent)).
    { intros [= -> ->]. rewrite !Z.eqb_refl in Hsame. discriminate. }
    destruct Hp as [Hown|(Hv & Htt & Hx & Hy)]; [contradiction|].
    simpl in *. repeat split; auto. }
  apply Hnear.
  destruct (3 <=? Cooldown agent).
  - pose proof (search_square_near g agent (safety_score g agent) (-999)) as Hsafe.
    fold (FindSafetyPosition g agent) in Hsafe.
    destruct (FindSafetyPosition g agent) as [tx ty].
    destruct ((tx =? X agent) && (ty =? Y agent)); [apply search_square_near|exact Hsafe].
  - apply search_square_near.
Qed.

(** The nearest-enemy theorem on the strip: the enemy at distance 1 is found. *)
Lemma FindNearestEnemy_nearest_witness :
  visit_order game_flee (range_Agents game_flee) /\
  FindNearestEnemy game_flee (range_Agents game_flee) runner_1 = Some chaser_0 /\
  chaser_0 ∈ range_Agents game_flee.
Proof.
  assert (Hperm : visit_order game_flee (range_Agents game_flee)) by apply Permutation_refl.
  assert (Heq : FindNearestEnemy game_flee (range_Agents game_flee) runner_1 = Some chaser_0)
    by (vm_compute; reflexivity).
  split; [exact Hperm|]. split; [exact Heq|].
  exact (proj1 (proj2 (FindNearestEnemy_nearest game_flee _ runner_1 Hperm) chaser_0 Heq)).
Defined.

(** The agreement on the strip: the enemy is within range 1. *)
Lemma CheckEnemiesInRange_iff_nearest_witness :
  CheckEnemiesInRange 1 runner_1 game_flee = BTSuccess.
Proof.
  assert (Hperm : visit_order game_flee (range_Agents game_flee)) by apply Permutation_refl.
  apply (proj2 (CheckEnemiesInRange_iff_nearest game_flee _ runner_1 1 Hperm ltac:(lia))).
  exists chaser_0. split; [vm_compute; reflexivity|]. vm_compute. discriminate.
Defined.

(** On the strip the agent flees to the far end (4,0). *)
Lemma TaskMoveToSafety_local_move_witness :
  exists a, TaskMoveToSafety game_flee runner_1 = Some a /\
    TargetX a = 4 /\ IsValidPosition game_flee (TargetX a) (TargetY a) = true.
Proof.
  assert (Heq : TaskMoveToSafety game_flee runner_1
                = Some (mkAction ActionMove 4 0 0 "" PriorityEmergency "Moving to safety (4,0)"))
    by (vm_compute; reflexivity).
  eexists. split; [exact Heq|]. split; [reflexivity|].
  destruct (TaskMoveToSafety_local_move game_flee runner_1 _ Heq) as (_ & _ & _ & Hv & _).
  exact Hv.
Defined.

(** On the strip the enemy is at distance 1, so the task does not fail. *)
Lemma TaskMoveTowardsEnemies_outcome_witness :
  TaskMoveTowardsEnemies game_flee (range_Agents game_flee) runner_1 <> None.
Proof.
  assert (Hperm : visit_order game_flee (range_Agents game_flee)) by apply Permutation_refl.
  intros Hnone.
  pose proof (proj1 (proj1 (TaskMoveTowardsEnemies_outcome game_flee _ runner_1 Hperm)) Hnone) as Hall.
  specialize (Hall chaser_0 ltac:(apply list_elem_of_In; vm_compute; tauto) ltac:(vm_compute; reflexivity)).
  vm_compute in Hall. apply Hall. reflexivity.
Defined.

(** ** The exchange sort *)

Section ExchangeSort.

Context {A : Type} (swap : A -> A -> bool).
Hypothesis swap_asym : forall a b, swap a b = true -> swap b a = false.
Hypothesis noswap_trans : forall a b c, swap a b = false -> swap b c = false -> swap a c = false.

Lemma swap_step_inner (n i j : nat) (acc : list A) :
  (i < j)%nat -> (j < n)%nat ->
  prefix_sorted swap n i acc ->
  (forall q a b, (i < q < j)%nat -> acc !! i = Some a -> acc !! q = Some b -> swap a b = false) ->
  prefix_sorted swap n i (swap_step swap i j acc) /\
  (forall q a b, (i < q < S j)%nat -> swap_step swap i j acc !! i = Some a ->
     swap_step swap i j acc !! q = Some b -> swap a b = false).
Proof.
  intros Hij Hjn [Hlen Hpre] Hin.
  destruct (lookup_lt_is_Some_2 acc i ltac:(lia)) as [a Ha].
  destruct (lookup_lt_is_Some_2 acc j ltac:(lia)) as [b Hb].
  unfold swap_step. rewrite Ha, Hb.
  destruct (swap a b) eqn:Hab.
  - assert (Hli : <[i:=b]> (<[j:=a]> acc) !! i = Some b)
      by (apply list_lookup_insert_eq; rewrite length_insert; lia).
    assert (Hlj : <[i:=b]> (<[j:=a]> acc) !! j = Some a)
      by (rewrite list_lookup_insert_ne by lia; apply list_lookup_insert_eq; lia).
    assert (Hlo : forall k, k <> i -> k <> j -> <[i:=b]> (<[j:=a]> acc) !! k = acc !! k)
      by (intros k Hki Hkj; rewrite !list_lookup_insert_ne by lia; reflexivity).
    split; [split|].
    + rewrite !length_insert. exact Hlen.
    + intros p q x y Hp Hpq Hx Hy.
      rewrite Hlo in Hx by lia.
      destruct (decide (q = i)) as [ -> |Hqi]; [rewrite Hli in Hy; injection Hy as <-; apply (Hpre p j x b); [lia|lia|exact Hx|exact Hb]|].
      destruct (decide (q = j)) as [ -> |Hqj]; [rewrite Hlj in Hy; injection Hy as <-; apply (Hpre p i x a); [lia|lia|exact Hx|exact Ha]|].
      rewrite Hlo in Hy by lia. apply (Hpre p q x y); [lia|lia|exact Hx|exact Hy].
    + intros q x y Hq Hx Hy. rewrite Hli in Hx. injection Hx as <-.
      destruct (decide (q = j)) as [ -> |Hqj].
      * rewrite Hlj in Hy. injection Hy as <-. by apply swap_asym.
      * rewrite Hlo in Hy by lia.
        apply (noswap_trans b a y); [by apply swap_asym|]. eapply Hin; eauto. lia.
  - split; [split; [exact Hlen|exact Hpre]|].
    intros q x y Hq Hx Hy. rewrite Ha in Hx. injection Hx as <-.
    destruct (decide (q = j)) as [ -> |Hqj].
    + rewrite Hb in Hy. injection Hy as <-. exact Hab.
    + eapply Hin; eauto. lia.
Qed.

Lemma exchange_sort_outer (n i : nat) (acc : list A) :
  (i < n)%nat -> prefix_sorted swap n i acc ->
  prefix_sorted swap n (S i) (fold_left (fun acc j => swap_step swap i j acc) (seq (S i) (n - S i)) acc).
Proof.
  intros Hin Hacc.
  assert (Hgen : forall d m acc, (S i <= m)%nat -> (m + d = n)%nat ->
    prefix_sorted swap n i acc ->
    (forall q a b, (i < q < m)%nat -> acc !! i = Some a -> acc !! q = Some b -> swap a b = false) ->
    prefix_sorted swap n (S i) (fold_left (fun acc j => swap_step swap i j acc) (seq m d) acc)).
  { induction d as [|d IH]; intros m acc' Hm Hmn Hpre Hinner.
    - simpl. destruct Hpre as [Hlen Hpre]. split; [exact Hlen|].
      intros p q a b Hp Hpq Ha Hb.
      destruct (decide (p = i)) as [ -> | Hpi]; [|apply (Hpre p q a b); [lia|lia|exact Ha|exact Hb]].
      apply (Hinner q a b); [|exact Ha|exact Hb]. split; [lia|]. apply lookup_lt_Some in Hb. lia.
    - simpl.
      destruct (swap_step_inner n i m acc' ltac:(lia) ltac:(lia) Hpre Hinner) as [Hpre' Hinner'].
      apply IH; [lia|lia|exact Hpre'|exact Hinner']. }
  apply Hgen; [lia|lia|exact Hacc|]. intros q a b Hq. lia.
Qed.

Lemma exchange_sort_sorted (l : list A) :
  forall p q a b, (p < q)%nat -> exchange_sort swap l !! p = Some a -> exchange_sort swap l !! q = Some b ->
  swap a b = false.
Proof.
  unfold exchange_sort. remember (length l) as n eqn:Hn.
  assert (Hgen : forall d k acc, (k + d = n)%nat -> prefix_sorted swap n k acc ->
    prefix_sorted swap n n (fold_left (fun acc i => fold_left (fun acc j => swap_step swap i j acc)
                                                 (seq (S i) (n - S i)) acc) (seq k d) acc)).
  { induction d as [|d IH]; intros k acc Hk Hacc.
    - cbn [fold_left seq]. replace k with n in Hacc by lia. exact Hacc.
    - cbn [fold_left seq]. apply IH; [lia|]. apply exchange_sort_outer; [lia|exact Hacc]. }
  assert (H0 : prefix_sorted swap n 0 l) by (split; [exact (eq_sym Hn)|intros; lia]).
  assert (Hn0 : (0 + n = n)%nat) by lia.
  destruct (Hgen n 0%nat l Hn0 H0) as [Hlen Hsorted].
  intros p q a b Hpq Ha Hb. apply (Hsorted p q a b); [|exact Hpq|exact Ha|exact Hb].
  apply lookup_lt_Some in Hb. lia.
Qed.

End ExchangeSort.

Lemma priority_swap_asym (a b : Z * Z) : priority_swap a b = true -> priority_swap b a = false.
Proof.
  unfold priority_swap. intros H.
  apply orb_true_iff in H as [H|H]; [apply Z.ltb_lt in H|apply andb_true_iff in H as [H1 H2];
    apply Z.eqb_eq in H1; apply Z.ltb_lt in H2];
  apply orb_false_iff; split; try (apply Z.ltb_ge; lia);
  apply andb_false_iff; first [left; apply Z.eqb_neq; lia | right; apply Z.ltb_ge; lia].
Qed.

Lemma priority_swap_false (a b : Z * Z) :
  priority_swap a b = false <-> b.2 < a.2 \/ (b.2 = a.2 /\ a.1 <= b.1).
Proof.
  unfold priority_swap. rewrite orb_false_iff, andb_false_iff, Z.ltb_ge, Z.eqb_neq, Z.ltb_ge. lia.
Qed.

Lemma priority_swap_noswap_trans (a b c : Z * Z) :
  priority_swap a b = false -> priority_swap b c = false -> priority_swap a c = false.
Proof. rewrite !priority_swap_false. lia. Qed.

Lemma priority_lt_asym (a b : AgentAction) : priority_lt a b = true -> priority_lt b a = false.
Proof. unfold priority_lt. intros H. apply Z.ltb_lt in H. apply Z.ltb_ge. lia. Qed.

Lemma priority_lt_noswap_trans (a b c : AgentAction) :
  priority_lt a b = false -> priority_lt b c = false -> priority_lt a c = false.
Proof. unfold priority_lt. rewrite !Z.ltb_ge. lia. Qed.

(** [agentPriorities] sorting (X).  The exchange sort of
    [resolveMovementCollisions] rearranges the (agent id, priority) pairs
    into priority-descending order, equal priorities by ascending id: an
    entry that comes before another has the higher priority, or the same
    priority and an id no larger. *)
Theorem sort_priorities_sorted (l : list (Z * Z)) :
  sort_priorities l ≡ₚ l /\
  forall p q a b, (p < q)%nat -> sort_priorities l !! p = Some a -> sort_priorities l !! q = Some b ->
    b.2 < a.2 \/ (b.2 = a.2 /\ a.1 <= b.1).
Proof.
  split; [apply exchange_sort_perm|].
  intros p q a b Hpq Ha Hb. apply priority_swap_false.
  exact (exchange_sort_sorted priority_swap priority_swap_asym priority_swap_noswap_trans l p q a b Hpq Ha Hb).
Qed.

(** [FormatAction] orders by priority (X).  An empty action list prints
    HUNKER_DOWN; otherwise the output is the formatted actions, all of them,
    joined by "; " in non-increasing order of priority. *)
Theorem FormatAction_priority_order (actions : list AgentAction) :
  (actions = [] -> FormatAction actions = "HUNKER_DOWN") /\
  (actions <> [] -> exists sorted, sorted ≡ₚ actions /\
     (forall p q a b, (p < q)%nat -> sorted !! p = Some a -> sorted !! q = Some b -> Priority b <= Priority a) /\
     FormatAction actions = String.concat "; " (map format_part sorted)).
Proof.
  split; [intros ->; reflexivity|]. intros Hne.
  exists (exchange_sort priority_lt actions).
  split; [apply exchange_sort_perm|]. split.
  - intros p q a b Hpq Ha Hb.
    pose proof (exchange_sort_sorted priority_lt priority_lt_asym priority_lt_noswap_trans actions p q a b Hpq Ha Hb) as H.
    unfold priority_lt in H. apply Z.ltb_ge in H. exact H.
  - unfold FormatAction. destruct actions as [|a0 rest]; [congruence|].
    pose proof (exchange_sort_perm priority_lt (a0 :: rest)) as Hp.
    destruct (exchange_sort priority_lt (a0 :: rest)) as [|s0 srest] eqn:Hs.
    + apply Permutation_nil in Hp. discriminate.
    + reflexivity.
Qed.

(** ** The alternative-move search and the movement resolver *)

Lemma ring_bounds (px py r : Z) (c : Z * Z) :
  c ∈ ring px py r -> Z.abs (c.1 - px) <= r /\ Z.abs (c.2 - py) <= r.
Proof.
  unfold ring. intros Hc. apply list_elem_of_In, in_concat in Hc as [l [Hl Hc]].
  apply in_map_iff in Hl as [dy [<- Hdy]].
  apply list_elem_of_In in Hc. apply list_elem_of_omap in Hc as [dx [Hdx Hs]].
  apply list_elem_of_In in Hdy. apply Zrange_bounds in Hdy. apply Zrange_bounds in Hdx.
  destruct (_ && _); [discriminate|]. injection Hs as <-. simpl. lia.
Qed.

Lemma consider_alternative_ok (g : Game) agent preferredX preferredY occ st c :
  alt_near agent preferredX preferredY c ->
  alt_ok g agent preferredX preferredY occ st ->
  alt_ok g agent preferredX preferredY occ (consider_alternative g agent preferredX preferredY occ st c).
Proof.
  intros Hc Hst. unfold consider_alternative.
  destruct (IsValidPosition g c.1 c.2) eqn:Hv; simpl; [|exact Hst].
  destruct (Z.ltb_spec 0 (tile_type g c.1 c.2)); [exact Hst|].
  destruct (occupied_at occ (c.1, c.2)) eqn:Ho; [exact Hst|].
  destruct (Qltb _ _); [|exact Hst].
  split; [discriminate|]. intros _. simpl. destruct c as [cx cy]. auto.
Qed.

Lemma radius_loop_ok (g : Game) agent preferredX preferredY occ radii st :
  (forall r, r ∈ radii -> r <= 3) ->
  alt_ok g agent preferredX preferredY occ st ->
  alt_ok g agent preferredX preferredY occ (radius_loop g agent preferredX preferredY occ radii st).
Proof.
  revert st. induction radii as [|r radii IH]; intros st Hr Hst; simpl; [exact Hst|].
  assert (H' : alt_ok g agent preferredX preferredY occ
    (fold_left (consider_alternative g agent preferredX preferredY occ) (ring preferredX preferredY r) st)).
  { apply fold_left_inv_in; [exact Hst|]. intros st' c Hc Hst'.
    apply consider_alternative_ok; [|exact Hst'].
    apply ring_bounds in Hc. specialize (Hr r ltac:(apply elem_of_cons; by left)).
    left. lia. }
  destruct (found _ && _); [exact H'|]. apply IH; [|exact H'].
  intros r' Hr'. apply Hr. apply elem_of_cons. by right.
Qed.

(** What [FindBestAlternativeMove] returns. *)
Lemma FindBestAlternativeMove_spec (g : Game) (agent : Agent) (preferredX preferredY : Z)
    (occ : gmap (Z * Z) bool) :
  let '(altX, altY, found) := FindBestAlternativeMove g agent preferredX preferredY occ in
  (found = false -> (altX, altY) = (X agent, Y agent)) /\
  (found = true -> IsValidPosition g altX altY = true /\ tile_type g altX altY <= 0 /\
     occupied_at occ (altX, altY) = false /\ alt_near agent preferredX preferredY (altX, altY)).
Proof.
  unfold FindBestAlternativeMove.
  assert (H1 : alt_ok g agent preferredX preferredY occ
    (radius_loop g agent preferredX preferredY occ [1; 2; 3] (mkAlt (X agent) (Y agent) (-999) false))).
  { apply radius_loop_ok; [|split; [intros _; reflexivity|discriminate]].
    intros r Hr. repeat (apply elem_of_cons in Hr as [-> | Hr]; [lia|]). by apply not_elem_of_nil in Hr. }
  set (st := radius_loop _ _ _ _ _ _ _) in *.
  assert (H2 : alt_ok g agent preferredX preferredY occ
    (if negb (found st) || Qle_bool (bestScore st) (-999) then
       fold_left (consider_alternative g agent preferredX preferredY occ)
         (map (fun d => (X agent + d.1, Y agent + d.2)) fallback_directions) st
     else st)).
  { destruct (_ || _); [|exact H1].
    apply fold_left_inv_in; [exact H1|]. intros st' c Hc Hst'.
    apply consider_alternative_ok; [|exact Hst'].
    apply list_elem_of_fmap in Hc as [d [-> Hd]].
    right. simpl. unfold fallback_directions in Hd.
    repeat (apply elem_of_cons in Hd as [-> | Hd]; [simpl; lia|]). by apply not_elem_of_nil in Hd. }
  revert H2. generalize (if negb (found st) || Qle_bool (bestScore st) (-999) then
       fold_left (consider_alternative g agent preferredX preferredY occ)
         (map (fun d => (X agent + d.1, Y agent + d.2)) fallback_directions) st
     else st). intros st' H2. exact H2.
Qed.

(** [FindBestAlternativeMove] outcome (X).  When it reports no alternative
    it returns the agent's own position; when it reports one, the tile is on
    the grid, passable, not marked occupied, and lies within 3 columns and
    3 rows of the preferred position or next to the agent. *)
Theorem FindBestAlternativeMove_outcome (g : Game) (agent : Agent) (preferredX preferredY : Z)
    (occ : gmap (Z * Z) bool) :
  let '(altX, altY, found) := FindBestAlternativeMove g agent preferredX preferredY occ in
  (found = false -> (altX, altY) = (X agent, Y agent)) /\
  (found = true -> IsValidPosition g altX altY = true /\ tile_type g altX altY <= 0 /\
     occupied_at occ (altX, altY) = false /\ alt_near agent preferredX preferredY (altX, altY)).
Proof. apply FindBestAlternativeMove_spec. Qed.

Lemma resolve_loop_outcome (g : Game) actions aps resolved occ res :
  (forall ap, ap ∈ aps -> is_Some (actions !! ap.1)) ->
  (forall id r, resolved !! id = Some r -> resolved_outcome g actions id r) ->
  resolve_loop g actions aps resolved occ = Some res ->
  forall id r, res !! id = Some r -> resolved_outcome g actions id r.
Proof.
  revert resolved occ. induction aps as [|ap aps IH]; intros resolved occ Haps Hres Hl.
  { injection Hl as <-. exact Hres. }
  assert (Hrest : forall ap', ap' ∈ aps -> is_Some (actions !! ap'.1))
    by (intros ap' Hin; apply Haps; by apply elem_of_cons; right).
  destruct (Haps ap ltac:(by apply elem_of_cons; left)) as [action Hact].
  cbn [resolve_loop] in Hl. rewrite Hact in Hl. change (default zeroAction (Some action)) with action in Hl.
  destruct (Agents g !! ap.1) as [agent|] eqn:Hag; [|discriminate].
  assert (Hins : forall r, resolved_outcome g actions ap.1 r ->
            forall id r', <[ap.1 := r]> resolved !! id = Some r' -> resolved_outcome g actions id r').
  { intros r Hr id r' Hl'. apply lookup_insert_Some in Hl' as [[<- <-]|[_ Hl']]; [exact Hr|]. by apply Hres. }
  destruct (negb (occupied_at occ (TargetX action, TargetY action))
            && IsValidPosition g (TargetX action) (TargetY action)
            && (tile_type g (TargetX action) (TargetY action) =? 0)) eqn:Hd.
  - refine (IH _ _ Hrest (Hins action _) Hl).
    exists agent, action. split; [exact Hag|]. split; [exact Hact|]. left.
    apply andb_true_iff in Hd as [Hd Ht]. apply andb_true_iff in Hd as [_ Hv]. apply Z.eqb_eq in Ht. auto.
  - pose proof (FindBestAlternativeMove_spec g agent (TargetX action) (TargetY action) occ) as Halt.
    destruct (FindBestAlternativeMove g agent (TargetX action) (TargetY action) occ)
      as [[altX altY] []] eqn:Hfa.
    + refine (IH _ _ Hrest (Hins _ _) Hl).
      exists agent, action. split; [exact Hag|]. split; [exact Hact|]. right. left.
      destruct Halt as [_ (Hv & Ht & _ & Hn)]; [reflexivity|]. simpl. auto.
    + refine (IH _ _ Hrest (Hins _ _) Hl).
      exists agent, action. split; [exact Hag|]. split; [exact Hact|]. right. right. reflexivity.
Qed.

(** What [resolveMovementCollisions] resolves each id to. *)
Lemma resolveMovementCollisions_spec (g : Game) (actions : gmap Z AgentAction) res :
  resolveMovementCollisions g actions = Some res ->
  forall id r, res !! id = Some r -> resolved_outcome g actions id r.
Proof.
  unfold resolveMovementCollisions. intros Hres.
  apply (resolve_loop_outcome g actions
    (sort_priorities (map (fun kv => (kv.1, Priority kv.2)) (map_to_list actions))) ∅ (initial_occupied g));
    [| |exact Hres].
  - intros ap Hap. exact (agent_priorities_in actions ap Hap).
  - intros id r Hr. by rewrite lookup_empty in Hr.
Qed.

(** [resolveMovementCollisions] never sends an agent onto cover (X).  Each
    action it resolves for an agent id is one of three: the agent's own
    action, kept when its target is a free on-grid tile of type 0; a MOVE at
    the same priority to a passable on-grid tile within 3 of that target or
    next to the agent; or the stay-put MOVE to the agent's own position at
    the default priority. *)
Theorem resolveMovementCollisions_outcomes (g : Game) (actions : gmap Z AgentAction) res :
  resolveMovementCollisions g actions = Some res ->
  forall id r, res !! id = Some r -> resolved_outcome g actions id r.
Proof. apply resolveMovementCollisions_spec. Qed.

(** The ids [resolve_loop] resolves, whenever it returns. *)
Lemma resolve_loop_dom (g : Game) actions aps resolved occ res :
  resolve_loop g actions aps resolved occ = Some res ->
  dom res = dom resolved ∪ list_to_set aps.*1.
Proof.
  revert resolved occ. induction aps as [|ap aps IH]; intros resolved occ Hl.
  { injection Hl as <-. clear. set_solver. }
  destruct (Agents g !! ap.1) as [agent|] eqn:Hag; [|cbn [resolve_loop] in Hl; by rewrite Hag in Hl].
  destruct (resolve_loop_cons g actions ap aps resolved occ agent Hag) as (a & occ' & Heq & _).
  rewrite Heq in Hl. rewrite (IH _ _ Hl), dom_insert_L.
  clear. rewrite fmap_cons. simpl. set_solver.
Qed.

Lemma resolveMovementCollisions_dom (g : Game) (actions : gmap Z AgentAction) res :
  resolveMovementCollisions g actions = Some res -> dom res = dom actions.
Proof.
  unfold resolveMovementCollisions. intros Hres.
  rewrite (resolve_loop_dom _ _ _ _ _ _ Hres), dom_empty_L, (left_id_L ∅ union).
  rewrite (agent_priorities_ids actions).
  apply leibniz_equiv. by rewrite dom_alt.
Qed.

Lemma last_move_is_move (acts : list AgentAction) (m : AgentAction) :
  last_move acts = Some m -> is_move m = true.
Proof.
  unfold last_move.
  assert (H : forall acc, (forall m', acc = Some m' -> is_move m' = true) ->
            forall m', fold_left (fun acc a => if is_move a then Some a else acc) acts acc = Some m' ->
            is_move m' = true).
  { induction acts as [|a acts IH]; intros acc Hacc; simpl; [exact Hacc|].
    apply IH. destruct (is_move a) eqn:Ha; [intros m' [= <-]; exact Ha|exact Hacc]. }
  apply H. discriminate.
Qed.

(** [resolveActionConflicts] bundles (X).  When it returns, it gives one
    action list per agent id of its input and no other.  An agent's list is
    its non-MOVE actions, all of them, in non-increasing priority order;
    when the agent had a MOVE, the list is headed by one resolved MOVE,
    the agent's last MOVE or the resolver's replacement for it. *)
Theorem resolveActionConflicts_bundles (g : Game) (allActions : gmap Z (list AgentAction)) out :
  resolveActionConflicts g allActions = Some out ->
  dom out = dom allActions /\
  forall id acts, allActions !! id = Some acts ->
    exists rest,
      rest ≡ₚ filter (fun a => negb (is_move a)) acts /\
      (forall p q a b, (p < q)%nat -> rest !! p = Some a -> rest !! q = Some b -> Priority b <= Priority a) /\
      ((last_move acts = None /\ out !! id = Some rest) \/
       (exists m r, last_move acts = Some m /\ out !! id = Some (r :: rest) /\ AType r = ActionMove /\
          resolved_outcome g (omap last_move allActions) id r)).
Proof.
  unfold resolveActionConflicts.
  destruct (resolveMovementCollisions g (omap last_move allActions)) as [resolvedMoves|] eqn:Hrm;
    [|discriminate].
  intros [= <-].
  pose proof (resolveMovementCollisions_dom _ _ _ Hrm) as Hdom.
  split.
  { apply set_eq. intros id. rewrite !elem_of_dom, map_lookup_imap, lookup_fmap.
    destruct (allActions !! id); simpl; split; intros H; try done. }
  intros id acts Hacts.
  set (rest := exchange_sort priority_lt (filter (fun a => negb (is_move a)) acts)).
  exists rest. split; [apply exchange_sort_perm|]. split.
  { intros p q a b Hpq Ha Hb.
    pose proof (exchange_sort_sorted priority_lt priority_lt_asym priority_lt_noswap_trans _ p q a b Hpq Ha Hb) as H.
    unfold priority_lt in H. apply Z.ltb_ge in H. exact H. }
  rewrite map_lookup_imap, lookup_fmap, Hacts. simpl.
  assert (Hmv : omap last_move allActions !! id = last_move acts) by (by rewrite lookup_omap, Hacts).
  destruct (last_move acts) as [m|] eqn:Hlm.
  - right. assert (Hin : id ∈ dom resolvedMoves).
    { rewrite Hdom. apply elem_of_dom. rewrite Hmv. by exists m. }
    apply elem_of_dom in Hin as [r Hr]. rewrite Hr.
    exists m, r. split; [reflexivity|]. split; [reflexivity|].
    pose proof (resolveMovementCollisions_spec g _ _ Hrm id r Hr) as Ho. split; [|exact Ho].
    destruct Ho as (agent & action & _ & Hact & [[-> _]|[[Hty _]| -> ]]); [|exact Hty|reflexivity].
    rewrite Hmv in Hact. injection Hact as <-. apply last_move_is_move in Hlm.
    unfold is_move in Hlm. by destruct (AType m).
  - left. split; [reflexivity|].
    assert (Hnot : resolvedMoves !! id = None).
    { apply not_elem_of_dom. rewrite Hdom. apply not_elem_of_dom. exact Hmv. }
    by rewrite Hnot.
Qed.

(** On the corridor the resolver returns, and B's stay-put move is one of the outcomes. *)
Lemma resolveMovementCollisions_outcomes_witness :
  exists res, resolveMovementCollisions game_corridor moves_corridor = Some res /\
    forall id r, res !! id = Some r -> resolved_outcome game_corridor moves_corridor id r.
Proof.
  destruct (resolveMovementCollisions game_corridor moves_corridor) as [res|] eqn:E;
    [|vm_compute in E; discriminate].
  exists res. split; [reflexivity|]. exact (resolveMovementCollisions_outcomes _ _ res E).
Defined.

(** On the corridor with agent 1 also hunkering, one bundle per agent. *)
Lemma resolveActionConflicts_bundles_witness :
  exists out, resolveActionConflicts game_corridor bundles_corridor = Some out /\ dom out = {[1; 2; 3]}.
Proof.
  destruct (resolveActionConflicts game_corridor bundles_corridor) as [out|] eqn:E;
    [|vm_compute in E; discriminate].
  exists out. split; [reflexivity|].
  rewrite (proj1 (resolveActionConflicts_bundles _ _ out E)). unfold bundles_corridor.
  rewrite !dom_insert_L, dom_empty_L. set_solver.
Defined.

(** ** The team strategy *)

Lemma UpdateTeamState_with_not_defense (s : TeamCoordinationStrategy) teamHealth territoryScore
    enemyCount turnNumber myAgentCount :
  CurrentTeamState s <> TeamStateDefense ->
  CurrentTeamState (UpdateTeamState_with s teamHealth territoryScore enemyCount turnNumber myAgentCount)
    <> TeamStateDefense.
Proof.
  intros Hs. unfold UpdateTeamState_with. simpl.
  destruct (StateTimer s + 1 <? MinStateTime (Config s)); [exact Hs|].
  destruct (CurrentTeamState s); [| |contradiction|];
    repeat match goal with |- context [if ?c then _ else _] => destruct c end; simpl; discriminate.
Qed.

(** The team never enters the defense state (X).  [UpdateTeamState] has no
    transition into [TeamStateDefense], and a strategy starts in
    [TeamStateCombat]; so over any sequence of turns the team state is
    never [TeamStateDefense], and the defense behaviour tree is never
    selected. *)
Theorem team_never_defends (games : nat -> Game) (n : nat) :
  CurrentTeamState (team_run NewTeamCoordinationStrategy games n) <> TeamStateDefense.
Proof.
  induction n as [|n IH]; simpl; [discriminate|].
  unfold UpdateTeamState. by apply UpdateTeamState_with_not_defense.
Qed.

Lemma wetness_sum_bounds (l : list Agent) (t : Z) :
  Forall (fun a => 0 <= Wetness a <= 100) l ->
  t <= fold_left (fun t (a : Agent) => t + Wetness a) l t <= t + 100 * Z.of_nat (length l).
Proof.
  revert t. induction l as [|a l IH]; intros t Hall; simpl; [lia|].
  apply Forall_cons in Hall as [Ha Hall]. specialize (IH (t + Wetness a) Hall). lia.
Qed.

(** [GetTeamHealth] is a percentage (X).  When every friendly agent's
    wetness is between 0 and 100, the team health, 100 minus the average
    wetness of the friendly agents (0 when there is none), is between 0 and
    100. *)
Theorem GetTeamHealth_bounds (g : Game) :
  Forall (fun a => 0 <= Wetness a <= 100) (my_agents g) ->
  (0 <= GetTeamHealth g <= 100)%Q.
Proof.
  intros Hall. unfold GetTeamHealth.
  destruct (my_agents g) as [|a0 rest] eqn:Hm.
  { split; [apply Qle_refl|]. unfold Qle. simpl. lia. }
  set (agents := a0 :: rest) in *.
  pose proof (wetness_sum_bounds agents 0 Hall) as [Hlo Hhi].
  set (T := fold_left _ agents 0) in *.
  set (n := Z.of_nat (length agents)) in *.
  assert (Hn : 0 < n) by (unfold n, agents; simpl; lia).
  assert (HnQ : (0 < inject_Z n)%Q) by (rewrite Zlt_Qlt in Hn; exact Hn).
  assert (Hx0 : (0 <= inject_Z T / inject_Z n)%Q).
  { apply Qle_shift_div_l; [exact HnQ|]. rewrite Qmult_0_l.
    change 0%Q with (inject_Z 0). rewrite <- Zle_Qle. lia. }
  assert (Hx1 : (inject_Z T / inject_Z n <= 100)%Q).
  { apply Qle_shift_div_r; [exact HnQ|].
    change 100%Q with (inject_Z 100). rewrite <- inject_Z_mult, <- Zle_Qle. lia. }
  change (inject_Z 100) with 100%Q.
  split.
  - apply Qle_minus_iff in Hx1. exact Hx1.
  - apply Qle_minus_iff. unfold Qminus.
    rewrite Qopp_plus, Qopp_opp, Qplus_assoc, Qplus_opp_r, Qplus_0_l.
    exact Hx0.
Qed.

(** The lone friendly agent at wetness 90: the team health is 10. *)
Lemma GetTeamHealth_bounds_witness :
  (0 <= GetTeamHealth game_outnumbered <= 100)%Q.
Proof.
  apply GetTeamHealth_bounds.
  assert (Hm : my_agents game_outnumbered = [lone_friend]) by (vm_compute; reflexivity).
  rewrite Hm. constructor; [simpl; lia|constructor].
Defined.

(** ** Turn input *)

Section ReadTurnInput.

Variable g : Game.

Lemma last_input_snoc (id : Z) (l : list AgentInput) (e : AgentInput) :
  last_input id (l ++ [e]) = if inAgentId e =? id then Some e else last_input id l.
Proof. unfold last_input. by rewrite fold_left_app. Qed.

Lemma last_input_some (id : Z) (l : list AgentInput) (e : AgentInput) :
  last_input id l = Some e -> e ∈ l /\ inAgentId e = id.
Proof.
  induction l as [|e' l IH] using rev_ind; [discriminate|].
  rewrite last_input_snoc. destruct (Z.eqb_spec (inAgentId e') id) as [He|He].
  - intros [= <-]. split; [apply elem_of_app; right; by apply list_elem_of_singleton|exact He].
  - intros Hl. destruct (IH Hl) as [Hin Hid]. split; [apply elem_of_app; by left|exact Hid].
Qed.

Lemma last_input_none (id : Z) (l : list AgentInput) (e : AgentInput) :
  e ∈ l -> inAgentId e = id -> last_input id l <> None.
Proof.
  induction l as [|e' l IH] using rev_ind; [intros He; by apply not_elem_of_nil in He|].
  intros He Hid. rewrite last_input_snoc. destruct (Z.eqb_spec (inAgentId e') id); [discriminate|].
  apply elem_of_app in He as [He|He]; [by apply IH|].
  apply list_elem_of_singleton in He. subst. contradiction.
Qed.

Lemma readTurnInput_fold_agents (entries : list AgentInput) cur mine (id : Z) :
  (fold_left (read_agent_line g) entries (cur, mine)).1 !! id =
    match last_input id entries, Agents g !! id with
    | Some e, Some a => Some (update_dynamic a e)
    | _, _ => cur !! id
    end.
Proof.
  induction entries as [|e l IH] using rev_ind; [reflexivity|].
  rewrite fold_left_app, last_input_snoc. simpl.
  destruct (fold_left (read_agent_line g) l (cur, mine)) as [cur' mine'] eqn:Hf. simpl in IH.
  unfold read_agent_line. destruct (Agents g !! inAgentId e) as [ex|] eqn:Hex.
  - simpl. destruct (Z.eqb_spec (inAgentId e) id) as [<- | Hne].
    + rewrite lookup_insert_eq, Hex. reflexivity.
    + rewrite lookup_insert_ne by exact Hne. exact IH.
  - simpl. destruct (Z.eqb_spec (inAgentId e) id) as [<- | Hne]; [|exact IH].
    rewrite IH, Hex. by destruct (last_input _ l).
Qed.

Lemma readTurnInput_fold_mine (entries : list AgentInput) cur mine :
  (fold_left (read_agent_line g) entries (cur, mine)).2 = mine ++ omap (friendly_id g) entries.
Proof.
  induction entries as [|e l IH] using rev_ind; [by rewrite app_nil_r|].
  rewrite fold_left_app, omap_app. simpl.
  destruct (fold_left (read_agent_line g) l (cur, mine)) as [cur' mine'] eqn:Hf. simpl in IH. subst mine'.
  unfold read_agent_line, friendly_id. destruct (Agents g !! inAgentId e) as [ex|]; simpl; [|by rewrite app_nil_r].
  destruct (Player ex =? MyID g); simpl; [by rewrite app_assoc|by rewrite app_nil_r].
Qed.

Lemma readTurnInput_agents_spec (entries : list AgentInput) (id : Z) :
  Agents (readTurnInput g entries) !! id =
    match last_input id entries, Agents g !! id with
    | Some e, Some a => Some (update_dynamic a e)
    | _, _ => None
    end.
Proof.
  unfold readTurnInput.
  pose proof (readTurnInput_fold_agents entries ∅ [] id) as H.
  destruct (fold_left (read_agent_line g) entries (∅, [])) as [cur mine]. simpl in *. rewrite H.
  destruct (last_input id entries), (Agents g !! id); reflexivity.
Qed.

Lemma readTurnInput_mine_spec (entries : list AgentInput) :
  MyAgents (readTurnInput g entries) = omap (friendly_id g) entries.
Proof.
  unfold readTurnInput.
  pose proof (readTurnInput_fold_mine entries ∅ []) as H.
  destruct (fold_left (read_agent_line g) entries (∅, [])) as [cur mine]. simpl in *. exact H.
Qed.

Lemma readTurnInput_MyID (entries : list AgentInput) : MyID (readTurnInput g entries) = MyID g.
Proof. unfold readTurnInput. by destruct (fold_left _ entries (∅, [])). Qed.

(** [readTurnInput] rebuilds the registry (X).  After the agent lines of a
    turn, the registry holds an agent under an id exactly when some line
    has that id and the previous registry had an agent under it; the
    agent keeps its static properties and takes the dynamic ones
    (position, cooldown, bombs, wetness) of the last such line.  Agents
    missing from the lines are dropped, and lines with unknown ids are
    ignored. *)
Theorem readTurnInput_agents (entries : list AgentInput) (id : Z) :
  Agents (readTurnInput g entries) !! id =
    match last_input id entries, Agents g !! id with
    | Some e, Some a => Some (update_dynamic a e)
    | _, _ => None
    end.
Proof. apply readTurnInput_agents_spec. Qed.

(** [readTurnInput] keeps the registry well formed (X).  If every entry of
    the previous registry is stored under its own id, then so is every
    entry of the new one; every id of the new [MyAgents] names an entry of
    the new registry with that id and of the bot's player; and every agent
    of the bot's player in the new registry is listed in [MyAgents]. *)
Theorem readTurnInput_wf (entries : list AgentInput) :
  registry_keyed g ->
  let r := readTurnInput g entries in
  registry_keyed r /\ snapshot_wf r /\
  (forall id, id ∈ MyAgents r -> exists a, Agents r !! id = Some a /\ Player a = MyID r) /\
  (forall id a, Agents r !! id = Some a -> Player a = MyID r -> id ∈ MyAgents r).
Proof.
  intros Hkey r.
  assert (Hk : registry_keyed r).
  { intros id a' Ha'. unfold r in Ha'. rewrite readTurnInput_agents_spec in Ha'.
    destruct (last_input id entries) as [e|], (Agents g !! id) as [a|] eqn:Ha; try discriminate.
    injection Ha' as <-. simpl. exact (Hkey _ _ Ha). }
  assert (Hmine : forall id, id ∈ MyAgents r ->
            exists a, Agents r !! id = Some a /\ Player a = MyID r).
  { intros id Hid. unfold r in *. rewrite readTurnInput_mine_spec in Hid.
    apply list_elem_of_omap in Hid as [e [He Hf]]. unfold friendly_id in Hf.
    destruct (Agents g !! inAgentId e) as [a|] eqn:Ha; [|discriminate].
    destruct (Z.eqb_spec (Player a) (MyID g)) as [Hp|]; [|discriminate]. injection Hf as <-.
    rewrite readTurnInput_agents_spec, Ha.
    destruct (last_input (inAgentId e) entries) as [e'|] eqn:Hl;
      [|exfalso; exact (last_input_none _ _ e He eq_refl Hl)].
    exists (update_dynamic a e'). split; [reflexivity|rewrite readTurnInput_MyID; exact Hp]. }
  split; [exact Hk|]. split.
  { intros id Hid. destruct (Hmine id Hid) as [a [Ha _]]. exists a. split; [exact Ha|exact (Hk _ _ Ha)]. }
  split; [exact Hmine|].
  intros id a' Ha' Hp. unfold r in *. rewrite readTurnInput_mine_spec.
  rewrite readTurnInput_agents_spec in Ha'.
  destruct (last_input id entries) as [e|] eqn:Hl, (Agents g !! id) as [a|] eqn:Ha; try discriminate.
  injection Ha' as <-. destruct (last_input_some _ _ _ Hl) as [He Hid].
  apply list_elem_of_omap. exists e. split; [exact He|]. unfold friendly_id.
  rewrite Hid, Ha. simpl in Hp. rewrite readTurnInput_MyID in Hp. rewrite Hp, Z.eqb_refl. reflexivity.
Qed.

End ReadTurnInput.

Lemma game_twins_keyed : registry_keyed game_twins.
Proof.
  intros id a Ha. unfold game_twins in Ha. simpl in Ha.
  rewrite !lookup_insert_Some, lookup_empty in Ha.
  destruct Ha as [[<- <-]|[_ [[<- <-]|[_ [[<- <-]|[_ Ha]]]]]]; [reflexivity|reflexivity|reflexivity|discriminate].
Qed.

(** The twins' turn: the registry stays keyed and [MyAgents] is [1]. *)
Lemma readTurnInput_wf_witness :
  registry_keyed (readTurnInput game_twins twins_input) /\
  snapshot_wf (readTurnInput game_twins twins_input) /\
  MyAgents (readTurnInput game_twins twins_input) = [1].
Proof.
  destruct (readTurnInput_wf game_twins twins_input game_twins_keyed) as (Hk & Hwf & _ & _).
  split; [exact Hk|]. split; [exact Hwf|]. vm_compute. reflexivity.
Defined.

(** ** Least-protected target *)

Lemma Qltb_true (a b : Q) : Qltb a b = true <-> (a < b)%Q.
Proof.
  unfold Qltb. rewrite negb_true_iff. split.
  - intros H. apply Qnot_le_lt. intros Hle. apply Qle_bool_iff in Hle. congruence.
  - intros H. destruct (Qle_bool b a) eqn:Hb; [|reflexivity].
    apply Qle_bool_iff in Hb. exfalso. apply (Qlt_not_le _ _ H Hb).
Qed.

Lemma CalculateCoverProtection_cases (g : Game) (sx sy tx ty : Z) :
  CalculateCoverProtection g sx sy tx ty = 0%Q \/ CalculateCoverProtection g sx sy tx ty = (1 # 2)%Q \/
  CalculateCoverProtection g sx sy tx ty = (3 # 4)%Q.
Proof.
  unfold CalculateCoverProtection.
  destruct (GetMaxAdjacentCover g tx ty) as [|[p|p|]|p]; auto.
  destruct p; auto.
Qed.

Lemma lpe_score_above (g : Game) (agent e : Agent) :
  shot_distance agent e <= OptimalRange agent -> (-999 < lpe_score g agent e)%Q.
Proof.
  intros Hd. unfold lpe_score.
  assert (Hq : (inject_Z (shot_distance agent e) <= inject_Z (OptimalRange agent))%Q)
    by (rewrite <- Zle_Qle; exact Hd).
  destruct (CalculateCoverProtection_cases g (X agent) (Y agent) (X e) (Y e)) as [-> |[-> | -> ]]; lra.
Qed.

Lemma lpe_beats_trans (g : Game) (agent a b c : Agent) :
  lpe_beats g agent a b -> lpe_beats g agent b c -> lpe_beats g agent a c.
Proof.
  unfold lpe_beats. intros Hab Hbc.
  destruct Hab as [H1|[[H1 H2]|[H1 [H2 H3]]]]; destruct Hbc as [H4|[[H4 H5]|[H4 [H5 H6]]]];
    first [left; lra | right; left; split; [lra|lia] | right; right; split; [lra|split; lia]].
Qed.

Lemma lpe_beats_asym (g : Game) (agent a b : Agent) :
  lpe_beats g agent a b -> lpe_beats g agent b a -> False.
Proof.
  unfold lpe_beats. intros Hab Hba.
  destruct Hab as [H1|[[H1 H2]|[H1 [H2 H3]]]]; destruct Hba as [H4|[[H4 H5]|[H4 [H5 H6]]]];
    first [lra | lia].
Qed.

Lemma lpe_beats_total (g : Game) (agent a b : Agent) :
  ID a <> ID b -> lpe_beats g agent a b \/ lpe_beats g agent b a.
Proof.
  intros Hid. unfold lpe_beats.
  destruct (Q_dec (lpe_score g agent a) (lpe_score g agent b)) as [[Hlt|Hlt]|Heq].
  - right. left. exact Hlt.
  - left. left. exact Hlt.
  - destruct (Z.lt_trichotomy (shot_distance agent a) (shot_distance agent b)) as [Hd|[Hd|Hd]].
    + left. right. left. split; [lra|exact Hd].
    + destruct (Z.lt_trichotomy (ID a) (ID b)) as [Hi|[Hi|Hi]]; [|contradiction|].
      * left. right. right. split; [lra|]. split; [exact Hd|exact Hi].
      * right. right. right. split; [lra|]. split; [lia|exact Hi].
    + right. right. left. split; [lra|exact Hd].
Qed.

Lemma range_Agents_ids (g : Game) (a b : Agent) :
  registry_keyed g -> a ∈ range_Agents g -> b ∈ range_Agents g -> ID a = ID b -> a = b.
Proof.
  intros Hkey Ha Hb Hid. unfold range_Agents in Ha, Hb.
  apply list_elem_of_fmap in Ha as [[ka a'] [Ha' Hka]]. apply list_elem_of_fmap in Hb as [[kb b'] [Hb' Hkb]].
  simpl in Ha', Hb'. subst a' b'.
  apply elem_of_map_to_list in Hka, Hkb.
  pose proof (Hkey _ _ Hka) as Hia. pose proof (Hkey _ _ Hkb) as Hib.
  assert (ka = kb) as -> by lia. congruence.
Qed.

Section LeastProtected.

Variables (g : Game) (agent : Agent).
Hypothesis Hkey : registry_keyed g.

Lemma lpe_acc_ok_step (seen : list Agent) acc (e : Agent) :
  (forall x, x ∈ seen ++ [e] -> x ∈ range_Agents g) ->
  lpe_acc_ok g agent seen acc ->
  lpe_acc_ok g agent (seen ++ [e])
    (match acc with
     | None => None
     | Some (bestTarget, bestScore, bestDistance) =>
         if negb (Player e =? MyID g) && (Wetness e <? 100) then
           let distance := manhattan (X agent) (Y agent) (X e) (Y e) in
           if OptimalRange agent <? distance then acc
           else
             let protection := CalculateCoverProtection g (X agent) (Y agent) (X e) (Y e) in
             let distanceScore := (inject_Z (OptimalRange agent) - inject_Z distance)%Q in
             let protectionScore := ((1 - protection) * 30)%Q in
             let combinedScore := (distanceScore + protectionScore)%Q in
             if Qltb bestScore combinedScore
                || (Qeq_bool combinedScore bestScore && (distance <? bestDistance)) then
               Some (Some e, combinedScore, distance)
             else if Qeq_bool combinedScore bestScore && (distance =? bestDistance) then
               match bestTarget with
               | None => None
               | Some b => if ID e <? ID b then Some (Some e, combinedScore, distance) else acc
               end
             else acc
         else acc
     end).
Proof.
  intros Hrange Hacc.
  assert (Hin : forall x, x ∈ seen ++ [e] -> x ∈ seen \/ x = e)
    by (intros x Hx; apply elem_of_app in Hx as [Hx|Hx]; [by left|right; by apply list_elem_of_singleton]).
  assert (Hseen : forall x, x ∈ seen -> x ∈ seen ++ [e]) by (intros x Hx; apply elem_of_app; by left).
  assert (He : e ∈ seen ++ [e]) by (apply elem_of_app; right; by apply list_elem_of_singleton).
  destruct acc as [[[bt bs] bd]|]; [|contradiction].
  (* the accumulator unchanged, when [e] is no candidate or ranks below *)
  assert (Hkeep : (lpe_candidate g agent e -> match bt with Some t => e = t \/ lpe_beats g agent t e | None => False end) ->
                  lpe_acc_ok g agent (seen ++ [e]) (Some (bt, bs, bd))).
  { intros Hc. destruct bt as [t|]; simpl in Hacc |- *.
    - destruct Hacc as (Ht & Hct & Hs & Hd & Hall). split; [by apply Hseen|]. do 3 (split; [assumption|]).
      intros x Hx Hcx. destruct (Hin x Hx) as [Hx' | -> ]; [by apply Hall|by apply Hc].
    - destruct Hacc as (Hs & Hd & Hall). split; [exact Hs|]. split; [exact Hd|].
      intros x Hx Hcx. destruct (Hin x Hx) as [Hx' | -> ]; [exact (Hall x Hx' Hcx)|exact (Hc Hcx)]. }
  (* [e] becomes the best, when it ranks above the current best *)
  assert (Hnew : lpe_candidate g agent e ->
                 match bt with Some t => lpe_beats g agent e t | None => True end ->
                 lpe_acc_ok g agent (seen ++ [e]) (Some (Some e, lpe_score g agent e, shot_distance agent e))).
  { intros Hce Hbeat. split; [exact He|]. split; [exact Hce|]. split; [apply Qeq_refl|]. split; [reflexivity|].
    intros x Hx Hcx. destruct (Hin x Hx) as [Hx' | -> ]; [|by left].
    right. destruct bt as [t|]; simpl in Hacc.
    - destruct Hacc as (_ & _ & _ & _ & Hall). destruct (Hall x Hx' Hcx) as [ -> |Hb]; [exact Hbeat|].
      exact (lpe_beats_trans g agent e t x Hbeat Hb).
    - destruct Hacc as (_ & _ & Hall). by destruct (Hall x Hx' Hcx). }
  destruct (negb (Player e =? MyID g) && (Wetness e <? 100)) eqn:Hl;
    [|apply Hkeep; intros [Hl' _]; unfold is_live_enemy in Hl'; congruence].
  cbv zeta.
  destruct (Z.ltb_spec (OptimalRange agent) (manhattan (X agent) (Y agent) (X e) (Y e))) as [Hfar|Hnear].
  { apply Hkeep. intros [_ Hd]. unfold shot_distance in Hd. lia. }
  assert (Hce : lpe_candidate g agent e) by (split; [exact Hl|exact Hnear]).
  change (inject_Z (OptimalRange agent) - inject_Z (manhattan (X agent) (Y agent) (X e) (Y e))
          + (1 - CalculateCoverProtection g (X agent) (Y agent) (X e) (Y e)) * 30)%Q
    with (lpe_score g agent e).
  change (manhattan (X agent) (Y agent) (X e) (Y e)) with (shot_distance agent e) in *.
  pose proof (lpe_score_above g agent e Hnear) as Habove.
  (* what the accumulator says about the current best *)
  assert (Hbest : match bt with
                  | Some t => (bs == lpe_score g agent t)%Q /\ bd = shot_distance agent t /\ t ∈ range_Agents g
                  | None => bs = (-999)%Q end).
  { destruct bt as [t|]; simpl in Hacc.
    - destruct Hacc as (Ht & _ & Hs & Hd & _). split; [exact Hs|]. split; [exact Hd|]. by apply Hrange, Hseen.
    - by destruct Hacc as (Hs & _). }
  destruct (Qltb bs (lpe_score g agent e) || (Qeq_bool (lpe_score g agent e) bs && (shot_distance agent e <? bd)))
    eqn:H1.
  { apply Hnew; [exact Hce|]. destruct bt as [t|]; [|exact I].
    destruct Hbest as (Hs & Hd & _).
    apply orb_true_iff in H1 as [H1|H1].
    - apply Qltb_true in H1. left. lra.
    - apply andb_true_iff in H1 as [H1 H2]. apply Qeq_bool_iff in H1. apply Z.ltb_lt in H2.
      right. left. split; [lra|lia]. }
  apply orb_false_iff in H1 as [H1a H1b].
  assert (Hle : (lpe_score g agent e <= bs)%Q).
  { apply Qnot_lt_le. intros Hlt. apply Qltb_true in Hlt. congruence. }
  destruct bt as [t|].
  2:{ exfalso. rewrite Hbest in Hle. lra. }
  destruct Hbest as (Hs & Hd & Ht).
  destruct (Qeq_bool (lpe_score g agent e) bs && (shot_distance agent e =? bd)) eqn:H2.
  - apply andb_true_iff in H2 as [H2a H2b]. apply Qeq_bool_iff in H2a. apply Z.eqb_eq in H2b.
    destruct (Z.ltb_spec (ID e) (ID t)) as [Hid|Hid].
    + apply Hnew; [exact Hce|]. right. right. split; [lra|]. split; [lia|exact Hid].
    + apply Hkeep. intros _.
      destruct (Z.eq_dec (ID e) (ID t)) as [Heq|Hne].
      * left. apply (range_Agents_ids g e t Hkey); [by apply Hrange|exact Ht|exact Heq].
      * right. right. right. split; [lra|]. split; [lia|lia].
  - apply Hkeep. intros _. right.
    apply Qle_lteq in Hle as [Hlt|Heq]; [left; lra|].
    right. left. split; [lra|].
    rewrite Heq, Qeq_bool_refl in H1b, H2. simpl in H1b, H2.
    apply Z.ltb_ge in H1b. apply Z.eqb_neq in H2. lia.
Qed.

End LeastProtected.

Lemma FindLeastProtectedEnemy_spec (g : Game) (visit : list Agent) (agent : Agent) :
  visit_order g visit -> registry_keyed g ->
  exists r, FindLeastProtectedEnemy g visit agent = Some r /\
    match r with
    | None => forall e, e ∈ range_Agents g -> ~ lpe_candidate g agent e
    | Some t => t ∈ range_Agents g /\ lpe_candidate g agent t /\
        forall e, e ∈ range_Agents g -> lpe_candidate g agent e -> e = t \/ lpe_beats g agent t e
    end.
Proof.
  intros Hperm Hkey.
  assert (Hmem : forall e, e ∈ range_Agents g -> e ∈ visit)
    by (intros e He; apply list_elem_of_In; apply list_elem_of_In in He;
        eapply Permutation_in; [symmetry; exact Hperm|exact He]).
  assert (Hmem' : forall e, e ∈ visit -> e ∈ range_Agents g)
    by (intros e He; apply list_elem_of_In; apply list_elem_of_In in He;
        eapply Permutation_in; [exact Hperm|exact He]).
  assert (Hgen : forall l seen acc, (forall x, x ∈ seen ++ l -> x ∈ range_Agents g) ->
    lpe_acc_ok g agent seen acc ->
    lpe_acc_ok g agent (seen ++ l)
      (fold_left (fun (acc : option (option Agent * Q * Z)) (enemy : Agent) =>
          match acc with
          | None => None
          | Some (bestTarget, bestScore, bestDistance) =>
              if negb (Player enemy =? MyID g) && (Wetness enemy <? 100) then
                let distance := manhattan (X agent) (Y agent) (X enemy) (Y enemy) in
                if OptimalRange agent <? distance then acc
                else
                  let protection := CalculateCoverProtection g (X agent) (Y agent) (X enemy) (Y enemy) in
                  let distanceScore := (inject_Z (OptimalRange agent) - inject_Z distance)%Q in
                  let protectionScore := ((1 - protection) * 30)%Q in
                  let combinedScore := (distanceScore + protectionScore)%Q in
                  if Qltb bestScore combinedScore
                     || (Qeq_bool combinedScore bestScore && (distance <? bestDistance)) then
                    Some (Some enemy, combinedScore, distance)
                  else if Qeq_bool combinedScore bestScore && (distance =? bestDistance) then
                    match bestTarget with
                    | None => None
                    | Some b => if ID enemy <? ID b then Some (Some enemy, combinedScore, distance) else acc
                    end
                  else acc
              else acc
          end) l acc)).
  { induction l as [|e l IH]; intros seen acc Hr Hacc; simpl; [by rewrite app_nil_r|].
    replace (seen ++ e :: l) with ((seen ++ [e]) ++ l) in * by (rewrite <- app_assoc; reflexivity).
    apply IH; [exact Hr|].
    apply lpe_acc_ok_step; [exact Hkey| |exact Hacc].
    intros x Hx. apply Hr. apply elem_of_app. by left. }
  assert (H0 : lpe_acc_ok g agent [] (Some (None, (-999)%Q, 999))).
  { split; [reflexivity|]. split; [reflexivity|]. intros e He. by apply not_elem_of_nil in He. }
  specialize (Hgen visit [] _ ltac:(intros x Hx; by apply Hmem') H0). simpl in Hgen.
  unfold FindLeastProtectedEnemy.
  destruct (fold_left _ visit _) as [[[bt bs] bd]|]; [|contradiction].
  exists bt. split; [reflexivity|]. destruct bt as [t|].
  - destruct Hgen as (Ht & Hct & _ & _ & Hall). split; [by apply Hmem'|]. split; [exact Hct|].
    intros e He Hce. exact (Hall e (Hmem e He) Hce).
  - destruct Hgen as (_ & _ & Hall). intros e He. exact (Hall e (Hmem e He)).
Qed.

(** [FindLeastProtectedEnemy] never dereferences a nil target (X).  On any
    registry and in any visiting order, its tie-break never reads
    [bestTarget.ID] while [bestTarget] is nil: every enemy it scores has a
    combined score of at least 7.5, above the initial -999, so the first
    one always replaces the empty best by the first disjunct. *)
Theorem FindLeastProtectedEnemy_never_panics (g : Game) (visit : list Agent) (agent : Agent) :
  FindLeastProtectedEnemy g visit agent <> None.
Proof.
  unfold FindLeastProtectedEnemy.
  assert (Hgen : forall l acc,
    (acc = Some (None, (-999)%Q, 999) \/ exists t bs bd, acc = Some (Some t, bs, bd)) ->
    exists r, fold_left (fun (acc : option (option Agent * Q * Z)) (enemy : Agent) =>
          match acc with
          | None => None
          | Some (bestTarget, bestScore, bestDistance) =>
              if negb (Player enemy =? MyID g) && (Wetness enemy <? 100) then
                let distance := manhattan (X agent) (Y agent) (X enemy) (Y enemy) in
                if OptimalRange agent <? distance then acc
                else
                  let protection := CalculateCoverProtection g (X agent) (Y agent) (X enemy) (Y enemy) in
                  let distanceScore := (inject_Z (OptimalRange agent) - inject_Z distance)%Q in
                  let protectionScore := ((1 - protection) * 30)%Q in
                  let combinedScore := (distanceScore + protectionScore)%Q in
                  if Qltb bestScore combinedScore
                     || (Qeq_bool combinedScore bestScore && (distance <? bestDistance)) then
                    Some (Some enemy, combinedScore, distance)
                  else if Qeq_bool combinedScore bestScore && (distance =? bestDistance) then
                    match bestTarget with
                    | None => None
                    | Some b => if ID enemy <? ID b then Some (Some enemy, combinedScore, distance) else acc
                    end
                  else acc
              else acc
          end) l acc = Some r).
  { induction l as [|e l IH]; intros acc Hacc; simpl.
    { destruct Hacc as [ -> |(t & bs & bd & -> )]; eexists; reflexivity. }
    apply IH.
    destruct Hacc as [ -> |(t & bs & bd & -> )].
    - destruct (negb (Player e =? MyID g) && (Wetness e <? 100)); [|by left].
      cbv zeta. destruct (Z.ltb_spec (OptimalRange agent) (manhattan (X agent) (Y agent) (X e) (Y e)))
        as [_|Hnear]; [by left|].
      pose proof (lpe_score_above g agent e Hnear) as Habove.
      assert (Hlt : Qltb (-999) (lpe_score g agent e) = true) by (apply Qltb_true; exact Habove).
      unfold lpe_score, shot_distance in Hlt. rewrite Hlt. simpl. right. eauto.
    - right. destruct (negb (Player e =? MyID g) && (Wetness e <? 100)); [|eauto].
      cbv zeta. destruct (OptimalRange agent <? _); [eauto|].
      destruct (_ || _); [eauto|]. destruct (_ && _); [|eauto]. destruct (ID e <? ID t); eauto. }
  destruct (Hgen visit (Some (None, (-999)%Q, 999)) ltac:(by left)) as [r Hr].
  intros Hn.
  assert (E : option_map (fun acc : option Agent * Q * Z => acc.1.1) (Some r) = None)
    by (rewrite <- Hr; exact Hn).
  discriminate E.
Qed.

(** [FindLeastProtectedEnemy] ranks its targets (X).  On a registry whose
    entries are stored under their own ids, and whatever order it is
    visited in, [FindLeastProtectedEnemy] returns nil exactly when no live
    enemy is within the agent's optimal range; otherwise it returns such an
    enemy that ranks above every other one: a higher combined score (range
    minus distance, plus 30 times the part of the damage cover lets
    through), then a smaller distance, then a lower id. *)
Theorem FindLeastProtectedEnemy_ranked (g : Game) (visit : list Agent) (agent : Agent) :
  visit_order g visit -> registry_keyed g ->
  exists r, FindLeastProtectedEnemy g visit agent = Some r /\
    (r = None <-> forall e, e ∈ range_Agents g -> ~ lpe_candidate g agent e) /\
    (forall t, r = Some t -> t ∈ range_Agents g /\ lpe_candidate g agent t /\
       forall e, e ∈ range_Agents g -> lpe_candidate g agent e -> e = t \/ lpe_beats g agent t e).
Proof.
  intros Hperm Hkey.
  destruct (FindLeastProtectedEnemy_spec g visit agent Hperm Hkey) as [r [Hr Hs]].
  exists r. split; [exact Hr|]. destruct r as [t|].
  - destruct Hs as (Ht & Hct & Hall). split.
    + split; [discriminate|]. intros Hnone. exfalso. exact (Hnone t Ht Hct).
    + intros t' [= <-]. auto.
  - split; [split; [intros _; exact Hs|reflexivity]|]. discriminate.
Qed.

(** [FindLeastProtectedEnemy] does not depend on the map order (X).  On a
    registry whose entries are stored under their own ids, any two orders
    [range g.Agents] may visit it in give the same target. *)
Theorem FindLeastProtectedEnemy_order_independent (g : Game) (visit1 visit2 : list Agent) (agent : Agent) :
  visit_order g visit1 -> visit_order g visit2 -> registry_keyed g ->
  FindLeastProtectedEnemy g visit1 agent = FindLeastProtectedEnemy g visit2 agent.
Proof.
  intros H1 H2 Hkey.
  destruct (FindLeastProtectedEnemy_spec g visit1 agent H1 Hkey) as [r1 [Hr1 Hs1]].
  destruct (FindLeastProtectedEnemy_spec g visit2 agent H2 Hkey) as [r2 [Hr2 Hs2]].
  rewrite Hr1, Hr2. f_equal.
  destruct r1 as [t1|], r2 as [t2|].
  - destruct Hs1 as (Ht1 & Hc1 & Hall1). destruct Hs2 as (Ht2 & Hc2 & Hall2).
    destruct (Hall1 t2 Ht2 Hc2) as [ -> |Hb1]; [reflexivity|].
    destruct (Hall2 t1 Ht1 Hc1) as [ -> |Hb2]; [reflexivity|].
    exfalso. exact (lpe_beats_asym g agent t1 t2 Hb1 Hb2).
  - destruct Hs1 as (Ht1 & Hc1 & _). exfalso. exact (Hs2 t1 Ht1 Hc1).
  - destruct Hs2 as (Ht2 & Hc2 & _). exfalso. exact (Hs1 t2 Ht2 Hc2).
  - reflexivity.
Qed.

(** Between the twins, equal in score and distance, the lower id 2 is chosen. *)
Lemma FindLeastProtectedEnemy_ranked_witness :
  FindLeastProtectedEnemy game_twins (range_Agents game_twins) shooter_mid = Some (Some enemy_left) /\
  enemy_left ∈ range_Agents game_twins.
Proof.
  assert (Hperm : visit_order game_twins (range_Agents game_twins)) by apply Permutation_refl.
  destruct (FindLeastProtectedEnemy_ranked game_twins _ shooter_mid Hperm game_twins_keyed)
    as (r & Hr & _ & Hsome).
  assert (Hv : FindLeastProtectedEnemy game_twins (range_Agents game_twins) shooter_mid = Some (Some enemy_left))
    by (vm_compute; reflexivity).
  split; [exact Hv|]. rewrite Hv in Hr. injection Hr as <-.
  exact (proj1 (Hsome enemy_left eq_refl)).
Defined.

(** The map order and its reverse give the same target on the twins. *)
Lemma FindLeastProtectedEnemy_order_independent_witness :
  visit_order game_twins (rev (range_Agents game_twins)) /\
  FindLeastProtectedEnemy game_twins (range_Agents game_twins) shooter_mid =
  FindLeastProtectedEnemy game_twins (rev (range_Agents game_twins)) shooter_mid.
Proof.
  assert (H1 : visit_order game_twins (range_Agents game_twins)) by apply Permutation_refl.
  assert (H2 : visit_order game_twins (rev (range_Agents game_twins)))
    by (unfold visit_order; symmetry; apply Permutation_rev).
  split; [exact H2|].
  exact (FindLeastProtectedEnemy_order_independent game_twins _ _ shooter_mid H1 H2 game_twins_keyed).
Defined.

(** ** Output lines *)

Lemma FormatAction_total (acts : list AgentAction) :
  valid_action_string (FormatAction acts) /\ (acts = [] -> FormatAction acts = "HUNKER_DOWN").
Proof.
  destruct acts as [|a rest].
  - split; [|reflexivity]. exists ["HUNKER_DOWN"]. split; [discriminate|].
    split; [repeat constructor|reflexivity].
  - split; [apply FormatAction_valid; discriminate|discriminate].
Qed.

(** [outputActions] prints one well-formed line per friendly agent (X).
    It prints exactly one line per entry of [MyAgents], in order; the
    line of agent [agent] is its id, ["; "] and a valid action string,
    and that string is ["HUNKER_DOWN"] when [actions] has no entry, or an
    empty one, for the agent. *)
Theorem outputActions_lines (g : Game) (actions : gmap Z (list AgentAction)) :
  length (outputActions g actions) = length (my_agents g) /\
  forall k agent, my_agents g !! k = Some agent ->
    exists s, outputActions g actions !! k = Some (pretty (ID agent) ++ "; " ++ s)%string /\
      valid_action_string s /\
      (default [] (actions !! ID agent) = [] -> s = "HUNKER_DOWN").
Proof.
  unfold outputActions. split; [apply length_map|].
  intros k agent Hk.
  exists (FormatAction (default [] (actions !! ID agent))).
  destruct (FormatAction_total (default [] (actions !! ID agent))) as [Hv He].
  split; [|split; [exact Hv|exact He]].
  revert k Hk. induction (my_agents g) as [|b l IH]; intros k Hk; [discriminate|].
  destruct k as [|k]; simpl in *; [injection Hk as ->; reflexivity|exact (IH k Hk)].
Qed.

(** ** Referee: agent lookup and update *)

Lemma update_first_find (id : Z) (f : RealAgent -> RealAgent) (l : list RealAgent) :
  match find (fun a => rID a =? id) l with
  | None => update_first id f l = l
  | Some a => exists k, l !! k = Some a /\ rID a = id /\
      (forall j b, (j < k)%nat -> l !! j = Some b -> rID b <> id) /\
      update_first id f l = <[k := f a]> l
  end.
Proof.
  induction l as [|b l IH]; [reflexivity|]. simpl.
  destruct (Z.eqb_spec (rID b) id) as [Hb|Hb].
  - exists 0%nat. split; [reflexivity|]. split; [exact Hb|]. split; [intros j c Hj; lia|reflexivity].
  - destruct (find _ l) as [a|].
    + destruct IH as (k & Hk & Ha & Hfirst & ->). exists (S k). split; [exact Hk|]. split; [exact Ha|].
      split; [|reflexivity].
      intros [|j] c Hj Hc; [injection Hc as <-; exact Hb|]. apply (Hfirst j c); [lia|exact Hc].
    + rewrite IH. reflexivity.
Qed.

Lemma Forall2_insert_same (P : RealAgent -> RealAgent -> Prop) (l : list RealAgent) (k : nat) (a x : RealAgent) :
  (forall b, P b b) -> l !! k = Some a -> P a x -> Forall2 P l (<[k := x]> l).
Proof.
  intros Hrefl Hk Hax. apply Forall2_lookup. intros i.
  destruct (decide (i = k)) as [->|Hik].
  - rewrite Hk, list_lookup_insert_eq by (apply lookup_lt_Some in Hk; exact Hk). by constructor.
  - rewrite list_lookup_insert_ne by congruence. destruct (l !! i); constructor. apply Hrefl.
Qed.

Lemma Forall2_refl_agents (P : RealAgent -> RealAgent -> Prop) (l : list RealAgent) :
  (forall b, P b b) -> Forall2 P l l.
Proof. intros Hrefl. induction l; constructor; auto. Qed.

(** [UpdateAgent] changes only the agent [GetAgent] finds. *)
Lemma update_first_Forall2 (P : RealAgent -> RealAgent -> Prop) (id : Z) (f : RealAgent -> RealAgent)
    (l : list RealAgent) :
  (forall b, P b b) -> (forall a, find (fun a => rID a =? id) l = Some a -> P a (f a)) ->
  Forall2 P l (update_first id f l).
Proof.
  intros Hrefl Hf. pose proof (update_first_find id f l) as Hu.
  destruct (find _ l) as [a|].
  - destruct Hu as (k & Hk & _ & _ & ->). apply (Forall2_insert_same P l k a); auto.
  - rewrite Hu. by apply Forall2_refl_agents.
Qed.

Lemma find_rID (id : Z) (l : list RealAgent) (a : RealAgent) :
  find (fun a => rID a =? id) l = Some a -> rID a = id /\ a ∈ l.
Proof.
  intros H. apply find_some in H as [Hin Hid]. apply Z.eqb_eq in Hid. split; [exact Hid|].
  by apply list_elem_of_In.
Qed.

(** ** Referee: shot damage *)

Lemma GetCoverProtection_bounds (g : Game) (dX dY aX aY : Z) :
  (0 <= GetCoverProtection g dX dY aX aY <= 3 # 4)%Q.
Proof.
  unfold GetCoverProtection. apply fold_left_inv_in; [split; discriminate|].
  intros m d _ Hm.
  repeat match goal with |- context [if ?c then _ else _] => destruct c end;
    try exact Hm; split; discriminate.
Qed.

Lemma math_Round_damage (sp : Z) (base p : Q) :
  0 <= sp -> (0 <= base <= inject_Z sp)%Q -> (0 <= p <= 1)%Q ->
  0 <= math_Round (base * (1 - p)) <= sp.
Proof.
  intros Hsp [Hb0 Hb] [Hp0 Hp1].
  assert (Hbp : (0 <= base * p)%Q) by (apply Qmult_le_0_compat; assumption).
  assert (Hq : (base * (1 - p) == base - base * p)%Q) by ring.
  assert (Hq0 : (0 <= base * (1 - p))%Q) by (apply Qmult_le_0_compat; lra).
  assert (Hq1 : (base * (1 - p) <= inject_Z sp)%Q) by (rewrite Hq; lra).
  unfold math_Round. apply Qle_bool_iff in Hq0 as Hb'. rewrite Hb'.
  set (q := (base * (1 - p))%Q) in *.
  split.
  - change 0 with (Qfloor 0). apply Qfloor_resp_le. lra.
  - pose proof (Qfloor_le (q + (1 # 2))) as Hf.
    assert (Hlt : (inject_Z (Qfloor (q + (1 # 2))) < inject_Z (sp + 1))%Q)
      by (rewrite inject_Z_plus; change (inject_Z 1) with 1%Q; lra).
    rewrite <- Zlt_Qlt in Hlt. lia.
Qed.

(** One shot: the target takes [d] wetness, capped at 100, and the
    shooter's cooldown is reset. *)
Lemma shoot_updates_spec (l : list RealAgent) (shooterID targetID : Z) (target : RealAgent) (d sp : Z) :
  find (fun a => rID a =? targetID) l = Some target -> rWetness target < 100 -> 0 <= d <= sp ->
  Forall2 (fun a a' => rID a' = rID a /\ rPlayerID a' = rPlayerID a /\ rX a' = rX a /\ rY a' = rY a /\
      rSplashBombs a' = rSplashBombs a /\ rWetness a <= rWetness a' <= Z.max (rWetness a) 100 /\
      (rWetness a < rWetness a' -> rID a = targetID /\ rWetness a' <= rWetness a + sp))
    l (update_first shooterID (fun a => set_rCooldown a (rShootCooldown a))
         (update_first targetID (fun a =>
            let w := rWetness a + d in set_rWetness a (if 100 <? w then 100 else w)) l)).
Proof.
  intros Hfind Hlive Hd.
  eapply (Forall2_trans (fun a a' => rID a' = rID a /\ rPlayerID a' = rPlayerID a /\ rX a' = rX a /\
      rY a' = rY a /\ rSplashBombs a' = rSplashBombs a /\ rWetness a <= rWetness a' <= Z.max (rWetness a) 100 /\
      (rWetness a < rWetness a' -> rID a = targetID /\ rWetness a' <= rWetness a + sp))
    (fun a a' => a' = a \/ a' = set_rCooldown a (rShootCooldown a))).
  3:{ apply update_first_Forall2; [intros b; by left|intros a _; by right]. }
  2:{ apply update_first_Forall2.
      - intros b. split; [reflexivity|]. split; [reflexivity|]. split; [reflexivity|].
        split; [reflexivity|]. split; [reflexivity|]. split; [lia|]. lia.
      - intros a Ha. rewrite Hfind in Ha. injection Ha as <-.
        destruct (find_rID targetID l target Hfind) as [Hid _].
        cbn. destruct (Z.ltb_spec 100 (rWetness target + d)); cbn;
          (split; [reflexivity|]; split; [reflexivity|]; split; [reflexivity|];
           split; [reflexivity|]; split; [reflexivity|]; split; [lia|]); intros _; split; lia. }
  intros x y z (Hid & Hpl & Hx & Hy & Hb & Hw & Hup) [->| ->]; cbn; auto 10.
Qed.

Lemma shot_protection_bounds (c : Q) (hunkered : bool) :
  (0 <= c <= 3 # 4)%Q ->
  (0 <= (if hunkered then (let p := (c + (1 # 4))%Q in if Qltb 1 p then 1%Q else p) else c) <= 1)%Q.
Proof.
  intros Hc. destruct hunkered; [|lra]. cbn zeta.
  unfold Qltb. destruct (Qle_bool (c + (1 # 4)) 1) eqn:Hle; simpl; [|lra].
  apply Qle_bool_iff in Hle. lra.
Qed.

(** [ExecuteShoot] only soaks its target (X).  When the shooter's soaking
    power is not negative, a shot changes no id, owner, position or bomb
    count; it never lowers a wetness; only the target's wetness rises,
    never above 100 and by at most the shooter's soaking power. *)
Theorem ExecuteShoot_wetness (gs : RealGameState) (shooterID targetID : Z) :
  (forall shooter, GetAgent gs shooterID = Some shooter -> 0 <= rSoakingPower shooter) ->
  Forall2 (fun a a' => rID a' = rID a /\ rPlayerID a' = rPlayerID a /\ rX a' = rX a /\ rY a' = rY a /\
      rSplashBombs a' = rSplashBombs a /\ rWetness a <= rWetness a' <= Z.max (rWetness a) 100 /\
      (rWetness a < rWetness a' -> rID a = targetID /\
         exists shooter, GetAgent gs shooterID = Some shooter /\ rWetness a' <= rWetness a + rSoakingPower shooter))
    (rAgents gs) (rAgents (ExecuteShoot gs shooterID targetID)).
Proof.
  intros Hsp.
  assert (Hrefl : Forall2 (fun a a' => rID a' = rID a /\ rPlayerID a' = rPlayerID a /\ rX a' = rX a /\
      rY a' = rY a /\ rSplashBombs a' = rSplashBombs a /\ rWetness a <= rWetness a' <= Z.max (rWetness a) 100 /\
      (rWetness a < rWetness a' -> rID a = targetID /\
         exists shooter, GetAgent gs shooterID = Some shooter /\ rWetness a' <= rWetness a + rSoakingPower shooter))
    (rAgents gs) (rAgents gs)).
  { apply Forall2_refl_agents. intros b. repeat split; lia. }
  unfold ExecuteShoot.
  destruct (GetAgent gs shooterID) as [shooter|] eqn:Hs; [|exact Hrefl].
  destruct (GetAgent gs targetID) as [target|] eqn:Ht; [|exact Hrefl].
  destruct ((100 <=? rWetness shooter) || (100 <=? rWetness target)) eqn:Hw; [exact Hrefl|].
  destruct (0 <? rCooldown shooter); [exact Hrefl|].
  destruct (rOptimalRange shooter * 2 <? manhattan (rX shooter) (rY shooter) (rX target) (rY target)) eqn:Hr;
    [exact Hrefl|].
  pose proof (Hsp shooter eq_refl) as Hsp0.
  apply orb_false_iff in Hw as [Hw1 Hw2]. apply Z.leb_gt in Hw2.
  eapply Forall2_impl.
  - refine (shoot_updates_spec (rAgents gs) shooterID targetID target _ (rSoakingPower shooter) Ht Hw2 _).
    apply math_Round_damage; [exact Hsp0| |apply shot_protection_bounds, GetCoverProtection_bounds].
    assert (Hz : (0 <= inject_Z (rSoakingPower shooter))%Q)
      by (change 0%Q with (inject_Z 0); rewrite <- Zle_Qle; exact Hsp0).
    destruct (rOptimalRange shooter <? _); lra.
  - intros a a' (Hid & Hpl & Hx & Hy & Hb & Hwet & Hup).
    do 6 (split; [assumption|]). intros Hlt. destruct (Hup Hlt) as [Hta Hle].
    split; [exact Hta|]. exists shooter. split; [reflexivity|exact Hle].
Qed.

(** ** Referee: splash bombs *)

Lemma splash_positions_eq (tx ty : Z) :
  splash_positions tx ty =
    [(tx, ty); (tx + -1, ty + -1); (tx + -1, ty + 0); (tx + -1, ty + 1);
     (tx + 0, ty + -1); (tx + 0, ty + 1);
     (tx + 1, ty + -1); (tx + 1, ty + 0); (tx + 1, ty + 1)].
Proof. reflexivity. Qed.

Lemma splash_positions_NoDup (tx ty : Z) : NoDup (splash_positions tx ty).
Proof.
  rewrite splash_positions_eq.
  repeat constructor; intros H; apply list_elem_of_In in H;
    repeat (destruct H as [H|H]; [apply pair_equal_spec in H; lia|]); exact H.
Qed.

Lemma splash_positions_in (tx ty x y : Z) :
  (x, y) ∈ splash_positions tx ty <-> Z.abs (x - tx) <= 1 /\ Z.abs (y - ty) <= 1.
Proof.
  rewrite splash_positions_eq, list_elem_of_In. split.
  - intros H. repeat (destruct H as [H|H]; [apply pair_equal_spec in H; lia|]). contradiction.
  - intros [Hx Hy].
    assert (Hx3 : x = tx + -1 \/ x = tx \/ x = tx + 1) by lia.
    assert (Hy3 : y = ty + -1 \/ y = ty \/ y = ty + 1) by lia.
    destruct Hx3 as [-> | [-> | ->]]; destruct Hy3 as [-> | [-> | ->]]; simpl;
      repeat (first [left; apply pair_equal_spec; split; lia | right]).
Qed.

Lemma splash_hit_map (gs : RealGameState) (agents : list RealAgent) (pos : Z * Z) :
  splash_hit gs agents pos = map (fun a => splash_hit1 gs a pos) agents.
Proof.
  destruct pos as [x y]. unfold splash_hit, splash_hit1.
  destruct (_ && _ && _ && _); [reflexivity|]. symmetry. apply map_id.
Qed.

Lemma splash_fold_map (gs : RealGameState) (ps : list (Z * Z)) (agents : list RealAgent) :
  fold_left (splash_hit gs) ps agents = map (fun a => fold_left (splash_hit1 gs) ps a) agents.
Proof.
  revert agents. induction ps as [|p ps IH]; intros agents; simpl; [symmetry; apply map_id|].
  rewrite IH, splash_hit_map, map_map. reflexivity.
Qed.

Lemma splash_hit1_pos (gs : RealGameState) (a : RealAgent) (p : Z * Z) :
  rX (splash_hit1 gs a p) = rX a /\ rY (splash_hit1 gs a p) = rY a.
Proof.
  destruct p as [x y]. unfold splash_hit1.
  destruct (_ && _ && _ && _); [destruct (_ && _ && _)|]; split; reflexivity.
Qed.

Lemma splash_hit1_other (gs : RealGameState) (a : RealAgent) (p : Z * Z) :
  (rX a, rY a) <> p -> splash_hit1 gs a p = a.
Proof.
  destruct p as [x y]. intros Hne. unfold splash_hit1.
  destruct (Z.eqb_spec (rX a) x) as [Ex|Ex]; destruct (Z.eqb_spec (rY a) y) as [Ey|Ey];
    [exfalso; apply Hne; rewrite Ex, Ey; reflexivity| | |];
    rewrite ?andb_false_r; simpl; destruct (_ && _ && _ && _); reflexivity.
Qed.

(** Each agent is hit by at most one of distinct splash positions. *)
Lemma splash_fold_one (gs : RealGameState) (ps : list (Z * Z)) (a : RealAgent) :
  NoDup ps ->
  fold_left (splash_hit1 gs) ps a =
    if bool_decide ((rX a, rY a) ∈ ps) then splash_hit1 gs a (rX a, rY a) else a.
Proof.
  revert a. induction ps as [|p ps IH]; intros a Hnd; [reflexivity|].
  apply NoDup_cons in Hnd as [Hp Hnd]. simpl. rewrite IH by exact Hnd.
  destruct (splash_hit1_pos gs a p) as [Hx Hy]. rewrite Hx, Hy.
  destruct (decide ((rX a, rY a) = p)) as [<-|Hne].
  - rewrite (bool_decide_eq_false_2 ((rX a, rY a) ∈ ps)) by (intros Hin; exact (Hp Hin)).
    rewrite bool_decide_eq_true_2 by (apply elem_of_cons; by left). reflexivity.
  - rewrite (splash_hit1_other gs a p Hne).
    destruct (bool_decide_reflect ((rX a, rY a) ∈ ps)) as [Hin|Hin].
    + rewrite bool_decide_eq_true_2 by (apply elem_of_cons; by right). reflexivity.
    + rewrite bool_decide_eq_false_2; [reflexivity|].
      intros Hin'. apply elem_of_cons in Hin' as [?|?]; contradiction.
Qed.

(** [ExecuteThrow] soaks the 3x3 square once (X).  A throw that goes off
    (a live thrower with a bomb left, the target at Manhattan distance at
    most 4) gives every agent below 100 wetness standing on the board
    within one column and one row of the target exactly one hit of 30
    wetness, capped at 100, friend or foe, the thrower included, and
    takes one bomb from the thrower; no other agent changes.  A throw that
    does not go off changes nothing. *)
Theorem ExecuteThrow_splash (gs : RealGameState) (agentID targetX targetY : Z) :
  rAgents (ExecuteThrow gs agentID targetX targetY) =
    match GetAgent gs agentID with
    | Some agent =>
        if (100 <=? rWetness agent) || (rSplashBombs agent <=? 0)
           || (4 <? manhattan (rX agent) (rY agent) targetX targetY) then rAgents gs
        else
          update_first agentID (fun a => set_rSplashBombs a (rSplashBombs a - 1))
            (map (fun a =>
                if (rWetness a <? 100) && (Z.abs (rX a - targetX) <=? 1) && (Z.abs (rY a - targetY) <=? 1)
                   && (0 <=? rX a) && (rX a <? rWidth gs) && (0 <=? rY a) && (rY a <? rHeight gs)
                then set_rWetness a (Z.min 100 (rWetness a + 30))
                else a)
              (rAgents gs))
    | None => rAgents gs
    end.
Proof.
  unfold ExecuteThrow. destruct (GetAgent gs agentID) as [agent|]; [|reflexivity].
  destruct ((100 <=? rWetness agent) || (rSplashBombs agent <=? 0)); [reflexivity|].
  destruct (4 <? manhattan (rX agent) (rY agent) targetX targetY); [reflexivity|].
  cbn [orb UpdateAgent set_rAgents rAgents]. f_equal.
  rewrite splash_fold_map. apply map_ext. intros a.
  rewrite splash_fold_one by apply splash_positions_NoDup.
  destruct (bool_decide_reflect ((rX a, rY a) ∈ splash_positions targetX targetY)) as [Hin|Hin];
    rewrite splash_positions_in in Hin.
  - destruct Hin as [Hx Hy].
    rewrite (proj2 (Z.leb_le _ 1) Hx), (proj2 (Z.leb_le _ 1) Hy), !andb_true_r.
    cbv beta iota delta [splash_hit1]. rewrite !Z.eqb_refl, !andb_true_r.
    destruct (rWetness a <? 100); simpl; [|destruct (_ && _ && _ && _); reflexivity].
    destruct (_ && _ && _ && _); [|reflexivity].
    f_equal. destruct (Z.ltb_spec 100 (rWetness a + 30)); lia.
  - destruct (Z.leb_spec (Z.abs (rX a - targetX)) 1); destruct (Z.leb_spec (Z.abs (rY a - targetY)) 1);
      try (exfalso; apply Hin; split; assumption);
      rewrite ?andb_false_r; reflexivity.
Qed.

(** ** Referee: movement *)

Lemma step_toward (p t : Z) :
  let d := if p <? t then 1 else if t <? p then -1 else 0 in
  Z.abs d <= 1 /\ Z.abs (t - (p + d)) <= Z.abs (t - p).
Proof. cbv zeta. destruct (Z.ltb_spec p t); [lia|]. destruct (Z.ltb_spec t p); lia. Qed.

Lemma real_valid_not_live (gs : RealGameState) (x y : Z) (b : RealAgent) :
  real_IsValidPosition gs x y = true -> b ∈ rAgents gs -> rWetness b < 100 -> (rX b, rY b) <> (x, y).
Proof.
  unfold real_IsValidPosition. intros Hv Hb Hw [= Hx Hy].
  destruct (_ || _ || _ || _); [discriminate|]. destruct (negb _); [discriminate|].
  apply negb_true_iff in Hv.
  assert (Ht : existsb (fun agent => (rWetness agent <? 100) && (rX agent =? x) && (rY agent =? y))
                 (rAgents gs) = true).
  { apply existsb_exists. exists b. split; [by apply list_elem_of_In|].
    rewrite Hx, Hy, !Z.eqb_refl. apply Z.ltb_lt in Hw. rewrite Hw. reflexivity. }
  congruence.
Qed.

(** What [ExecuteMove] does: nothing, or it moves the agent [GetAgent]
    finds, a live one, by one step at most on each axis toward the
    target, onto a tile the referee's [IsValidPosition] accepts. *)
Lemma ExecuteMove_spec (gs : RealGameState) (agentID targetX targetY : Z) :
  rAgents (ExecuteMove gs agentID targetX targetY) = rAgents gs \/
  exists k a a', rAgents gs !! k = Some a /\ rID a = agentID /\
    (forall j b, (j < k)%nat -> rAgents gs !! j = Some b -> rID b <> agentID) /\ rWetness a < 100 /\
    rAgents (ExecuteMove gs agentID targetX targetY) = <[k := a']> (rAgents gs) /\
    a' = set_rY (set_rX a (rX a')) (rY a') /\
    Z.abs (rX a' - rX a) <= 1 /\ Z.abs (rY a' - rY a) <= 1 /\
    Z.abs (targetX - rX a') <= Z.abs (targetX - rX a) /\ Z.abs (targetY - rY a') <= Z.abs (targetY - rY a) /\
    real_IsValidPosition gs (rX a') (rY a') = true.
Proof.
  unfold ExecuteMove, GetAgent.
  destruct (find (fun a => rID a =? agentID) (rAgents gs)) as [agent|] eqn:Hf; [|by left].
  destruct (Z.leb_spec 100 (rWetness agent)) as [_|Hw]; [by left|].
  cbv zeta.
  destruct (step_toward (rX agent) targetX) as [Hdx Hdx'].
  destruct (step_toward (rY agent) targetY) as [Hdy Hdy'].
  cbv zeta in Hdx, Hdx', Hdy, Hdy'.
  set (dx := if rX agent <? targetX then 1 else if targetX <? rX agent then -1 else 0) in *.
  set (dy := if rY agent <? targetY then 1 else if targetY <? rY agent then -1 else 0) in *.
  assert (Hupd : forall f, rAgents (UpdateAgent gs agentID f) = update_first agentID f (rAgents gs))
    by reflexivity.
  pose proof (fun f => update_first_find agentID f (rAgents gs)) as Hu. rewrite Hf in Hu.
  destruct (real_IsValidPosition gs (rX agent + dx) (rY agent + dy)) eqn:Hv.
  { right. destruct (Hu (fun a => set_rY (set_rX a (rX agent + dx)) (rY agent + dy))) as (k & Hk & Hid & Hfirst & Heq).
    exists k, agent, (set_rY (set_rX agent (rX agent + dx)) (rY agent + dy)).
    rewrite Hupd, Heq. cbn. repeat split; try assumption; try lia. }
  destruct (negb (dx =? 0) && real_IsValidPosition gs (rX agent + dx) (rY agent)) eqn:Hvx.
  { right. apply andb_true_iff in Hvx as [_ Hvx].
    destruct (Hu (fun a => set_rX a (rX agent + dx))) as (k & Hk & Hid & Hfirst & Heq).
    exists k, agent, (set_rX agent (rX agent + dx)).
    rewrite Hupd, Heq. cbn. repeat split; try assumption; try lia. }
  destruct (negb (dy =? 0) && real_IsValidPosition gs (rX agent) (rY agent + dy)) eqn:Hvy; [|by left].
  right. apply andb_true_iff in Hvy as [_ Hvy].
  destruct (Hu (fun a => set_rY a (rY agent + dy))) as (k & Hk & Hid & Hfirst & Heq).
  exists k, agent, (set_rY agent (rY agent + dy)).
  rewrite Hupd, Heq. cbn. repeat split; try assumption; try lia.
Qed.


(** [ExecuteMove] moves at most one agent, one step toward its target (X).
    It changes at most one entry of the agent slice; a changed entry is
    the first agent with the id, was below 100 wetness, and changes only
    its position: to a different tile at most one column and one row
    away, no farther from the target on either axis, on the board, empty,
    and free of any agent below 100 wetness. *)
Theorem ExecuteMove_one_step (gs : RealGameState) (agentID targetX targetY : Z) :
  length (rAgents (ExecuteMove gs agentID targetX targetY)) = length (rAgents gs) /\
  (exists k, forall i, i <> k -> rAgents (ExecuteMove gs agentID targetX targetY) !! i = rAgents gs !! i) /\
  forall k a a', rAgents gs !! k = Some a -> rAgents (ExecuteMove gs agentID targetX targetY) !! k = Some a' ->
    a' <> a ->
    rID a = agentID /\ (forall j b, (j < k)%nat -> rAgents gs !! j = Some b -> rID b <> agentID) /\
    rWetness a < 100 /\ a' = set_rY (set_rX a (rX a')) (rY a') /\
    (rX a', rY a') <> (rX a, rY a) /\ Z.abs (rX a' - rX a) <= 1 /\ Z.abs (rY a' - rY a) <= 1 /\
    Z.abs (targetX - rX a') <= Z.abs (targetX - rX a) /\ Z.abs (targetY - rY a') <= Z.abs (targetY - rY a) /\
    real_IsValidPosition gs (rX a') (rY a') = true.
Proof.
  destruct (ExecuteMove_spec gs agentID targetX targetY)
    as [-> | (k & a & a' & Hk & Hid & Hfirst & Hw & -> & Heq & Hstep)].
  { split; [reflexivity|]. split; [exists 0%nat; reflexivity|]. intros k a a' H1 H2 Hne. congruence. }
  assert (Hlt : (k < length (rAgents gs))%nat) by (apply lookup_lt_Some in Hk; exact Hk).
  split; [apply length_insert|]. split.
  { exists k. intros i Hi. apply list_lookup_insert_ne. congruence. }
  intros i b b' Hb Hb' Hne.
  destruct (decide (i = k)) as [->|Hik].
  2:{ rewrite list_lookup_insert_ne in Hb' by congruence. congruence. }
  rewrite Hk in Hb. injection Hb as <-.
  rewrite list_lookup_insert_eq in Hb' by exact Hlt. injection Hb' as <-.
  destruct Hstep as (Hsx & Hsy & Htx & Hty & Hv).
  assert (Hmove : (rX a, rY a) <> (rX a', rY a')).
  { apply (real_valid_not_live gs); [exact Hv| |exact Hw]. apply list_elem_of_lookup_2 with k. exact Hk. }
  repeat split; try assumption. congruence.
Qed.

(** ** Referee: live agents on distinct tiles *)

(** Same tiles, and no agent back below 100 wetness. *)
Lemma live_tiles_distinct_Forall2 (l l' : list RealAgent) :
  Forall2 (fun a a' => rX a' = rX a /\ rY a' = rY a /\ (rWetness a' < 100 -> rWetness a < 100)) l l' ->
  live_tiles_distinct l -> live_tiles_distinct l'.
Proof.
  intros H Hd i j a' b' Hij Ha' Hb' Hwa Hwb.
  destruct (Forall2_lookup_r _ _ _ _ _ H Ha') as (a & Ha & Hxa & Hya & Hla).
  destruct (Forall2_lookup_r _ _ _ _ _ H Hb') as (b & Hb & Hxb & Hyb & Hlb).
  rewrite Hxa, Hya, Hxb, Hyb. exact (Hd i j a b Hij Ha Hb (Hla Hwa) (Hlb Hwb)).
Qed.

Lemma keeps_tiles_trans (a b c : RealAgent) :
  (rX b = rX a /\ rY b = rY a /\ (rWetness b < 100 -> rWetness a < 100)) ->
  (rX c = rX b /\ rY c = rY b /\ (rWetness c < 100 -> rWetness b < 100)) ->
  (rX c = rX a /\ rY c = rY a /\ (rWetness c < 100 -> rWetness a < 100)).
Proof. intros (H1 & H2 & H3) (H4 & H5 & H6). split; [congruence|]. split; [congruence|]. auto. Qed.

Lemma shoot_updates_tiles (l : list RealAgent) (shooterID targetID : Z) (target : RealAgent) (d : Z) :
  find (fun a => rID a =? targetID) l = Some target -> rWetness target < 100 ->
  Forall2 (fun a a' => rX a' = rX a /\ rY a' = rY a /\ (rWetness a' < 100 -> rWetness a < 100))
    l (update_first shooterID (fun a => set_rCooldown a (rShootCooldown a))
         (update_first targetID (fun a =>
            let w := rWetness a + d in set_rWetness a (if 100 <? w then 100 else w)) l)).
Proof.
  intros Hfind Hlive.
  eapply Forall2_trans; [exact keeps_tiles_trans| |].
  2:{ apply update_first_Forall2; [intros b; repeat split; auto|]. intros a _. cbn. repeat split; auto. }
  apply update_first_Forall2; [intros b; repeat split; auto|].
  intros a Ha. rewrite Hfind in Ha. injection Ha as <-. cbn. repeat split; auto.
Qed.

Lemma ExecuteShoot_tiles (gs : RealGameState) (shooterID targetID : Z) :
  Forall2 (fun a a' => rX a' = rX a /\ rY a' = rY a /\ (rWetness a' < 100 -> rWetness a < 100))
    (rAgents gs) (rAgents (ExecuteShoot gs shooterID targetID)).
Proof.
  assert (Hrefl : Forall2 (fun a a' => rX a' = rX a /\ rY a' = rY a /\ (rWetness a' < 100 -> rWetness a < 100))
    (rAgents gs) (rAgents gs)) by (apply Forall2_refl_agents; intros b; repeat split; auto).
  unfold ExecuteShoot.
  destruct (GetAgent gs shooterID) as [shooter|] eqn:Hs; [|exact Hrefl].
  destruct (GetAgent gs targetID) as [target|] eqn:Ht; [|exact Hrefl].
  destruct ((100 <=? rWetness shooter) || (100 <=? rWetness target)) eqn:Hw; [exact Hrefl|].
  destruct (0 <? rCooldown shooter); [exact Hrefl|].
  destruct (rOptimalRange shooter * 2 <? _); [exact Hrefl|].
  apply orb_false_iff in Hw as [_ Hw2]. apply Z.leb_gt in Hw2.
  refine (shoot_updates_tiles (rAgents gs) shooterID targetID target _ Ht Hw2).
Qed.

Lemma splash_hit1_tiles (gs : RealGameState) (a : RealAgent) (p : Z * Z) :
  rX (splash_hit1 gs a p) = rX a /\ rY (splash_hit1 gs a p) = rY a /\
  (rWetness (splash_hit1 gs a p) < 100 -> rWetness a < 100).
Proof.
  destruct (splash_hit1_pos gs a p) as [Hx Hy]. split; [exact Hx|]. split; [exact Hy|].
  destruct p as [x y]. unfold splash_hit1.
  destruct (_ && _ && _ && _); [|auto].
  destruct ((rWetness a <? 100) && _ && _) eqn:Hl; [|auto].
  apply andb_true_iff in Hl as [Hl _]. apply andb_true_iff in Hl as [Hl _]. apply Z.ltb_lt in Hl. auto.
Qed.

Lemma ExecuteThrow_tiles (gs : RealGameState) (agentID targetX targetY : Z) :
  Forall2 (fun a a' => rX a' = rX a /\ rY a' = rY a /\ (rWetness a' < 100 -> rWetness a < 100))
    (rAgents gs) (rAgents (ExecuteThrow gs agentID targetX targetY)).
Proof.
  assert (Hrefl : Forall2 (fun a a' => rX a' = rX a /\ rY a' = rY a /\ (rWetness a' < 100 -> rWetness a < 100))
    (rAgents gs) (rAgents gs)) by (apply Forall2_refl_agents; intros b; repeat split; auto).
  unfold ExecuteThrow.
  destruct (GetAgent gs agentID) as [agent|]; [|exact Hrefl].
  destruct (_ || _); [exact Hrefl|].
  destruct (4 <? _); [exact Hrefl|].
  cbn [UpdateAgent set_rAgents rAgents].
  eapply Forall2_trans; [exact keeps_tiles_trans| |].
  2:{ apply update_first_Forall2; [intros b; repeat split; auto|]. intros a _. cbn. repeat split; auto. }
  rewrite splash_fold_map. clear Hrefl. induction (rAgents gs) as [|a l IH]; [constructor|]. constructor; [|exact IH].
  apply (fold_left_inv_in (fun b => rX b = rX a /\ rY b = rY a /\ (rWetness b < 100 -> rWetness a < 100)));
    [repeat split; auto|].
  intros b p _ Hb. exact (keeps_tiles_trans _ _ _ Hb (splash_hit1_tiles gs b p)).
Qed.

(** The referee keeps live agents on distinct tiles (X).  If no two
    agents below 100 wetness share a tile, the same holds after any
    [ExecuteMove], [ExecuteShoot] or [ExecuteThrow]: moves only enter
    tiles free of live agents, and shots and splashes move no one and
    bring no agent back below 100 wetness. *)
Theorem referee_live_tiles_distinct (gs : RealGameState) :
  live_tiles_distinct (rAgents gs) ->
  (forall agentID targetX targetY,
     live_tiles_distinct (rAgents (ExecuteMove gs agentID targetX targetY))) /\
  (forall shooterID targetID, live_tiles_distinct (rAgents (ExecuteShoot gs shooterID targetID))) /\
  (forall agentID targetX targetY,
     live_tiles_distinct (rAgents (ExecuteThrow gs agentID targetX targetY))).
Proof.
  intros Hd. split; [|split].
  - intros agentID targetX targetY.
    destruct (ExecuteMove_spec gs agentID targetX targetY)
      as [-> | (k & a & a' & Hk & _ & _ & Hw & -> & Heq & _ & _ & _ & _ & Hv)]; [exact Hd|].
    assert (Hlt : (k < length (rAgents gs))%nat) by (apply lookup_lt_Some in Hk; exact Hk).
    assert (Hwa' : rWetness a' = rWetness a) by (rewrite Heq; reflexivity).
    assert (Hfree : forall j b, rAgents gs !! j = Some b -> rWetness b < 100 -> (rX b, rY b) <> (rX a', rY a'))
      by (intros j b Hb Hwb; apply (real_valid_not_live gs); [exact Hv|apply list_elem_of_lookup_2 with j; exact Hb|exact Hwb]).
    intros i j b c Hij Hb Hc Hwb Hwc.
    destruct (decide (i = k)) as [->|Hik]; destruct (decide (j = k)) as [->|Hjk]; [congruence| | |].
    + rewrite list_lookup_insert_eq in Hb by exact Hlt. injection Hb as <-.
      rewrite list_lookup_insert_ne in Hc by congruence.
      intros Heqp. apply (Hfree j c Hc Hwc). rewrite Heqp. reflexivity.
    + rewrite list_lookup_insert_eq in Hc by exact Hlt. injection Hc as <-.
      rewrite list_lookup_insert_ne in Hb by congruence.
      exact (Hfree i b Hb Hwb).
    + rewrite list_lookup_insert_ne in Hb by congruence. rewrite list_lookup_insert_ne in Hc by congruence.
      exact (Hd i j b c Hij Hb Hc Hwb Hwc).
  - intros shooterID targetID. exact (live_tiles_distinct_Forall2 _ _ (ExecuteShoot_tiles gs shooterID targetID) Hd).
  - intros agentID targetX targetY.
    exact (live_tiles_distinct_Forall2 _ _ (ExecuteThrow_tiles gs agentID targetX targetY) Hd).
Qed.

(** ** Referee: territory scoring *)

Lemma territory_distances_bounds (gs : RealGameState) (x y : Z) :
  (territory_distances gs x y).1 <= MaxInt32 /\ (territory_distances gs x y).2 <= MaxInt32 /\
  ((forall a, a ∈ rAgents gs -> rPlayerID a = 0 -> 100 <= rWetness a) -> (territory_distances gs x y).1 = MaxInt32) /\
  ((forall a, a ∈ rAgents gs -> rPlayerID a = 1 -> 100 <= rWetness a) -> (territory_distances gs x y).2 = MaxInt32).
Proof.
  unfold territory_distances. apply fold_left_inv_in.
  { simpl. split; [lia|]. split; [lia|]. split; intros _; reflexivity. }
  intros [m0 m1] b Hb (H0 & H1 & H2 & H3). simpl in *.
  destruct (Z.leb_spec 100 (rWetness b)) as [Hd|Hl]; [simpl; auto|].
  destruct ((rPlayerID b =? 0) && _) eqn:Hp0.
  { apply andb_true_iff in Hp0 as [Hp0 Hlt]. apply Z.eqb_eq in Hp0. apply Z.ltb_lt in Hlt. simpl.
    split; [lia|]. split; [lia|]. split; [intros Hall; specialize (Hall b Hb Hp0); lia|exact H3]. }
  destruct ((rPlayerID b =? 1) && _) eqn:Hp1.
  { apply andb_true_iff in Hp1 as [Hp1 Hlt]. apply Z.eqb_eq in Hp1. apply Z.ltb_lt in Hlt. simpl.
    split; [lia|]. split; [lia|]. split; [exact H2|intros Hall; specialize (Hall b Hb Hp1); lia]. }
  simpl. auto.
Qed.

Lemma fold_count_bound {B} (f : Z * Z -> B -> Z * Z) (l : list B) (c : Z) (acc : Z * Z) :
  (forall acc b, b ∈ l -> acc.1 <= (f acc b).1 /\ acc.2 <= (f acc b).2 /\
                          (f acc b).1 + (f acc b).2 <= acc.1 + acc.2 + c) ->
  acc.1 <= (fold_left f l acc).1 /\ acc.2 <= (fold_left f l acc).2 /\
  (fold_left f l acc).1 + (fold_left f l acc).2 <= acc.1 + acc.2 + Z.of_nat (length l) * c.
Proof.
  revert acc. induction l as [|b l IH]; intros acc Hf; simpl; [lia|].
  destruct (Hf acc b ltac:(apply elem_of_cons; by left)) as (H1 & H2 & H3).
  destruct (IH (f acc b) ltac:(intros acc' b' Hb'; apply Hf; apply elem_of_cons; by right)) as (H4 & H5 & H6).
  lia.
Qed.

Lemma fold_keeps {B} (proj : Z * Z -> Z) (f : Z * Z -> B -> Z * Z) (l : list B) (acc : Z * Z) :
  (forall acc b, b ∈ l -> proj (f acc b) = proj acc) -> proj (fold_left f l acc) = proj acc.
Proof.
  intros Hf. apply (fold_left_inv_in (fun a => proj a = proj acc)); [reflexivity|].
  intros a b Hb Ha. rewrite Hf by exact Hb. exact Ha.
Qed.

Lemma Zrange_length_Z (lo hi : Z) : Z.of_nat (length (Zrange lo hi)) = Z.max 0 (hi - lo + 1).
Proof.
  unfold Zrange. rewrite length_map, length_seq.
  destruct (Z.le_gt_cases 0 (hi - lo + 1)) as [H|H].
  - rewrite Z2Nat.id by exact H. lia.
  - destruct (hi - lo + 1) as [|p|p] eqn:E; [lia|lia|]. simpl. lia.
Qed.

(** [UpdateTerritoryControl] awards one player at most the board (X).
    Scoring changes no agent and lowers no score; at most one player's
    score rises, and the two rises together are at most the number of
    tiles of the board; a player with no agent below 100 wetness gains
    nothing. *)
Theorem UpdateTerritoryControl_scores (gs : RealGameState) :
  rAgents (UpdateTerritoryControl gs) = rAgents gs /\
  rPlayer0Score gs <= rPlayer0Score (UpdateTerritoryControl gs) /\
  rPlayer1Score gs <= rPlayer1Score (UpdateTerritoryControl gs) /\
  (rPlayer0Score (UpdateTerritoryControl gs) = rPlayer0Score gs \/
   rPlayer1Score (UpdateTerritoryControl gs) = rPlayer1Score gs) /\
  (rPlayer0Score (UpdateTerritoryControl gs) - rPlayer0Score gs) +
  (rPlayer1Score (UpdateTerritoryControl gs) - rPlayer1Score gs) <= Z.max 0 (rWidth gs) * Z.max 0 (rHeight gs) /\
  ((forall a, a ∈ rAgents gs -> rPlayerID a = 0 -> 100 <= rWetness a) ->
     rPlayer0Score (UpdateTerritoryControl gs) = rPlayer0Score gs) /\
  ((forall a, a ∈ rAgents gs -> rPlayerID a = 1 -> 100 <= rWetness a) ->
     rPlayer1Score (UpdateTerritoryControl gs) = rPlayer1Score gs).
Proof.
  unfold UpdateTerritoryControl.
  match goal with |- context [fold_left ?F (Zrange 0 (rHeight gs - 1)) (0, 0)] =>
    set (Fo := F);
    set (cnt := fold_left Fo (Zrange 0 (rHeight gs - 1)) (0, 0));
    assert (Hinner : forall acc y, Fo acc y = fold_left (fun (acc : Z * Z) x =>
            let '(player0Tiles, player1Tiles) := acc in
            let '(minDist0, minDist1) := territory_distances gs x y in
            if minDist0 <? minDist1 then (player0Tiles + 1, player1Tiles)
            else if minDist1 <? minDist0 then (player0Tiles, player1Tiles + 1)
            else acc)
          (Zrange 0 (rWidth gs - 1)) acc) by reflexivity;
    assert (Hcnt : 0 <= cnt.1 /\ 0 <= cnt.2 /\
                   cnt.1 + cnt.2 <= Z.of_nat (length (Zrange 0 (rHeight gs - 1))) *
                                    Z.of_nat (length (Zrange 0 (rWidth gs - 1))));
    [|assert (Hk0 : (forall a, a ∈ rAgents gs -> rPlayerID a = 0 -> 100 <= rWetness a) -> cnt.1 = 0);
      [|assert (Hk1 : (forall a, a ∈ rAgents gs -> rPlayerID a = 1 -> 100 <= rWetness a) -> cnt.2 = 0)]]
  end.
  - unfold cnt.
    destruct (fold_count_bound Fo (Zrange 0 (rHeight gs - 1)) (Z.of_nat (length (Zrange 0 (rWidth gs - 1)))) (0, 0))
      as (H1 & H2 & H3); [|simpl in *; lia].
    intros acc y _. rewrite Hinner.
    match goal with |- context [fold_left ?G (Zrange 0 (rWidth gs - 1)) acc] =>
      destruct (fold_count_bound G (Zrange 0 (rWidth gs - 1)) 1 acc) as (H4 & H5 & H6); [|lia] end.
    intros [p0 p1] x _. destruct (territory_distances gs x y) as [m0 m1].
    destruct (m0 <? m1); [simpl; lia|]. destruct (m1 <? m0); simpl; lia.
  - intros Hall. unfold cnt. change 0 with (0, 0).1 at 2. apply fold_keeps.
    intros acc y _. rewrite Hinner. apply fold_keeps.
    intros [p0 p1] x _.
    destruct (territory_distances_bounds gs x y) as (_ & Hm1 & Hm0 & _). specialize (Hm0 Hall).
    destruct (territory_distances gs x y) as [m0 m1]. simpl in *.
    destruct (Z.ltb_spec m0 m1); [lia|]. destruct (m1 <? m0); reflexivity.
  - intros Hall. unfold cnt. change 0 with (0, 0).2 at 2. apply fold_keeps.
    intros acc y _. rewrite Hinner. apply fold_keeps.
    intros [p0 p1] x _.
    destruct (territory_distances_bounds gs x y) as (Hm0 & _ & _ & Hm1). specialize (Hm1 Hall).
    destruct (territory_distances gs x y) as [m0 m1]. simpl in *.
    destruct (m0 <? m1); [reflexivity|]. destruct (Z.ltb_spec m1 m0); [lia|reflexivity].
  - rewrite !Zrange_length_Z in Hcnt.
    destruct cnt as [p0 p1]. simpl in *.
    assert (Hb : Z.max 0 (rHeight gs - 1 - 0 + 1) * Z.max 0 (rWidth gs - 1 - 0 + 1)
                 = Z.max 0 (rWidth gs) * Z.max 0 (rHeight gs)) by lia.
    destruct (Z.ltb_spec p1 p0); simpl.
    + split; [reflexivity|]. split; [lia|]. split; [lia|]. split; [right; reflexivity|].
      split; [lia|]. split; [intros Hall; specialize (Hk0 Hall); lia|reflexivity].
    + destruct (Z.ltb_spec p0 p1); simpl.
      * split; [reflexivity|]. split; [lia|]. split; [lia|]. split; [left; reflexivity|].
        split; [lia|]. split; [reflexivity|intros Hall; specialize (Hk1 Hall); lia].
      * split; [reflexivity|]. split; [lia|]. split; [lia|]. split; [left; reflexivity|].
        split; [nia|]. split; reflexivity.
Qed.

(** Agent 1 of the referee strip shoots the hunkered agent 2 at distance 2:
    the hit leaves agent 2 at most at 100 wetness. *)
Lemma ExecuteShoot_wetness_witness :
  (forall shooter, GetAgent ref_strip 1 = Some shooter -> 0 <= rSoakingPower shooter) /\
  exists b', rAgents (ExecuteShoot ref_strip 1 2) !! 1%nat = Some b' /\ rWetness ref_b <= rWetness b' <= 100.
Proof.
  assert (Hsp : forall shooter, GetAgent ref_strip 1 = Some shooter -> 0 <= rSoakingPower shooter)
    by (intros shooter Hs; vm_compute in Hs; injection Hs as <-; simpl; lia).
  split; [exact Hsp|].
  destruct (Forall2_lookup_l _ _ _ 1%nat ref_b (ExecuteShoot_wetness ref_strip 1 2 Hsp) eq_refl)
    as (b' & Hb' & _ & _ & _ & _ & _ & Hw & _).
  exists b'. split; [exact Hb'|]. unfold ref_b in *. simpl in *. lia.
Defined.

(** On the referee strip the three agents stand apart, and agent 1's step
    toward (3,0) keeps it so. *)
Lemma referee_live_tiles_distinct_witness :
  live_tiles_distinct (rAgents ref_strip) /\ live_tiles_distinct (rAgents (ExecuteMove ref_strip 1 3 0)).
Proof.
  assert (Hd : live_tiles_distinct (rAgents ref_strip)).
  { intros i j a b Hij Ha Hb _ _.
    destruct i as [|[|[|i]]]; simpl in Ha; try discriminate; injection Ha as <-;
    destruct j as [|[|[|j]]]; simpl in Hb; try discriminate; injection Hb as <-;
    try lia; vm_compute; discriminate. }
  split; [exact Hd|]. exact (proj1 (referee_live_tiles_distinct ref_strip Hd) 1 3 0).
Defined.
